(** * Gyroscope trace blocks: parser, semantic validator, generator, batch validator

    A shallow embedding of [tools/gyroscope_peg_parser.py] and
    [tools/batch_validator.py].  Python [str] values are sequences of Unicode
    code points; the [result] dictionary that [parse_trace_block] mutates is
    threaded through a small state monad whose computations can also complete
    abruptly ([return result] inside the [try] block, or a raised exception). *)

From Stdlib Require Import Ascii String DecimalString.
From Stdlib Require Import List NArith ZArith Bool Lia Arith.
Import ListNotations.

Set Implicit Arguments.

(** ** Python strings *)

Module PyStr.

Definition char := N.
Definition str := list char.

(** *** Literals

    String literals of this file are UTF-8 encoded; [u] decodes them into
    code points, so that the arrow of the mode paths is the single code
    point U+2192 as it is in the Python source. *)

Definition byte_val (a : ascii) : N := N_of_ascii a.

Definition is_cont (b : N) : bool := (128 <=? b)%N && (b <? 192)%N.

Fixpoint utf8_decode (l : list N) : str :=
  match l with
  | [] => []
  | b0 :: l0 =>
    if (b0 <? 128)%N then b0 :: utf8_decode l0
    else
      match l0 with
      | b1 :: l1 =>
        if ((192 <=? b0) && (b0 <? 224) && is_cont b1)%N%bool then
          ((b0 - 192) * 64 + (b1 - 128))%N :: utf8_decode l1
        else
          match l1 with
          | b2 :: l2 =>
            if ((224 <=? b0) && (b0 <? 240) && is_cont b1 && is_cont b2)%N%bool then
              ((b0 - 224) * 4096 + (b1 - 128) * 64 + (b2 - 128))%N :: utf8_decode l2
            else
              match l2 with
              | b3 :: l3 =>
                if ((240 <=? b0) && (b0 <? 248) && is_cont b1 && is_cont b2
                    && is_cont b3)%N%bool then
                  ((b0 - 240) * 262144 + (b1 - 128) * 4096 + (b2 - 128) * 64
                   + (b3 - 128))%N :: utf8_decode l3
                else b0 :: utf8_decode l0
              | [] => b0 :: utf8_decode l0
              end
          | [] => b0 :: utf8_decode l0
          end
      | [] => [b0]
      end
  end.

Definition u (s : string) : str :=
  utf8_decode (map byte_val (list_ascii_of_string s)).
Arguments u s%_string.

(** The line feed, written [\n] in the source. *)
Definition LF : string := String (ascii_of_nat 10) EmptyString.

(** *** Equality, prefixes, substrings *)

Fixpoint str_eqb (a b : str) : bool :=
  match a, b with
  | [], [] => true
  | x :: a', y :: b' => (x =? y)%N && str_eqb a' b'
  | _, _ => false
  end.

(** [s.startswith(p)] *)
Fixpoint startswith (p s : str) : bool :=
  match p, s with
  | [], _ => true
  | x :: p', y :: s' => (x =? y)%N && startswith p' s'
  | _ :: _, [] => false
  end.

(** [p in s] *)
Fixpoint contains (p s : str) : bool :=
  startswith p s ||
  match s with
  | [] => false
  | _ :: s' => contains p s'
  end.

(** *** Character classes of the interpreter

    [str.isspace]: the characters that [str.strip()] removes. *)
Definition isspace (c : char) : bool :=
  ((9 <=? c) && (c <=? 13) || (28 <=? c) && (c <=? 32)
   || (c =? 133) || (c =? 160) || (c =? 5760)
   || (8192 <=? c) && (c <=? 8202)
   || (c =? 8232) || (c =? 8233) || (c =? 8239) || (c =? 8287)
   || (c =? 12288))%N.

(** First code points of the runs of ten decimal digits (Unicode general
    category Nd, Unicode 14 as shipped with CPython 3.11): what [\d] matches
    in a [str] pattern and what [int()] converts. *)
Definition decimal_zeros : list N :=
  [ 48; 1632; 1776; 1984; 2406; 2534; 2662; 2790; 2918; 3046; 3174; 3302;
    3430; 3558; 3664; 3792; 3872; 4160; 4240; 6112; 6160; 6470; 6608; 6784;
    6800; 6992; 7088; 7232; 7248; 42528; 43216; 43264; 43472; 43504; 43600;
    44016; 65296; 66720; 68912; 69734; 69872; 69942; 70096; 70384; 70736;
    70864; 71248; 71360; 71472; 71904; 72016; 72784; 73040; 73120; 92768;
    92864; 93008; 120782; 120792; 120802; 120812; 120822; 123200; 123632;
    125264; 130032 ]%N.

(** The decimal value of a character, when it is a decimal digit. *)
Definition digit_value (c : char) : option N :=
  match find (fun z => (z <=? c) && (c <? z + 10))%N decimal_zeros with
  | Some z => Some (c - z)%N
  | None => None
  end.

Definition isdecimal (c : char) : bool :=
  match digit_value c with Some _ => true | None => false end.

Definition in_range (lo hi : string) (c : char) : bool :=
  match u lo, u hi with
  | [a], [b] => ((a <=? c) && (c <=? b))%N
  | _, _ => false
  end.
Arguments in_range (lo hi)%_string c.

Definition is_ascii_letter (c : char) : bool :=
  in_range "A" "Z" c || in_range "a" "z" c.

(** [c in chars], for a string of admissible characters *)
Definition one_of (chars : string) (c : char) : bool :=
  existsb (N.eqb c) (u chars).
Arguments one_of chars%_string c.

(** *** [strip] and [split] *)

Fixpoint lstrip (s : str) : str :=
  match s with
  | c :: s' => if isspace c then lstrip s' else s
  | [] => []
  end.

Definition rstrip (s : str) : str := rev (lstrip (rev s)).

Definition strip (s : str) : str := rstrip (lstrip s).

(** [s.split(sep)] for a non-empty separator: the pieces between the
    occurrences of [sep], found from left to right without overlap.  [skip]
    counts the characters of an occurrence that are still to be passed. *)
Fixpoint split_from (sep : str) (skip : nat) (s : str) : list str :=
  match s with
  | [] => [[]]
  | c :: s' =>
    match skip with
    | S n => split_from sep n s'
    | O =>
      if startswith sep s then [] :: split_from sep (length sep - 1) s'
      else
        match split_from sep 0 s' with
        | piece :: rest => (c :: piece) :: rest
        | [] => [[c]]
        end
    end
  end.

Definition split (sep : string) (s : str) : list str := split_from (u sep) 0 s.
Arguments split sep%_string s.

(** Truth value of a string: non-empty *)
Definition truthy (s : str) : bool :=
  match s with [] => false | _ :: _ => true end.

(** *** Numbers *)

(** [str(n)] for a natural number *)
Definition str_of_N (n : N) : str := u (NilZero.string_of_uint (N.to_uint n)).

Definition zeros (k : nat) : str := repeat 48%N k.

(** [format(n, "0wd")]: sign-aware zero padding to width [w] *)
Definition format_0d (w : nat) (z : Z) : str :=
  let digits := str_of_N (Z.abs_N z) in
  if (z <? 0)%Z then u "-" ++ zeros (w - 1 - length digits) ++ digits
  else zeros (w - length digits) ++ digits.

End PyStr.
Import PyStr.

(** ** Regular expressions

    The fragment of Python's [re] that the grammar uses: literals, character
    classes, concatenation, ordered alternation, capture groups, and the
    greedy [+] applied to a character class.  [re.match] anchors at the start
    of the string only and explores the alternatives in priority order with
    backtracking; the matcher below does the same, in continuation-passing
    style.  No group of the grammar is nested in another, so the captures are
    collected in the order in which the groups close. *)

Module Regex.

Inductive regex : Type :=
| Eps
| Cls (p : char -> bool)
| Cat (r1 r2 : regex)
| Alt (r1 r2 : regex)
| Plus (p : char -> bool)
| Grp (r : regex).

Definition Chr (c : char) : regex := Cls (N.eqb c).

(** A literal piece of pattern text (with the backslash escapes removed) *)
Definition Lit (s : string) : regex :=
  fold_right (fun c r => Cat (Chr c) r) Eps (u s).
Arguments Lit s%_string.

(** [r{n}] for a character class *)
Fixpoint Rep (n : nat) (p : char -> bool) : regex :=
  match n with
  | O => Eps
  | S n' => Cat (Cls p) (Rep n' p)
  end.

(** A pattern as a sequence of its pieces *)
Definition Seq (rs : list regex) : regex := fold_right Cat Eps rs.

Section Matcher.
Variable R : Type.

(** Greedy repetition of a class: as long as possible first, then
    shorter. *)
Fixpoint star_greedy (p : char -> bool) (s : str) (k : str -> option R)
  : option R :=
  match s with
  | c :: s' =>
    if p c then
      match star_greedy p s' k with
      | Some x => Some x
      | None => k s
      end
    else k s
  | [] => k s
  end.

Fixpoint run (r : regex) (s : str) (caps : list str)
         (k : str -> list str -> option R) : option R :=
  match r with
  | Eps => k s caps
  | Cls p =>
    match s with
    | c :: s' => if p c then k s' caps else None
    | [] => None
    end
  | Cat r1 r2 => run r1 s caps (fun s' caps' => run r2 s' caps' k)
  | Alt r1 r2 =>
    match run r1 s caps k with
    | Some x => Some x
    | None => run r2 s caps k
    end
  | Plus p =>
    match s with
    | c :: s' => if p c then star_greedy p s' (fun s'' => k s'' caps) else None
    | [] => None
    end
  | Grp r1 =>
    run r1 s caps
        (fun s' caps' => k s' (caps' ++ [firstn (length s - length s') s]))
  end.
End Matcher.

(** [re.match(r, s)]: the groups of the first match and the unmatched rest
    of [s], or [None]. *)
Definition match_prefix (r : regex) (s : str) : option (list str * str) :=
  run r s [] (fun rest caps => Some (caps, rest)).

(** [re.match(r, s)] followed by [.groups()] *)
Definition re_match (r : regex) (s : str) : option (list str) :=
  option_map fst (match_prefix r s).

(** What it means for [r] to match exactly the string [w] with captures
    [cs]; the matcher is sound for it. *)
Inductive Matches : regex -> str -> list str -> Prop :=
| M_Eps : Matches Eps [] []
| M_Cls p c : p c = true -> Matches (Cls p) [c] []
| M_Cat r1 r2 w1 w2 cs1 cs2 :
    Matches r1 w1 cs1 -> Matches r2 w2 cs2 ->
    Matches (Cat r1 r2) (w1 ++ w2) (cs1 ++ cs2)
| M_AltL r1 r2 w cs : Matches r1 w cs -> Matches (Alt r1 r2) w cs
| M_AltR r1 r2 w cs : Matches r2 w cs -> Matches (Alt r1 r2) w cs
| M_Plus p w : w <> [] -> forallb p w = true -> Matches (Plus p) w []
| M_Grp r w cs : Matches r w cs -> Matches (Grp r) w (cs ++ [w]).

(** A pattern without groups captures nothing. *)
Fixpoint groupless (r : regex) : bool :=
  match r with
  | Eps | Cls _ | Plus _ => true
  | Cat r1 r2 | Alt r1 r2 => groupless r1 && groupless r2
  | Grp _ => false
  end.

(** [succeeds r w cs]: in front of any rest, [r] matches [w] with the
    captures [cs], provided what follows in the pattern accepts the rest. *)
Definition succeeds (r : regex) (w : str) (cs : list str) : Prop :=
  forall (R : Type) (s : str) (caps : list str)
         (k : str -> list str -> option R) (x : R),
    k s (caps ++ cs) = Some x -> run r (w ++ s) caps k = Some x.

(** [fails r w]: no match of [r] starts with [w] followed by anything. *)
Definition fails (r : regex) (w : str) : Prop :=
  forall (R : Type) (s : str) (caps : list str)
         (k : str -> list str -> option R),
    run r (w ++ s) caps k = None.

End Regex.
Import Regex.

(** ** The grammar ([GyroscopePEGParser.__init__]) *)

Module Grammar.

Definition HEADER : regex := Lit "[Gyroscope - Start]".
Definition VERSION : regex := Lit "[v0.7 Beta: Governance Alignment Metadata]".
Definition PURPOSE : regex :=
  Lit "[Purpose: 4-State Alignment through Recursive Reasoning via Gyroscope. Order matters. Context continuity is preserved across the last 3 messages.]".

Definition not_paren (c : char) : bool := negb (one_of "()" c).

(** [([@&%~]) = ([^()]+) \(([^()]+)\)] *)
Definition state : regex :=
  Seq [ Grp (Cls (one_of "@&%~")); Lit " = "; Grp (Plus not_paren); Lit " (";
        Grp (Plus not_paren); Lit ")" ].

(** [.] matches everything but a line feed. *)
Definition dot (c : char) : bool := negb (one_of LF c).

(** [([A-Za-z]+) \(([A-Za-z]+)\) = (.+)] *)
Definition mode : regex :=
  Seq [ Grp (Plus is_ascii_letter); Lit " ("; Grp (Plus is_ascii_letter);
        Lit ") = "; Grp (Plus dot) ].

Definition letter_or_slash (c : char) : bool :=
  is_ascii_letter c || one_of "/" c.

(** [Current \(([A-Za-z/]+)\) = ([A-Za-z]+)] *)
Definition current_mode : regex :=
  Seq [ Lit "Current ("; Grp (Plus letter_or_slash); Lit ") = ";
        Grp (Plus is_ascii_letter) ].

(** [\d{4}-\d{2}-\d{2}T\d{2}:\d{2}] *)
Definition timestamp : regex :=
  Seq [ Rep 4 isdecimal; Lit "-"; Rep 2 isdecimal; Lit "-"; Rep 2 isdecimal;
        Lit "T"; Rep 2 isdecimal; Lit ":"; Rep 2 isdecimal ].

(** [\[Data: Timestamp = (...), Mode = ([A-Za-z]+), Alignment \([YN]/N\) = ([YN]), ID = (\d+)\]] *)
Definition DATA : regex :=
  Seq [ Lit "[Data: Timestamp = "; Grp timestamp; Lit ", Mode = ";
        Grp (Plus is_ascii_letter); Lit ", Alignment ("; Cls (one_of "YN");
        Lit "/N) = "; Grp (Cls (one_of "YN")); Lit ", ID = ";
        Grp (Plus isdecimal); Lit "]" ].

Definition FOOTER : regex := Lit "[Gyroscope - End]".

(** [self.expected_states] and [self.expected_policies] *)
Definition expected_states : list (str * str) :=
  [ (u "@", u "Governance Traceability");
    (u "&", u "Information Variety");
    (u "%", u "Inference Accountability");
    (u "~", u "Intelligence Integrity") ].

Definition expected_policies : list (str * str) :=
  [ (u "@", u "Common Source");
    (u "&", u "Unity Non-Absolute");
    (u "%", u "Opposition Non-Absolute");
    (u "~", u "Balance Universal") ].

End Grammar.

(** ** Dictionaries

    A Python [dict] keeps its keys in the order of their first insertion;
    [list(d.keys())] and [d.items()] follow that order. *)

Module Dict.

Definition dict (V : Type) := list (str * V).

Fixpoint get {V} (k : str) (d : dict V) : option V :=
  match d with
  | [] => None
  | (k', v) :: d' => if str_eqb k' k then Some v else get k d'
  end.

(** [d[k] = v] *)
Fixpoint set {V} (k : str) (v : V) (d : dict V) : dict V :=
  match d with
  | [] => [(k, v)]
  | (k', v') :: d' =>
    if str_eqb k' k then (k', v) :: d' else (k', v') :: set k v d'
  end.

Definition keys {V} (d : dict V) : list str := map fst d.

End Dict.

(** ** Dates ([datetime]) *)

Module Datetime.

Record datetime := {
  year : N; month : N; day : N; hour : N; minute : N
}.

Definition is_leap (y : N) : bool :=
  ((y mod 4 =? 0) && (negb (y mod 100 =? 0) || (y mod 400 =? 0)))%N.

Definition days_in_month (y m : N) : N :=
  (if m =? 2 then (if is_leap y then 29 else 28)
   else if (m =? 4) || (m =? 6) || (m =? 9) || (m =? 11) then 30
   else 31)%N.

(** The values a [datetime] can hold *)
Definition valid (d : datetime) : bool :=
  ((1 <=? year d) && (year d <=? 9999) && (1 <=? month d) && (month d <=? 12)
   && (1 <=? day d) && (day d <=? days_in_month (year d) (month d))
   && (hour d <=? 23) && (minute d <=? 59))%N.

(** [int(s)] for a string of decimal digits of any script *)
Definition int_of_digits (s : str) : N :=
  fold_left (fun acc c =>
               match digit_value c with
               | Some v => acc * 10 + v
               | None => acc
               end)%N s 0%N.

(** [d.strftime("%Y-%m-%dT%H:%M")].  The fields are zero-padded to two
    digits; the year is printed by the C library, which does not pad it. *)
Definition strftime (d : datetime) : str :=
  str_of_N (year d) ++ u "-" ++ format_0d 2 (Z.of_N (month d)) ++ u "-"
  ++ format_0d 2 (Z.of_N (day d)) ++ u "T" ++ format_0d 2 (Z.of_N (hour d))
  ++ u ":" ++ format_0d 2 (Z.of_N (minute d)).

(** The patterns of the directives, as [_strptime.TimeRE] has them:
    [%Y] is [(\d\d\d\d)], [%m] is [(1[0-2]|0[1-9]|[1-9])],
    [%d] is [(3[0-1]|[1-2]\d|0[1-9]|[1-9]| [1-9])],
    [%H] is [(2[0-3]|[0-1]\d|\d)], [%M] is [([0-5]\d|\d)]. *)
Definition d19 : regex := Cls (in_range "1" "9").

Definition re_Y : regex := Grp (Rep 4 isdecimal).

Definition re_m : regex :=
  Grp (Alt (Cat (Lit "1") (Cls (in_range "0" "2")))
      (Alt (Cat (Lit "0") d19) d19)).

Definition re_d : regex :=
  Grp (Alt (Cat (Lit "3") (Cls (in_range "0" "1")))
      (Alt (Cat (Cls (in_range "1" "2")) (Cls isdecimal))
      (Alt (Cat (Lit "0") d19)
      (Alt d19 (Cat (Lit " ") d19))))).

Definition re_H : regex :=
  Grp (Alt (Cat (Lit "2") (Cls (in_range "0" "3")))
      (Alt (Cat (Cls (in_range "0" "1")) (Cls isdecimal)) (Cls isdecimal))).

Definition re_M : regex :=
  Grp (Alt (Cat (Cls (in_range "0" "5")) (Cls isdecimal)) (Cls isdecimal)).

(** The pattern [_strptime] compiles for the format [%Y-%m-%dT%H:%M],
    with [re.IGNORECASE], which only concerns the letter T here. *)
Definition strptime_re : regex :=
  Seq [ re_Y; Lit "-"; re_m; Lit "-"; re_d; Cls (one_of "Tt"); re_H; Lit ":";
        re_M ].

(** [datetime.strptime(s, "%Y-%m-%dT%H:%M")]; [None] stands for the
    [ValueError] it raises: no match, unconverted data after the match, or a
    date that does not exist. *)
Definition strptime (s : str) : option datetime :=
  match match_prefix strptime_re s with
  | Some ([Y; m; d; H; Mi], []) =>
    let dt := {| year := int_of_digits Y; month := int_of_digits m;
                 day := int_of_digits d; hour := int_of_digits H;
                 minute := int_of_digits Mi |} in
    if valid dt then Some dt else None
  | _ => None
  end.

End Datetime.


(** ** Exceptions *)

Inductive exception : Type :=
| IndexError                      (* list index out of range *)
| KeyError (key : str)
| ValueError_unpack               (* wrong number of values to unpack *)
| ValueError_int_literal (s : str)     (* invalid literal for int() *)
| ValueError_int_digits (n : nat).     (* Exceeds the limit (4300 digits) *)

(** [sys.get_int_max_str_digits()], the interpreter's default *)
Definition int_max_str_digits : nat := 4300.

(** [int(s)] for a string of decimal digits, which is what the data pattern
    hands over.  (The signs, blanks and underscores that [int] also accepts
    are left out: such a string is refused here.) *)
Definition py_int (s : str) : exception + Z :=
  if negb (truthy s && forallb isdecimal s) then inl (ValueError_int_literal s)
  else if int_max_str_digits <? length s then inl (ValueError_int_digits (length s))
  else inr (Z.of_N (Datetime.int_of_digits s)).

(** ** The parser ([GyroscopePEGParser]) *)

Module Parser.

(** *** Error records

    One constructor for each message template of the source, carrying the
    values the template interpolates. *)
Inductive error : Type :=
| TooFewLines (found : nat)
    (* Too few lines, expected at least 10, found {len(lines)} *)
| InvalidHeader                   (* Invalid header format *)
| InvalidVersion                  (* Invalid version format *)
| InvalidPurpose                  (* Invalid purpose format *)
| MissingStatesSection            (* Missing states section *)
| InvalidStatesHeader             (* Invalid states section header *)
| MissingStateLine (n : nat)      (* Missing state line {i+1} *)
| InvalidStateFormat (lineno : nat) (line : str)
    (* Invalid state format at line {state_line_idx+1}: {state_line} *)
| UnknownStateSymbol (symbol : str)    (* Unknown state symbol: {symbol} *)
| IncorrectStateName (symbol expected got : str)
    (* Incorrect state name for {symbol}: expected '..', got '..' *)
| IncorrectPolicy (symbol expected got : str)
    (* Incorrect policy for {symbol}: expected '..', got '..' *)
| MissingModesSection             (* Missing modes section *)
| InvalidModesHeader              (* Invalid modes section header *)
| MissingModeLine (n : nat)       (* Missing mode line {i+1} *)
| InvalidModeFormat (lineno : nat) (line : str)
    (* Invalid mode format at line {mode_line_idx+1}: {mode_line} *)
| MissingCurrentModeLine          (* Missing current mode line *)
| InvalidCurrentModeFormat (line : str)
    (* Invalid current mode format: {current_mode_line} *)
| MissingDataLine                 (* Missing data line *)
| InvalidDataFormat (line : str)  (* Invalid data format: {data_line} *)
| InvalidTimestampFormat (timestamp : str)
    (* Invalid timestamp format: {timestamp} *)
| InvalidMode (mode : str)        (* Invalid mode: {mode} (expected Gen or Int) *)
| InvalidAlignment (alignment : str)
    (* Invalid alignment: {alignment} (expected Y or N) *)
| InvalidFooter                   (* Invalid or missing footer *)
| ParsingError (e : exception)    (* Parsing error: {str(e)} *)
| StatesOutOfOrder (expected actual : list str)
    (* States out of order for Generative mode. Expected {..}, got {..} *)
| IncorrectPath (mode_name expected got : str)
    (* Incorrect path for {mode_name}: expected '..', got '..' *)
| FileNotFound (filepath : str)   (* File not found: {filepath} *)
| ErrorReadingFile (message : str).    (* Error reading file: {str(e)} *)

(** *** The parsed block and the parse result *)

Record StateInfo := { name : str; policy : str }.
Record ModeInfo := { short : str; path : str }.
Record CurrentMode := { scope : str; mode : str }.
Record DataInfo := {
  timestamp : str; data_mode : str; alignment : str; trace_id : Z
}.

(** The dictionary [result["parsed"]]; a key that was never assigned is
    [None]. *)
Record Parsed := {
  header : option str;
  version : option str;
  purpose : option str;
  states : option (Dict.dict StateInfo);
  modes : option (Dict.dict ModeInfo);
  current_mode : option CurrentMode;
  data : option DataInfo;
  footer : option str
}.

Definition empty_parsed : Parsed :=
  {| header := None; version := None; purpose := None; states := None;
     modes := None; current_mode := None; data := None; footer := None |}.

Record ParseResult := {
  is_valid : bool;
  parsed : Parsed;
  errors : list error;
  warnings : list str
}.

Definition set_header v p :=
  {| header := v; version := version p; purpose := purpose p;
     states := states p; modes := modes p; current_mode := current_mode p;
     data := data p; footer := footer p |}.
Definition set_version v p :=
  {| header := header p; version := v; purpose := purpose p;
     states := states p; modes := modes p; current_mode := current_mode p;
     data := data p; footer := footer p |}.
Definition set_purpose v p :=
  {| header := header p; version := version p; purpose := v;
     states := states p; modes := modes p; current_mode := current_mode p;
     data := data p; footer := footer p |}.
Definition set_states v p :=
  {| header := header p; version := version p; purpose := purpose p;
     states := v; modes := modes p; current_mode := current_mode p;
     data := data p; footer := footer p |}.
Definition set_modes v p :=
  {| header := header p; version := version p; purpose := purpose p;
     states := states p; modes := v; current_mode := current_mode p;
     data := data p; footer := footer p |}.
Definition set_current_mode v p :=
  {| header := header p; version := version p; purpose := purpose p;
     states := states p; modes := modes p; current_mode := v;
     data := data p; footer := footer p |}.
Definition set_data v p :=
  {| header := header p; version := version p; purpose := purpose p;
     states := states p; modes := modes p; current_mode := current_mode p;
     data := v; footer := footer p |}.
Definition set_footer v p :=
  {| header := header p; version := version p; purpose := purpose p;
     states := states p; modes := modes p; current_mode := current_mode p;
     data := data p; footer := v |}.

(** *** The statements of the [try] block as computations on [result]

    A statement transforms [result] and completes normally, by
    [return result], or by raising; what it did to [result] before completing
    stays done, since the dictionary is mutated in place. *)

Inductive completion (A : Type) : Type :=
| Normal (a : A)
| Returned
| Raised (e : exception).
Arguments Returned {A}.
Arguments Raised {A} e.

Definition M (A : Type) : Type := ParseResult -> ParseResult * completion A.

Definition ret {A} (a : A) : M A := fun r => (r, Normal a).

Definition bind {A B} (m : M A) (f : A -> M B) : M B :=
  fun r =>
    match m r with
    | (r', Normal a) => f a r'
    | (r', Returned) => (r', Returned)
    | (r', Raised e) => (r', Raised e)
    end.

Notation "x <- m ;; k" := (bind m (fun x => k))
  (at level 61, m at next level, right associativity).
Notation "m ;; k" := (bind m (fun _ => k))
  (at level 61, right associativity).

Definition raise {A} (e : exception) : M A := fun r => (r, Raised e).

(** [return result] *)
Definition return_result {A} : M A := fun r => (r, Returned).

Definition pass : M unit := ret tt.

(** [result["errors"].append(e)] *)
Definition append_error (e : error) : M unit :=
  fun r => ({| is_valid := is_valid r; parsed := parsed r;
               errors := errors r ++ [e]; warnings := warnings r |}, Normal tt).

(** [result["is_valid"] = False] *)
Definition set_invalid : M unit :=
  fun r => ({| is_valid := false; parsed := parsed r;
               errors := errors r; warnings := warnings r |}, Normal tt).

(** The pair of statements that every defect runs *)
Definition report (e : error) : M unit := append_error e ;; set_invalid.

(** [result["parsed"][key] = v], for the setter of [key] *)
Definition assign (f : Parsed -> Parsed) : M unit :=
  fun r => ({| is_valid := is_valid r; parsed := f (parsed r);
               errors := errors r; warnings := warnings r |}, Normal tt).

(** [lines[i]] *)
Definition item (lines : list str) (i : nat) : M str :=
  match nth_error lines i with
  | Some l => ret l
  | None => raise IndexError
  end.

(** [lines[-1]] *)
Definition last_item (lines : list str) : M str :=
  match rev lines with
  | l :: _ => ret l
  | [] => raise IndexError
  end.

(** [d[k]] for one of the two tables of the grammar *)
Definition lookup (d : list (str * str)) (k : str) : M str :=
  match Dict.get k d with
  | Some v => ret v
  | None => raise (KeyError k)
  end.

(** [a, b, c = match.groups()] and its variants *)
Definition unpack2 (g : list str) : M (str * str) :=
  match g with [a; b] => ret (a, b) | _ => raise ValueError_unpack end.
Definition unpack3 (g : list str) : M (str * str * str) :=
  match g with [a; b; c] => ret (a, b, c) | _ => raise ValueError_unpack end.
Definition unpack4 (g : list str) : M (str * str * str * str) :=
  match g with [a; b; c; d] => ret (a, b, c, d) | _ => raise ValueError_unpack end.

(** [result["parsed"]["states"][symbol] = info] *)
Definition assign_state (symbol : str) (info : StateInfo) : M unit :=
  fun r =>
    match states (parsed r) with
    | Some d => assign (set_states (Some (Dict.set symbol info d))) r
    | None => (r, Raised (KeyError (u "states")))
    end.

(** [result["parsed"]["modes"][mode_type] = info] *)
Definition assign_mode (mode_type : str) (info : ModeInfo) : M unit :=
  fun r =>
    match modes (parsed r) with
    | Some d => assign (set_modes (Some (Dict.set mode_type info d))) r
    | None => (r, Raised (KeyError (u "modes")))
    end.

(** [int(s)] inside the [try] block *)
Definition int (s : str) : M Z :=
  match py_int s with
  | inr z => ret z
  | inl e => raise e
  end.

(** [for i in range(n): body] *)
Fixpoint for_each {A} (l : list A) (body : A -> M unit) : M unit :=
  match l with
  | [] => pass
  | x :: l' => body x ;; for_each l' body
  end.

Definition for_range (n : nat) (body : nat -> M unit) : M unit :=
  for_each (seq 0 n) body.

Definition matches (r : regex) (s : str) : bool :=
  match re_match r s with Some _ => true | None => false end.

(** *** [parse_trace_block] *)

(** [[line.strip() for line in trace_block.strip().split('\n') if line.strip()]] *)
Definition lines_of (trace_block : str) : list str :=
  map strip (filter (fun line => truthy (strip line)) (split LF (strip trace_block))).

Definition states_section_start : nat := 3.
Definition modes_section_start : nat := states_section_start + 5.
Definition current_mode_idx : nat := modes_section_start + 3.
Definition data_idx : nat := current_mode_idx + 1.

(** The body of the loop over the four state lines *)
Definition parse_state_line (lines : list str) (i : nat) : M unit :=
  let state_line_idx := states_section_start + 1 + i in
  if length lines <=? state_line_idx then report (MissingStateLine (i + 1))
  else
    state_line <- item lines state_line_idx ;;
    match re_match Grammar.state state_line with
    | None => report (InvalidStateFormat (state_line_idx + 1) state_line)
    | Some groups =>
      g <- unpack3 groups ;;
      let '(symbol, state_name, policy) := g in
      assign_state symbol {| name := state_name; policy := policy |} ;;
      match Dict.get symbol Grammar.expected_states with
      | None => report (UnknownStateSymbol symbol)
      | Some expected_name =>
        if negb (str_eqb state_name expected_name)
        then report (IncorrectStateName symbol expected_name state_name)
        else
          expected_policy <- lookup Grammar.expected_policies symbol ;;
          if negb (str_eqb policy expected_policy)
          then report (IncorrectPolicy symbol expected_policy policy)
          else pass
      end
    end.

(** The body of the loop over the two mode lines *)
Definition parse_mode_line (lines : list str) (i : nat) : M unit :=
  let mode_line_idx := modes_section_start + 1 + i in
  if length lines <=? mode_line_idx then report (MissingModeLine (i + 1))
  else
    mode_line <- item lines mode_line_idx ;;
    match re_match Grammar.mode mode_line with
    | None => report (InvalidModeFormat (mode_line_idx + 1) mode_line)
    | Some groups =>
      g <- unpack3 groups ;;
      let '(mode_type, mode_short, path) := g in
      assign_mode mode_type {| short := mode_short; path := path |}
    end.

Definition parse_current_mode (lines : list str) : M unit :=
  if length lines <=? current_mode_idx then report MissingCurrentModeLine
  else
    current_mode_line <- item lines current_mode_idx ;;
    match re_match Grammar.current_mode current_mode_line with
    | None => report (InvalidCurrentModeFormat current_mode_line)
    | Some groups =>
      g <- unpack2 groups ;;
      let '(scope, current_mode) := g in
      assign (set_current_mode (Some {| scope := scope; mode := current_mode |}))
    end.

Definition is_Gen_or_Int (s : str) : bool :=
  str_eqb s (u "Gen") || str_eqb s (u "Int").

Definition is_Y_or_N (s : str) : bool :=
  str_eqb s (u "Y") || str_eqb s (u "N").

Definition parse_data (lines : list str) : M unit :=
  if length lines <=? data_idx then report MissingDataLine
  else
    data_line <- item lines data_idx ;;
    match re_match Grammar.DATA data_line with
    | None => report (InvalidDataFormat data_line)
    | Some groups =>
      g <- unpack4 groups ;;
      let '(timestamp, mode, alignment, trace_id) := g in
      id <- int trace_id ;;
      assign (set_data (Some {| timestamp := timestamp; data_mode := mode;
                                alignment := alignment; trace_id := id |})) ;;
      match Datetime.strptime timestamp with
      | Some _ => pass
      | None => report (InvalidTimestampFormat timestamp)
      end ;;
      (if negb (is_Gen_or_Int mode) then report (InvalidMode mode) else pass) ;;
      (if negb (is_Y_or_N alignment) then report (InvalidAlignment alignment)
       else pass)
    end.

(** The header, version and purpose lines *)
Definition parse_header (lines : list str) : M unit :=
  l0 <- item lines 0 ;;
  (if negb (matches Grammar.HEADER l0) then report InvalidHeader else pass) ;;
  assign (set_header (Some l0)).

Definition parse_version (lines : list str) : M unit :=
  l1 <- item lines 1 ;;
  (if negb (matches Grammar.VERSION l1) then report InvalidVersion else pass) ;;
  assign (set_version (Some l1)).

Definition parse_purpose (lines : list str) : M unit :=
  l2 <- item lines 2 ;;
  (if negb (matches Grammar.PURPOSE l2) then report InvalidPurpose else pass) ;;
  assign (set_purpose (Some l2)).

(** The states section *)
Definition parse_states (lines : list str) : M unit :=
  (if length lines <=? states_section_start
   then report MissingStatesSection ;; return_result
   else pass) ;;
  l3 <- item lines states_section_start ;;
  (if negb (startswith (u "[States") l3)
   then report InvalidStatesHeader ;; return_result
   else pass) ;;
  assign (set_states (Some [])) ;;
  for_range 4 (parse_state_line lines).

(** The modes section, up to its two mode lines *)
Definition parse_modes (lines : list str) : M unit :=
  (if length lines <=? modes_section_start
   then report MissingModesSection ;; return_result
   else pass) ;;
  l8 <- item lines modes_section_start ;;
  (if negb (contains (u "[Modes") l8)
   then report InvalidModesHeader ;; return_result
   else pass) ;;
  assign (set_modes (Some [])) ;;
  for_range 2 (parse_mode_line lines).

(** The footer, which should be the last line *)
Definition parse_footer (lines : list str) : M unit :=
  last <- last_item lines ;;
  (if negb (str_eqb last (u "[Gyroscope - End]")) then report InvalidFooter
   else pass) ;;
  assign (set_footer (Some last)).

(** The [try] block, section after section *)
Definition parse_lines (lines : list str) : M unit :=
  parse_header lines ;;
  parse_version lines ;;
  parse_purpose lines ;;
  parse_states lines ;;
  parse_modes lines ;;
  parse_current_mode lines ;;
  parse_data lines ;;
  parse_footer lines.

Definition initial_result : ParseResult :=
  {| is_valid := true; parsed := empty_parsed; errors := []; warnings := [] |}.

(** The line-count check that precedes the [try] block *)
Definition check_line_count (lines : list str) : M unit :=
  if length lines <? 10 then report (TooFewLines (length lines)) else pass.

(** [try: body except Exception as e: handler] *)
Definition try_except {A} (body : M A) (handler : exception -> M A) : M A :=
  fun r =>
    match body r with
    | (r', Raised e) => handler e r'
    | other => other
    end.

(** The statements that follow the computation of [lines], up to
    [return result] *)
Definition parse_block_lines (lines : list str) : M unit :=
  check_line_count lines ;;
  try_except (parse_lines lines) (fun e => report (ParsingError e)) ;;
  return_result.

(** The body of the function *)
Definition parse_trace_block_body (trace_block : str) : M unit :=
  let lines := lines_of trace_block in
  parse_block_lines lines.

(** What the caller of the function sees: the [result] it returns, or the
    exception that escaped it. *)
Definition call (body : M unit) (result : ParseResult)
  : exception + ParseResult :=
  match body result with
  | (_, Raised e) => inl e
  | (result', _) => inr result'
  end.

Definition parse_trace_block (trace_block : str) : exception + ParseResult :=
  call (parse_trace_block_body trace_block) initial_result.

(** The result of the call ([initial_result] stands in for a call that
    raised; the properties below show that there is none). *)
Definition parse (trace_block : str) : ParseResult :=
  match parse_trace_block trace_block with
  | inr result => result
  | inl _ => initial_result
  end.

(** *** [validate_semantic_structure] *)

Definition expected_order : list str := [u "@"; u "&"; u "%"; u "~"].

Definition expected_paths : Dict.dict str :=
  [ (u "Generative", u "@ → & → % → ~");
    (u "Integrative", u "~ → % → & → @") ].

Fixpoint list_str_eqb (a b : list str) : bool :=
  match a, b with
  | [], [] => true
  | x :: a', y :: b' => str_eqb x y && list_str_eqb a' b'
  | _, _ => false
  end.

(** [parsed.get("parsed", {}).get("current_mode", {}).get("mode")] *)
Definition declared_mode (r : ParseResult) : option str :=
  option_map mode (current_mode (parsed r)).

(** [parsed.get("parsed", {}).get("states", {})] *)
Definition states_of (r : ParseResult) : Dict.dict StateInfo :=
  match states (parsed r) with Some d => d | None => [] end.

(** [parsed.get("parsed", {}).get("modes", {})] *)
Definition modes_of (r : ParseResult) : Dict.dict ModeInfo :=
  match modes (parsed r) with Some d => d | None => [] end.

Definition check_state_order (r : ParseResult) : list error :=
  match declared_mode r with
  | Some m =>
    if str_eqb m (u "Gen") then
      let actual_order := Dict.keys (states_of r) in
      if negb (list_str_eqb actual_order expected_order)
      then [StatesOutOfOrder expected_order actual_order]
      else []
    else []
  | None => []
  end.

Definition check_mode_path (entry : str * ModeInfo) : list error :=
  let (mode_name, mode_info) := entry in
  match Dict.get mode_name expected_paths with
  | Some expected_path =>
    if truthy expected_path && negb (str_eqb (path mode_info) expected_path)
    then [IncorrectPath mode_name expected_path (path mode_info)]
    else []
  | None => []
  end.

Definition validate_semantic_structure (r : ParseResult) : list error :=
  check_state_order r ++ flat_map check_mode_path (modes_of r).

(** *** [generate_trace_block] *)

(** [s.join(pieces)] *)
Fixpoint join (sep : str) (pieces : list str) : str :=
  match pieces with
  | [] => []
  | [p] => p
  | p :: rest => p ++ sep ++ join sep rest
  end.

(** The lines of the f-string; [now] is what [datetime.now()] returned. *)
Definition trace_block_lines (now : Datetime.datetime) (mode : str)
           (trace_id : Z) : list str :=
  let timestamp := Datetime.strftime now in
  [ u "[Gyroscope - Start]";
    u "[v0.7 Beta: Governance Alignment Metadata]";
    u "[Purpose: 4-State Alignment through Recursive Reasoning via Gyroscope. Order matters. Context continuity is preserved across the last 3 messages.]";
    u "[States {Format: Symbol = How (Why)}:";
    u "@ = Governance Traceability (Common Source),";
    u "& = Information Variety (Unity Non-Absolute),";
    u "% = Inference Accountability (Opposition Non-Absolute),";
    u "~ = Intelligence Integrity (Balance Universal)]";
    u "[Modes {Format: Type = Path}:";
    u "Generative (Gen) = @ → & → % → ~,";
    u "Integrative (Int) = ~ → % → & → @,";
    u "Current (Gen/Int) = " ++ mode ++ u "]";
    u "[Data: Timestamp = " ++ timestamp ++ u ", Mode = " ++ mode
      ++ u ", Alignment (Y/N) = Y, ID = " ++ format_0d 3 trace_id ++ u "]";
    u "[Gyroscope - End]" ].

(** The text the f-string evaluates to *)
Definition generate_trace_block (now : Datetime.datetime) (mode : str)
           (trace_id : Z) : str :=
  join (u LF) (trace_block_lines now mode trace_id).

End Parser.

(** ** The batch validator ([BatchValidator]) *)

Module Batch.

Import Parser.

(** A validation result dictionary.  The two results that stand for a file
    that could not be read have no [parsed_data] and no [line_count]. *)
Record SegmentResult := {
  source : str;
  is_valid : bool;
  errors : list error;
  warnings : list str;
  parsed_data : option Parsed;
  line_count : option nat
}.

Record BatchValidator := { results : list SegmentResult }.

(** [validate_trace_block(content, source)] *)
Definition validate_trace_block (content source : str) : SegmentResult :=
  let parsed := parse content in
  let semantic_errors := validate_semantic_structure parsed in
  let all_errors := Parser.errors parsed ++ semantic_errors in
  {| source := source;
     is_valid := Parser.is_valid parsed && (length semantic_errors =? 0);
     errors := all_errors;
     warnings := Parser.warnings parsed;
     parsed_data := Some (Parser.parsed parsed);
     line_count := Some (if truthy (strip content)
                         then length (split LF (strip content)) else 0) |}.

(** [enumerate(blocks)] *)
Definition enumerate {A} (l : list A) : list (nat * A) :=
  combine (seq 0 (length l)) l.

Definition str_of_nat (n : nat) : str := str_of_N (N.of_nat n).

(** What [open(filepath).read()] did *)
Inductive read_outcome : Type :=
| Content (content : str)
| NotFound                        (* FileNotFoundError *)
| Failed (message : str).         (* any other exception, with its text *)

Definition unreadable (filepath : str) (e : error) : SegmentResult :=
  {| source := filepath; is_valid := false; errors := [e]; warnings := [];
     parsed_data := None; line_count := None |}.

(** [validate_from_file(filepath)] *)
Definition validate_from_file (filepath : str) (file : read_outcome)
  : list SegmentResult :=
  match file with
  | Content content =>
    let blocks := split (LF ++ LF) content in
    let results :=
      flat_map (fun entry : nat * str =>
                  let (i, block) := entry in
                  let block := strip block in
                  if truthy block && (10 <=? length (split LF block))
                  then [validate_trace_block block
                          (u "file:" ++ filepath ++ u ":block_"
                             ++ str_of_nat (i + 1))]
                  else [])
               (enumerate blocks) in
    match results with
    | [] => [validate_trace_block content (u "file:" ++ filepath)]
    | _ :: _ => results
    end
  | NotFound => [unreadable filepath (FileNotFound filepath)]
  | Failed message => [unreadable filepath (ErrorReadingFile message)]
  end.

(** [validate_batch_from_stdin()], for what [sys.stdin.read()] returned:
    the validator with its [results] extended, and the returned list. *)
Definition validate_batch_from_stdin (self : BatchValidator) (content : str)
  : BatchValidator * list SegmentResult :=
  let blocks := split (LF ++ LF) content in
  let new_results :=
    flat_map (fun entry : nat * str =>
                let (i, block) := entry in
                let block := strip block in
                if truthy block && (10 <=? length (split LF block))
                then [validate_trace_block block
                        (u "stdin:block_" ++ str_of_nat (i + 1))]
                else [])
             (enumerate blocks) in
  ({| results := results self ++ new_results |}, new_results).

(** [validate_from_string(content, source)] *)
Definition validate_from_string (content source : str) : SegmentResult :=
  validate_trace_block content source.

(** [validate_batch_from_files(filepaths)], each path given with what
    reading it did: the validator with its [results] extended, and the
    returned list. *)
Definition validate_batch_from_files (self : BatchValidator)
           (files : list (str * read_outcome))
  : BatchValidator * list SegmentResult :=
  let new_results :=
    flat_map (fun entry : str * read_outcome =>
                let (filepath, file) := entry in
                validate_from_file filepath file)
             files in
  ({| results := results self ++ new_results |}, new_results).

(** *** [main]

    What [main] prints, one constructor for each text, carrying the values
    the text interpolates; and the exception that ends it where a local
    variable is read that no statement has assigned. *)

Inductive output : Type :=
| Usage                           (* Gyroscope Batch Validator / Usage: ... *)
| ReadingStdin                    (* Reading trace blocks from stdin... *)
| Processed (n : nat)             (* Processed {len(results)} trace blocks *)
| Report (results : list SegmentResult) (format_type : str)
    (* validator.generate_report(format_type), for validator.results *)
| Help                            (* Gyroscope Batch Validator - Help ... *)
| Validating (n : nat)            (* Validating {len(filepaths)} files... *)
| Summary (valid_count total_count : nat).
    (* Summary: {valid_count}/{total_count} blocks valid ({success_rate}),
       the rate being their ratio in percent with one decimal *)

Inductive main_exception : Type :=
| UnboundLocalError (name : str).
    (* cannot access local variable '{name}' where it is not associated
       with a value *)

(** [main()], for [sys.argv], what [sys.stdin.read()] returns and what
    reading the file at a path does: what was printed, and the exception
    that ended the call if there was one. *)
Definition main (argv : list str) (stdin : str) (read : str -> read_outcome)
  : list output * option main_exception :=
  let validator := {| results := [] |} in
  if length argv <? 2 then ([Usage], None)
  else
    let command := nth 1 argv [] in
    let '(validator, printed) :=
      if str_eqb command (u "--stdin") then
        let '(validator, results) := validate_batch_from_stdin validator stdin in
        (validator, [ReadingStdin; Processed (length results)])
      else if str_eqb command (u "--report") then
        let format_type := if 2 <? length argv then nth 2 argv [] else u "text" in
        (validator, [Report (results validator) format_type])
      else if str_eqb command (u "--help") then
        (validator, [Help])
      else
        let filepaths := tl argv in
        let '(validator, results) :=
          validate_batch_from_files validator
            (map (fun filepath => (filepath, read filepath)) filepaths) in
        (validator, [Validating (length filepaths); Processed (length results)])
    in
    match results validator with
    | _ :: _ =>
      let valid_count := length (filter is_valid (results validator)) in
      let total_count := length (results validator) in
      (printed ++ [Summary valid_count total_count], None)
    | [] => (printed, Some (UnboundLocalError (u "valid_count")))
    end.

(** A result without its [source] *)
Definition verdict (r : SegmentResult)
  : bool * list error * list str * option Parsed * option nat :=
  (is_valid r, errors r, warnings r, parsed_data r, line_count r).

End Batch.

(** ** What a statement does to the error list

    [effect P r r']: from [r] to [r'] some errors, all satisfying [P], were
    appended, the result was marked invalid exactly if there was one, and the
    warnings were left alone. *)

Module Effect.
Import Parser.

Definition effect (P : error -> Prop) (r r' : ParseResult) : Prop :=
  exists es,
    Forall P es /\ errors r' = errors r ++ es
    /\ is_valid r' = is_valid r && (match es with [] => true | _ :: _ => false end)
    /\ warnings r' = warnings r.

Definition reports (P : error -> Prop) {A} (m : M A) : Prop :=
  forall r, effect P r (fst (m r)).

(** [same_semantics r r']: the three fields that the semantic validator
    reads are the same in [r'] as in [r]. *)
Definition same_semantics (r r' : ParseResult) : Prop :=
  states (parsed r') = states (parsed r)
  /\ modes (parsed r') = modes (parsed r)
  /\ current_mode (parsed r') = current_mode (parsed r).

Definition keeps_semantics {A} (m : M A) : Prop :=
  forall r, same_semantics r (fst (m r)).

(** [ensures P m Q]: started in a result that satisfies [P], the statement
    [m] either completes normally in a result that satisfies [Q], or returns
    an invalid result, or raises. *)
Definition ensures (P : ParseResult -> Prop) {A} (m : M A)
           (Q : ParseResult -> Prop) : Prop :=
  forall r, P r ->
    match m r with
    | (r', Normal _) => Q r'
    | (r', Returned) => is_valid r' = false
    | (_, Raised _) => True
    end.

Definition anything (r : ParseResult) : Prop := True.

(** The current mode was extracted and is a non-empty run of ASCII
    letters. *)
Definition letters_mode (r : ParseResult) : Prop :=
  exists cm, current_mode (parsed r) = Some cm
             /\ mode cm <> [] /\ forallb is_ascii_letter (mode cm) = true.

Definition invalid_or_letters_mode (r : ParseResult) : Prop :=
  is_valid r = false \/ letters_mode r.

(** [keeps_field proj m]: the statement [m] leaves the field [proj] of the
    parsed block as it is. *)
Definition keeps_field {F : Type} (proj : Parsed -> F) {A} (m : M A) : Prop :=
  forall r, proj (parsed (fst (m r))) = proj (parsed r).

(** [invalid_or G r]: the result is marked invalid, or its parsed block
    satisfies [G]. *)
Definition invalid_or (G : Parsed -> Prop) (r : ParseResult) : Prop :=
  is_valid r = false \/ G (parsed r).

(** The entry of a state is the one the grammar fixes for its symbol. *)
Definition canonical_state (entry : str * StateInfo) : Prop :=
  Dict.get (fst entry) Grammar.expected_states = Some (name (snd entry))
  /\ Dict.get (fst entry) Grammar.expected_policies = Some (policy (snd entry)).

Definition canonical_states (p : Parsed) : Prop :=
  exists d, states p = Some d /\ Forall canonical_state d.

(** The data record was extracted; its mode is Gen or Int, its alignment
    Y or N, its timestamp a date that exists, its identifier not negative. *)
Definition data_ok (p : Parsed) : Prop :=
  exists d, data p = Some d
            /\ (data_mode d = u "Gen" \/ data_mode d = u "Int")
            /\ (alignment d = u "Y" \/ alignment d = u "N")
            /\ Datetime.strptime (timestamp d) <> None
            /\ (0 <= trace_id d)%Z.

(** The line at the place of the data line matches the data pattern. *)
Definition data_line_matched (lines : list str) : Prop :=
  exists line, nth_error lines data_idx = Some line
               /\ re_match Grammar.DATA line <> None.

(** The last line is the footer. *)
Definition footer_last (lines : list str) : Prop :=
  exists before, rev lines = u "[Gyroscope - End]" :: before.

(** What the data line and the footer contribute to a valid result *)
Definition complete (lines : list str) (p : Parsed) : Prop :=
  data_ok p /\ data_line_matched lines
  /\ footer p = Some (u "[Gyroscope - End]") /\ footer_last lines.

(** [always_field proj I m]: what [I] says of the field [proj] stays true
    through the statement [m], however it completes. *)
Definition always_field {F : Type} (proj : Parsed -> F) (I : F -> Prop)
           {A} (m : M A) : Prop :=
  forall r, I (proj (parsed r)) -> I (proj (parsed (fst (m r)))).

(** The keys of the states are symbols of the grammar, each at most once. *)
Definition symbol_keys (o : option (Dict.dict StateInfo)) : Prop :=
  match o with
  | None => True
  | Some d =>
    NoDup (Dict.keys d) /\ Forall (fun k => In k expected_order) (Dict.keys d)
  end.

(** [raises J Q m]: started where [J] holds of the parsed block, the
    statement [m] raises only exceptions that satisfy [Q], and [J] holds
    again when it does not raise. *)
Definition raises (J : Parsed -> Prop) (Q : exception -> Prop)
           {A} (m : M A) : Prop :=
  forall r, J (parsed r) ->
    match snd (m r) with
    | Raised e => Q e
    | _ => J (parsed (fst (m r)))
    end.

Definition any_parsed (p : Parsed) : Prop := True.
Definition has_states (p : Parsed) : Prop := states p <> None.
Definition has_modes (p : Parsed) : Prop := modes p <> None.

(** The exceptions that the [try] block can raise on these lines: an index
    out of range when there are fewer than three lines, and the refusal of
    [int] to convert more than 4300 digits. *)
Definition possible_exception (lines : list str) (e : exception) : Prop :=
  match e with
  | IndexError => length lines < 3
  | ValueError_int_digits n => int_max_str_digits < n
  | KeyError _ | ValueError_unpack | ValueError_int_literal _ => False
  end.

(** The errors that the parser can report on these lines *)
Definition possible_error (lines : list str) (e : error) : Prop :=
  match e with
  | TooFewLines found => found = length lines /\ found < 10
  | ParsingError e => possible_exception lines e
  | UnknownStateSymbol _ | InvalidAlignment _ => False
  | StatesOutOfOrder _ _ | IncorrectPath _ _ _ => False
  | FileNotFound _ | ErrorReadingFile _ => False
  | _ => True
  end.

(** The two fields that carry what the semantic validator reports on *)
Definition modes_and_current (p : Parsed)
  : option (Dict.dict ModeInfo) * option CurrentMode :=
  (modes p, current_mode p).

(** The errors of the state-line loop that tell their place.  In its
    iteration [i] (from 0) the loop reports "Missing state line {i+1}" or
    "Invalid state format at line {state_line_idx+1}: ..." with
    [state_line_idx = states_section_start + 1 + i]. *)
Definition at_state_position (i : nat) (e : error) : bool :=
  match e with
  | MissingStateLine n => n =? i + 1
  | InvalidStateFormat lineno _ => lineno =? states_section_start + 1 + i + 1
  | _ => false
  end.

(** The errors of the loop on a line that matched: they name the symbol. *)
Definition about_symbol (symbol : str) (e : error) : bool :=
  match e with
  | UnknownStateSymbol s | IncorrectStateName s _ _ | IncorrectPolicy s _ _ =>
    str_eqb s symbol
  | _ => false
  end.

(** Every error but the alignment error *)
Definition not_alignment (e : error) : Prop :=
  match e with InvalidAlignment _ => False | _ => True end.

End Effect.

(** ** Lines that survive the splitting of a text unchanged *)

Module Shape.

Definition no_LF (s : str) : bool := forallb (fun c => negb (c =? 10)%N) s.

(** The first character exists and is not white space. *)
Definition starts_tidy (s : str) : bool :=
  match s with
  | c :: _ => negb (isspace c)
  | [] => false
  end.

Definition ends_tidy (s : str) : bool := starts_tidy (rev s).

(** A line without line feed, not empty, that [strip] leaves as it is *)
Definition tidy_line (s : str) : bool := no_LF s && starts_tidy s && ends_tidy s.

(** The trimmed non-blank pieces of a list of lines *)
Definition trimmed_nonblank (pieces : list str) : list str :=
  map strip (filter (fun piece => truthy (strip piece)) pieces).

(** The ASCII digits and the minus sign: what [str()] and [format()] print
    for an integer *)
Definition is_numeral_char (c : char) : bool :=
  ((48 <=? c) && (c <=? 57) || (c =? 45))%N.

End Shape.

(** ** Inputs of the examples *)

Module Examples.
Import Parser.

Definition nine_lines : str := join (u LF) (repeat (u "[Gyroscope - Start]") 9).

(** 2025-05-12T12:00, the timestamp of the block in [example_usage] *)
Definition noon : Datetime.datetime :=
  {| Datetime.year := 2025; Datetime.month := 5; Datetime.day := 12;
     Datetime.hour := 12; Datetime.minute := 0 |}.

(** [generate_trace_block("Gen", 1)] at that time *)
Definition generated : str := generate_trace_block noon (u "Gen") 1.

(** The text without its line number [i] (counted from 0) *)
Definition delete_line (i : nat) (text : str) : str :=
  let lines := split LF text in
  join (u LF) (firstn i lines ++ skipn (i + 1) lines).

(** The first [n] lines of the text *)
Definition first_lines (n : nat) (text : str) : str :=
  join (u LF) (firstn n (split LF text)).

(** A block whose mode lines carry the canonical paths without the comma
    that ends them in the generated text, and whose current mode is
    neither Gen nor Int *)
Definition foo_block : str :=
  join (u LF)
    [ u "[Gyroscope - Start]";
      u "[v0.7 Beta: Governance Alignment Metadata]";
      u "[Purpose: 4-State Alignment through Recursive Reasoning via Gyroscope. Order matters. Context continuity is preserved across the last 3 messages.]";
      u "[States {Format: Symbol = How (Why)}:";
      u "@ = Governance Traceability (Common Source),";
      u "& = Information Variety (Unity Non-Absolute),";
      u "% = Inference Accountability (Opposition Non-Absolute),";
      u "~ = Intelligence Integrity (Balance Universal)]";
      u "[Modes {Format: Type = Path}:";
      u "Generative (Gen) = @ → & → % → ~";
      u "Integrative (Int) = ~ → % → & → @";
      u "Current (Gen/Int) = Foo]";
      u "[Data: Timestamp = 2025-05-12T12:00, Mode = Gen, Alignment (Y/N) = Y, ID = 001]";
      u "[Gyroscope - End]" ].

(** The lines of a block after its first three, with the canonical paths
    and the current mode Gen *)
Definition canonical_tail : list str :=
  [ u "[States {Format: Symbol = How (Why)}:";
    u "@ = Governance Traceability (Common Source),";
    u "& = Information Variety (Unity Non-Absolute),";
    u "% = Inference Accountability (Opposition Non-Absolute),";
    u "~ = Intelligence Integrity (Balance Universal)]";
    u "[Modes {Format: Type = Path}:";
    u "Generative (Gen) = @ → & → % → ~";
    u "Integrative (Int) = ~ → % → & → @";
    u "Current (Gen/Int) = Gen]";
    u "[Data: Timestamp = 2025-05-12T12:00, Mode = Gen, Alignment (Y/N) = Y, ID = 001]";
    u "[Gyroscope - End]" ].

(** That block, with some text after each of its first three lines *)
Definition with_trailing (after_header after_version after_purpose : str)
  : str :=
  join (u LF)
    ((u "[Gyroscope - Start]" ++ after_header)
     :: (u "[v0.7 Beta: Governance Alignment Metadata]" ++ after_version)
     :: (u "[Purpose: 4-State Alignment through Recursive Reasoning via Gyroscope. Order matters. Context continuity is preserved across the last 3 messages.]"
           ++ after_purpose)
     :: canonical_tail).

(** The generated block with every line indented, a tab after it, and a
    blank line between any two lines *)
Definition spaced : str :=
  join (u (LF ++ LF))
       (map (fun line => u "  " ++ line ++ [9%N]) (split LF generated)).

End Examples.

(** * Properties *)

Unset Implicit Arguments.

(** ** The library model on examples *)

Example state_groups :
  re_match Grammar.state (u "@ = Governance Traceability (Common Source),")
  = Some [u "@"; u "Governance Traceability"; u "Common Source"].
Proof. reflexivity. Qed.

Example mode_groups :
  re_match Grammar.mode (u "Generative (Gen) = @ → & → % → ~,")
  = Some [u "Generative"; u "Gen"; u "@ → & → % → ~,"].
Proof. reflexivity. Qed.

Example current_mode_groups :
  re_match Grammar.current_mode (u "Current (Gen/Int) = Foo]")
  = Some [u "Gen/Int"; u "Foo"].
Proof. reflexivity. Qed.

Example data_groups :
  re_match Grammar.DATA
    (u "[Data: Timestamp = 2025-05-12T12:00, Mode = Gen, Alignment (Y/N) = Y, ID = 001]")
  = Some [u "2025-05-12T12:00"; u "Gen"; u "Y"; u "001"].
Proof. reflexivity. Qed.

Example strptime_examples :
  Datetime.strptime (u "2025-05-12T12:00")
  = Some {| Datetime.year := 2025; Datetime.month := 5; Datetime.day := 12;
            Datetime.hour := 12; Datetime.minute := 0 |}
  /\ Datetime.strptime (u "2025-02-29T12:00") = None
  /\ Datetime.strptime (u "2024-02-29T12:00") <> None
  /\ Datetime.strptime (u "0000-01-01T00:00") = None
  /\ Datetime.strptime (u "2025-1٣-01T00:00") = None
  /\ Datetime.strptime (u "2025-01-1٣T00:00") <> None
  /\ Datetime.strptime (u "2025-01-01T24:00") = None
  /\ Datetime.strptime (u "2025-01-01T23:60") = None
  /\ Datetime.strptime (u "2025-01-00T00:00") = None.
Proof. repeat split; try reflexivity; discriminate. Qed.

(** ** Strings *)

Lemma str_eqb_eq (a b : str) : str_eqb a b = true <-> a = b.
Proof.
  revert b; induction a as [|x a IH]; intros [|y b]; simpl;
    try (split; [discriminate | congruence]); try tauto.
  rewrite andb_true_iff, N.eqb_eq, IH. split.
  - intros [-> ->]; reflexivity.
  - intros H; injection H; auto.
Qed.

Lemma str_eqb_refl (a : str) : str_eqb a a = true.
Proof. apply str_eqb_eq; reflexivity. Qed.

Lemma str_eqb_neq (a b : str) : str_eqb a b = false <-> a <> b.
Proof.
  rewrite <- str_eqb_eq. destruct (str_eqb a b); split; congruence.
Qed.

Lemma list_str_eqb_eq (a b : list str) : Parser.list_str_eqb a b = true <-> a = b.
Proof.
  revert b; induction a as [|x a IH]; intros [|y b]; simpl;
    try (split; [discriminate | congruence]); try tauto.
  rewrite andb_true_iff, str_eqb_eq, IH. split.
  - intros [-> ->]; reflexivity.
  - intros H; injection H; auto.
Qed.

(** ** Soundness of the matcher *)

Section MatcherSound.
Variable R : Type.

Lemma star_greedy_sound (p : char -> bool) (s : str) (k : str -> option R) x :
  star_greedy p s k = Some x ->
  exists w s', s = w ++ s' /\ forallb p w = true /\ k s' = Some x.
Proof.
  induction s as [|c s IH]; simpl; intros H.
  - exists [], []; auto.
  - destruct (p c) eqn:Hc.
    + destruct (star_greedy p s k) eqn:Hs.
      * injection H as ->.
        destruct (IH eq_refl) as (w & s' & -> & Hw & Hk).
        exists (c :: w), s'; simpl; rewrite Hc; auto.
      * exists [], (c :: s); auto.
    + exists [], (c :: s); auto.
Qed.

Lemma run_sound (r : regex) :
  forall (s : str) (caps : list str) (k : str -> list str -> option R) x,
    run r s caps k = Some x ->
    exists w s' cs,
      s = w ++ s' /\ Matches r w cs /\ k s' (caps ++ cs) = Some x.
Proof.
  induction r as [|p|r1 IH1 r2 IH2|r1 IH1 r2 IH2|p|r1 IH1];
    intros s caps k x H; simpl in H.
  - exists [], s, []; rewrite app_nil_r; auto using M_Eps.
  - destruct s as [|c s]; [discriminate|].
    destruct (p c) eqn:Hc; [|discriminate].
    exists [c], s, []; rewrite app_nil_r; auto using M_Cls.
  - apply IH1 in H as (w1 & s1 & cs1 & -> & M1 & H).
    apply IH2 in H as (w2 & s2 & cs2 & -> & M2 & H).
    exists (w1 ++ w2), s2, (cs1 ++ cs2).
    repeat split; [apply app_assoc | apply M_Cat; assumption |].
    rewrite app_assoc; exact H.
  - destruct (run r1 s caps k) eqn:H1.
    + injection H as ->.
      apply IH1 in H1 as (w & s' & cs & -> & M1 & H).
      exists w, s', cs; auto using M_AltL.
    + apply IH2 in H as (w & s' & cs & -> & M2 & H).
      exists w, s', cs; auto using M_AltR.
  - destruct s as [|c s]; [discriminate|].
    destruct (p c) eqn:Hc; [|discriminate].
    apply star_greedy_sound in H as (w & s' & -> & Hw & H).
    exists (c :: w), s', []. rewrite app_nil_r. repeat split; auto.
    apply M_Plus; [discriminate | simpl; rewrite Hc; auto].
  - apply IH1 in H as (w & s' & cs & -> & M1 & H).
    exists w, s', (cs ++ [w]).
    rewrite length_app, Nat.add_sub, firstn_app, Nat.sub_diag, firstn_all in H.
    simpl in H. rewrite app_nil_r, <- app_assoc in H.
    repeat split; [apply M_Grp; assumption | exact H].
Qed.
End MatcherSound.

Lemma re_match_sound (r : regex) (s : str) (groups : list str) :
  re_match r s = Some groups ->
  exists w s', s = w ++ s' /\ Matches r w groups.
Proof.
  unfold re_match, match_prefix. intros H.
  destruct (run r s [] _) as [[caps rest]|] eqn:Hr; [|discriminate].
  injection H as <-.
  apply run_sound in Hr as (w & s' & cs & -> & Hm & Hk).
  injection Hk as <- <-. exists w, s'; auto.
Qed.

Lemma Matches_groupless r w cs :
  Matches r w cs -> groupless r = true -> cs = [].
Proof.
  induction 1; simpl; intros G; try reflexivity;
    try (apply andb_true_iff in G as [G1 G2]); auto; try discriminate.
  rewrite IHMatches1, IHMatches2; auto.
Qed.

Lemma Matches_Seq_cons r rs w cs :
  Matches (Seq (r :: rs)) w cs ->
  exists w1 w2 cs1 cs2,
    w = w1 ++ w2 /\ cs = cs1 ++ cs2 /\ Matches r w1 cs1 /\ Matches (Seq rs) w2 cs2.
Proof.
  intros H. change (Seq (r :: rs)) with (Cat r (Seq rs)) in H.
  inversion H; subst. eauto 10.
Qed.

Lemma Matches_Grp r w cs :
  Matches (Grp r) w cs -> exists cs', cs = cs' ++ [w] /\ Matches r w cs'.
Proof. intros H; inversion H; subst; eauto. Qed.

Lemma Matches_Cls p w cs :
  Matches (Cls p) w cs -> exists c, w = [c] /\ cs = [] /\ p c = true.
Proof. intros H; inversion H; subst; eauto. Qed.

Lemma Matches_Plus p w cs :
  Matches (Plus p) w cs -> cs = [] /\ w <> [] /\ forallb p w = true.
Proof. intros H; inversion H; subst; auto. Qed.

Lemma Matches_Seq_nil w cs : Matches (Seq []) w cs -> w = [] /\ cs = [].
Proof. intros H; inversion H; auto. Qed.

(** Takes a match of a [Seq] pattern apart, piece by piece, and clears the
    captures of the pieces that have no group. *)
Ltac split_seq H :=
  repeat
    (let w1 := fresh "w" in
     let w2 := fresh "w" in
     let c1 := fresh "cs" in
     let c2 := fresh "cs" in
     let M1 := fresh "Hm" in
     apply Matches_Seq_cons in H as (w1 & w2 & c1 & c2 & -> & -> & M1 & H));
  apply Matches_Seq_nil in H as [-> ->].

Ltac open_groups :=
  repeat match goal with
         | H : Matches (Grp _) _ _ |- _ =>
           let c := fresh "cs" in
           apply Matches_Grp in H as (c & -> & H)
         end.

Ltac drop_groupless :=
  repeat match goal with
         | H : Matches ?r _ ?cs |- _ =>
           is_var cs;
           let E := fresh in
           assert (E : cs = []) by (apply (Matches_groupless _ _ _ H); reflexivity);
           subst cs
         end.

(** The groups of a data line: the third one is the letter Y or the
    letter N. *)
Lemma DATA_groups (line : str) (groups : list str) :
  re_match Grammar.DATA line = Some groups ->
  exists timestamp mode c trace_id,
    groups = [timestamp; mode; [c]; trace_id] /\ one_of "YN" c = true.
Proof.
  intros H. apply re_match_sound in H as (w & rest & -> & H).
  unfold Grammar.DATA in H. split_seq H. open_groups. drop_groupless.
  match goal with
  | H : Matches (Cls (one_of "YN")) ?w [] |- _ =>
    apply Matches_Cls in H as (c & -> & _ & Hc)
  end.
  simpl. eauto 10.
Qed.

(** ** Matching a text that is known *)

Lemma succeeds_Eps : succeeds Eps [] [].
Proof. intros R s caps k x H. rewrite app_nil_r in H. exact H. Qed.

Lemma succeeds_Cls (p : char -> bool) (c : char) :
  p c = true -> succeeds (Cls p) [c] [].
Proof.
  intros Hc R s caps k x H. rewrite app_nil_r in H. simpl. rewrite Hc. exact H.
Qed.

Lemma succeeds_Cat r1 r2 w1 w2 cs1 cs2 :
  succeeds r1 w1 cs1 -> succeeds r2 w2 cs2 ->
  succeeds (Cat r1 r2) (w1 ++ w2) (cs1 ++ cs2).
Proof.
  intros H1 H2 R s caps k x H. simpl. rewrite <- app_assoc.
  apply H1, H2. rewrite <- app_assoc. exact H.
Qed.

Lemma succeeds_AltL r1 r2 w cs : succeeds r1 w cs -> succeeds (Alt r1 r2) w cs.
Proof. intros H1 R s caps k x H. simpl. rewrite (H1 R s caps k x H). reflexivity. Qed.

Lemma succeeds_AltR r1 r2 w cs :
  fails r1 w -> succeeds r2 w cs -> succeeds (Alt r1 r2) w cs.
Proof.
  intros H1 H2 R s caps k x H. simpl. rewrite (H1 R s caps k). apply H2, H.
Qed.

Lemma firstn_consumed (w s : str) : firstn (length (w ++ s) - length s) (w ++ s) = w.
Proof.
  rewrite length_app, Nat.add_sub, firstn_app, Nat.sub_diag, firstn_all.
  simpl. apply app_nil_r.
Qed.

Lemma succeeds_Grp r w cs : succeeds r w cs -> succeeds (Grp r) w (cs ++ [w]).
Proof.
  intros H1 R s caps k x H. simpl. apply H1.
  rewrite firstn_consumed, <- app_assoc. exact H.
Qed.

Lemma succeeds_Seq_cons r rs w1 w2 cs1 cs2 :
  succeeds r w1 cs1 -> succeeds (Seq rs) w2 cs2 ->
  succeeds (Seq (r :: rs)) (w1 ++ w2) (cs1 ++ cs2).
Proof. apply succeeds_Cat. Qed.

Lemma succeeds_Seq_last r w cs : succeeds r w cs -> succeeds (Seq [r]) w cs.
Proof.
  intros H. rewrite <- (app_nil_r w), <- (app_nil_r cs).
  apply succeeds_Seq_cons; [exact H | apply succeeds_Eps].
Qed.

Lemma succeeds_chars (l : str) :
  succeeds (fold_right (fun c r => Cat (Chr c) r) Eps l) l [].
Proof.
  induction l as [|c l IH]; simpl.
  - apply succeeds_Eps.
  - change (c :: l) with ([c] ++ l). change (@nil str) with (@nil str ++ []).
    apply succeeds_Cat; [|exact IH].
    apply succeeds_Cls, N.eqb_refl.
Qed.

Lemma succeeds_Lit (t : string) : succeeds (Lit t) (u t) [].
Proof. apply succeeds_chars. Qed.

Lemma succeeds_Rep (p : char -> bool) (w : str) :
  forallb p w = true -> succeeds (Rep (length w) p) w [].
Proof.
  induction w as [|c w IH]; simpl; intros H.
  - apply succeeds_Eps.
  - apply andb_true_iff in H as [Hc Hw].
    change (c :: w) with ([c] ++ w). change (@nil str) with (@nil str ++ []).
    apply succeeds_Cat; [apply succeeds_Cls, Hc | apply IH, Hw].
Qed.

(** The whole text matched: the groups, and nothing left over *)
Lemma match_prefix_succeeds r w cs :
  succeeds r w cs -> match_prefix r w = Some (cs, []).
Proof.
  intros H. unfold match_prefix. rewrite <- (app_nil_r w) at 1.
  apply H. reflexivity.
Qed.

(** ** Parsing back the time the generator printed *)

Lemma N_range_cases (lo hi : N) (P : N -> Prop) :
  Forall P (map N.of_nat (seq (N.to_nat lo) (N.to_nat (hi - lo + 1)))) ->
  forall v : N, (lo <= v)%N -> (v <= hi)%N -> P v.
Proof.
  intros H v Hlo Hhi. rewrite Forall_forall in H. apply H.
  rewrite <- (N2Nat.id v). apply in_map, in_seq. lia.
Qed.

Lemma N_range_check (lo hi : N) (check : N -> bool) :
  forallb check (map N.of_nat (seq (N.to_nat lo) (N.to_nat (hi - lo + 1)))) = true ->
  forall v : N, (lo <= v)%N -> (v <= hi)%N -> check v = true.
Proof.
  intros H v Hlo Hhi. rewrite forallb_forall in H. apply H.
  rewrite <- (N2Nat.id v). apply in_map, in_seq. lia.
Qed.

(** A field printed on two digits reads back as its value. *)
Lemma two_digits (v : N) :
  (v <= 99)%N ->
  length (format_0d 2 (Z.of_N v)) = 2
  /\ forallb isdecimal (format_0d 2 (Z.of_N v)) = true
  /\ Datetime.int_of_digits (format_0d 2 (Z.of_N v)) = v.
Proof.
  intros Hv.
  pose (check := fun v : N =>
    (length (format_0d 2 (Z.of_N v)) =? 2)
    && forallb isdecimal (format_0d 2 (Z.of_N v))
    && (Datetime.int_of_digits (format_0d 2 (Z.of_N v)) =? v)%N).
  assert (H : check v = true).
  { apply (N_range_check 0 99); [vm_compute; reflexivity | lia | lia]. }
  unfold check in H. rewrite !andb_true_iff, Nat.eqb_eq, N.eqb_eq in H. tauto.
Qed.

(** A year of four digits reads back as its value. *)
Lemma four_digits (y : N) :
  (1000 <= y)%N -> (y <= 9999)%N ->
  length (str_of_N y) = 4
  /\ forallb isdecimal (str_of_N y) = true
  /\ Datetime.int_of_digits (str_of_N y) = y.
Proof.
  intros Hlo Hhi.
  pose (check := fun y : N =>
    (length (str_of_N y) =? 4)
    && forallb isdecimal (str_of_N y)
    && (Datetime.int_of_digits (str_of_N y) =? y)%N).
  assert (H : check y = true).
  { apply (N_range_check 1000 9999); [vm_compute; reflexivity | lia | lia]. }
  unfold check in H. rewrite !andb_true_iff, Nat.eqb_eq, N.eqb_eq in H. tauto.
Qed.

(** Decides a match of a concrete text against alternatives of two
    characters by evaluation, in front of an unknown rest. *)
Ltac field_case :=
  cbv beta;
  match goal with
  | |- succeeds (Grp ?r) ?w _ =>
    change (succeeds (Grp r) w ([] ++ [w])); apply succeeds_Grp
  end;
  let H := fresh in
  intros ? ? ? ? ? H; rewrite app_nil_r in H; vm_compute;
  first [exact H | rewrite H; reflexivity].

Lemma succeeds_re_m (v : N) :
  (1 <= v)%N -> (v <= 12)%N ->
  succeeds Datetime.re_m (format_0d 2 (Z.of_N v)) [format_0d 2 (Z.of_N v)].
Proof.
  intros Hlo Hhi.
  apply (N_range_cases 1 12
           (fun v => succeeds Datetime.re_m (format_0d 2 (Z.of_N v))
                              [format_0d 2 (Z.of_N v)])); [|lia|lia].
  unfold Datetime.re_m. cbv [N.to_nat N.sub N.add Pos.to_nat]; simpl seq; simpl map.
  repeat (apply Forall_cons || apply Forall_nil); field_case.
Qed.

Lemma succeeds_re_d (v : N) :
  (1 <= v)%N -> (v <= 31)%N ->
  succeeds Datetime.re_d (format_0d 2 (Z.of_N v)) [format_0d 2 (Z.of_N v)].
Proof.
  intros Hlo Hhi.
  apply (N_range_cases 1 31
           (fun v => succeeds Datetime.re_d (format_0d 2 (Z.of_N v))
                              [format_0d 2 (Z.of_N v)])); [|lia|lia].
  unfold Datetime.re_d. cbv [N.to_nat N.sub N.add Pos.to_nat]; simpl seq; simpl map.
  repeat (apply Forall_cons || apply Forall_nil); field_case.
Qed.

Lemma succeeds_re_H (v : N) :
  (v <= 23)%N ->
  succeeds Datetime.re_H (format_0d 2 (Z.of_N v)) [format_0d 2 (Z.of_N v)].
Proof.
  intros Hhi.
  apply (N_range_cases 0 23
           (fun v => succeeds Datetime.re_H (format_0d 2 (Z.of_N v))
                              [format_0d 2 (Z.of_N v)])); [|lia|lia].
  unfold Datetime.re_H. cbv [N.to_nat N.sub N.add Pos.to_nat]; simpl seq; simpl map.
  repeat (apply Forall_cons || apply Forall_nil); field_case.
Qed.

Lemma succeeds_re_M (v : N) :
  (v <= 59)%N ->
  succeeds Datetime.re_M (format_0d 2 (Z.of_N v)) [format_0d 2 (Z.of_N v)].
Proof.
  intros Hhi.
  apply (N_range_cases 0 59
           (fun v => succeeds Datetime.re_M (format_0d 2 (Z.of_N v))
                              [format_0d 2 (Z.of_N v)])); [|lia|lia].
  unfold Datetime.re_M. cbv [N.to_nat N.sub N.add Pos.to_nat]; simpl seq; simpl map.
  repeat (apply Forall_cons || apply Forall_nil); field_case.
Qed.

Lemma succeeds_re_Y (y : N) :
  (1000 <= y)%N -> (y <= 9999)%N ->
  succeeds Datetime.re_Y (str_of_N y) [str_of_N y].
Proof.
  intros Hlo Hhi. destruct (four_digits y Hlo Hhi) as (Hlen & Hdec & _).
  unfold Datetime.re_Y. rewrite <- Hlen.
  change [str_of_N y] with ([] ++ [str_of_N y]).
  apply succeeds_Grp, succeeds_Rep, Hdec.
Qed.

Lemma valid_bounds (d : Datetime.datetime) :
  Datetime.valid d = true ->
  (1 <= Datetime.year d <= 9999 /\ 1 <= Datetime.month d <= 12
   /\ 1 <= Datetime.day d <= 31 /\ Datetime.hour d <= 23
   /\ Datetime.minute d <= 59)%N.
Proof.
  unfold Datetime.valid. rewrite !andb_true_iff, !N.leb_le.
  intros [[[[[[[H1 H2] H3] H4] H5] H6] H7] H8].
  assert (Datetime.days_in_month (Datetime.year d) (Datetime.month d) <= 31)%N.
  { unfold Datetime.days_in_month.
    repeat match goal with |- context [if ?b then _ else _] => destruct b end; lia. }
  lia.
Qed.

(** [strptime] reads back what [strftime] printed, for the dates whose
    year has four digits. *)
Lemma strptime_strftime (d : Datetime.datetime) :
  Datetime.valid d = true -> (1000 <= Datetime.year d)%N ->
  Datetime.strptime (Datetime.strftime d) = Some d.
Proof.
  intros Hv Hy. pose proof (valid_bounds d Hv) as (HY & Hm & Hd & HH & HM).
  unfold Datetime.strptime.
  rewrite (match_prefix_succeeds Datetime.strptime_re (Datetime.strftime d)
             ([str_of_N (Datetime.year d)] ++ [] ++
              [format_0d 2 (Z.of_N (Datetime.month d))] ++ [] ++
              [format_0d 2 (Z.of_N (Datetime.day d))] ++ [] ++
              [format_0d 2 (Z.of_N (Datetime.hour d))] ++ [] ++
              [format_0d 2 (Z.of_N (Datetime.minute d))])).
  - cbn [app].
    destruct (four_digits (Datetime.year d)) as (_ & _ & ->); [lia|lia|].
    destruct (two_digits (Datetime.month d)) as (_ & _ & ->); [lia|].
    destruct (two_digits (Datetime.day d)) as (_ & _ & ->); [lia|].
    destruct (two_digits (Datetime.hour d)) as (_ & _ & ->); [lia|].
    destruct (two_digits (Datetime.minute d)) as (_ & _ & ->); [lia|].
    destruct d; simpl in *. rewrite Hv. reflexivity.
  - unfold Datetime.strptime_re, Datetime.strftime.
    apply succeeds_Seq_cons; [apply succeeds_re_Y; lia|].
    apply succeeds_Seq_cons; [apply succeeds_Lit|].
    apply succeeds_Seq_cons; [apply succeeds_re_m; lia|].
    apply succeeds_Seq_cons; [apply succeeds_Lit|].
    apply succeeds_Seq_cons; [apply succeeds_re_d; lia|].
    apply succeeds_Seq_cons; [apply (succeeds_Cls _ 84%N); reflexivity|].
    apply succeeds_Seq_cons; [apply succeeds_re_H; lia|].
    apply succeeds_Seq_cons; [apply succeeds_Lit|].
    apply succeeds_Seq_last, succeeds_re_M; lia.
Qed.

(** ** The data line of a generated block *)

Lemma succeeds_Seq_cons_nil r rs w1 w2 cs :
  succeeds r w1 [] -> succeeds (Seq rs) w2 cs ->
  succeeds (Seq (r :: rs)) (w1 ++ w2) cs.
Proof. intros H1 H2. exact (succeeds_Cat _ _ _ _ _ _ H1 H2). Qed.

Lemma star_greedy_stops R (p : char -> bool) (w : str) (c : char) (s : str)
      (k : str -> option R) (x : R) :
  forallb p w = true -> p c = false -> k (c :: s) = Some x ->
  star_greedy p (w ++ c :: s) k = Some x.
Proof.
  intros Hw Hc Hk. induction w as [|a w IH]; simpl.
  - rewrite Hc. exact Hk.
  - simpl in Hw. apply andb_true_iff in Hw as [Ha Hw].
    rewrite Ha, (IH Hw). reflexivity.
Qed.

(** A greedy group stops where its class stops: in front of a character
    that is not of the class and that the pattern goes on with. *)
Lemma succeeds_Plus_then (p : char -> bool) (w : str) (c : char) (w2 : str)
      (rs : list regex) (cs2 : list str) :
  w <> [] -> forallb p w = true -> p c = false ->
  succeeds (Seq rs) (c :: w2) cs2 ->
  succeeds (Seq (Grp (Plus p) :: rs)) (w ++ c :: w2) (w :: cs2).
Proof.
  intros Hne Hw Hc Hrs R s caps k x Hk.
  destruct w as [|a w]; [contradiction|].
  simpl in Hw. apply andb_true_iff in Hw as [Ha Hw].
  change (Seq (Grp (Plus p) :: rs)) with (Cat (Grp (Plus p)) (Seq rs)).
  cbn [run]. rewrite <- app_assoc.
  change ((a :: w) ++ (c :: w2) ++ s) with (a :: w ++ c :: w2 ++ s).
  cbv beta iota. rewrite Ha. apply star_greedy_stops; [exact Hw | exact Hc |].
  change (a :: w ++ c :: w2 ++ s) with ((a :: w) ++ (c :: w2) ++ s).
  rewrite firstn_consumed.
  change (c :: w2 ++ s) with ((c :: w2) ++ s). apply Hrs.
  rewrite <- app_assoc. exact Hk.
Qed.

Lemma succeeds_Rep_n (p : char -> bool) (n : nat) (w : str) :
  length w = n -> forallb p w = true -> succeeds (Rep n p) w [].
Proof. intros <-. apply succeeds_Rep. Qed.

Lemma succeeds_timestamp (d : Datetime.datetime) :
  Datetime.valid d = true -> (1000 <= Datetime.year d)%N ->
  succeeds (Grp Grammar.timestamp) (Datetime.strftime d) [Datetime.strftime d].
Proof.
  intros Hv Hy. pose proof (valid_bounds d Hv) as (HY & Hm & Hd & HH & HM).
  change [Datetime.strftime d] with ([] ++ [Datetime.strftime d]).
  apply succeeds_Grp.
  destruct (four_digits (Datetime.year d)) as (LY & DY & _); [lia|lia|].
  destruct (two_digits (Datetime.month d)) as (Lm & Dm & _); [lia|].
  destruct (two_digits (Datetime.day d)) as (Ld & Dd & _); [lia|].
  destruct (two_digits (Datetime.hour d)) as (LH & DH & _); [lia|].
  destruct (two_digits (Datetime.minute d)) as (LM & DM & _); [lia|].
  unfold Grammar.timestamp, Datetime.strftime.
  apply succeeds_Seq_cons_nil; [apply succeeds_Rep_n; assumption|].
  apply succeeds_Seq_cons_nil; [apply succeeds_Lit|].
  apply succeeds_Seq_cons_nil; [apply succeeds_Rep_n; assumption|].
  apply succeeds_Seq_cons_nil; [apply succeeds_Lit|].
  apply succeeds_Seq_cons_nil; [apply succeeds_Rep_n; assumption|].
  apply succeeds_Seq_cons_nil; [apply succeeds_Lit|].
  apply succeeds_Seq_cons_nil; [apply succeeds_Rep_n; assumption|].
  apply succeeds_Seq_cons_nil; [apply succeeds_Lit|].
  apply succeeds_Seq_last, succeeds_Rep_n; assumption.
Qed.

Lemma alignment_text (t : str) :
  u ", Alignment (Y/N) = Y, ID = " ++ t
  = 44%N :: (u " Alignment (" ++ [89%N] ++ u "/N) = " ++ [89%N] ++ u ", ID = " ++ t).
Proof. vm_compute. reflexivity. Qed.

Lemma alignment_text_head (t : str) :
  44%N :: (u " Alignment (" ++ t) = u ", Alignment (" ++ t.
Proof. vm_compute. reflexivity. Qed.

Lemma bracket_text : u "]" = [93%N].
Proof. vm_compute. reflexivity. Qed.

(** The groups of the data line that the generator writes *)
Lemma DATA_generated (d : Datetime.datetime) (mode id : str) :
  Datetime.valid d = true -> (1000 <= Datetime.year d)%N ->
  mode <> [] -> forallb is_ascii_letter mode = true ->
  id <> [] -> forallb isdecimal id = true ->
  re_match Grammar.DATA
    (u "[Data: Timestamp = " ++ Datetime.strftime d ++ u ", Mode = " ++ mode
       ++ u ", Alignment (Y/N) = Y, ID = " ++ id ++ u "]")
  = Some [Datetime.strftime d; mode; u "Y"; id].
Proof.
  intros Hv Hy Hm Hml Hi Hid. unfold re_match.
  rewrite (match_prefix_succeeds _ _ [Datetime.strftime d; mode; [89%N]; id]);
    [reflexivity|].
  unfold Grammar.DATA.
  apply succeeds_Seq_cons_nil; [apply succeeds_Lit|].
  apply (succeeds_Seq_cons _ _ _ _ [Datetime.strftime d] [mode; [89%N]; id]);
    [apply succeeds_timestamp; assumption|].
  apply succeeds_Seq_cons_nil; [apply succeeds_Lit|].
  rewrite alignment_text.
  apply succeeds_Plus_then;
    [assumption | assumption | vm_compute; reflexivity |].
  rewrite alignment_text_head.
  apply succeeds_Seq_cons_nil; [apply succeeds_Lit|].
  apply succeeds_Seq_cons_nil; [apply succeeds_Cls; vm_compute; reflexivity|].
  apply succeeds_Seq_cons_nil; [apply succeeds_Lit|].
  apply (succeeds_Seq_cons _ _ _ _ [[89%N]] [id]);
    [apply (succeeds_Grp _ _ []), succeeds_Cls; vm_compute; reflexivity|].
  apply succeeds_Seq_cons_nil; [apply succeeds_Lit|].
  rewrite bracket_text.
  apply succeeds_Plus_then;
    [assumption | assumption | vm_compute; reflexivity |].
  apply succeeds_Seq_last.
  pose proof (succeeds_Lit "]") as H. rewrite bracket_text in H. exact H.
Qed.

(** ** The statements only append errors *)

Import Parser Effect.

Section Reports.
Variable P : error -> Prop.

Lemma effect_refl r : effect P r r.
Proof.
  exists []. rewrite app_nil_r, andb_true_r. auto.
Qed.

Lemma effect_trans r1 r2 r3 : effect P r1 r2 -> effect P r2 r3 -> effect P r1 r3.
Proof.
  intros (es1 & F1 & E1 & V1 & W1) (es2 & F2 & E2 & V2 & W2).
  exists (es1 ++ es2). repeat split.
  - apply Forall_app; auto.
  - rewrite E2, E1, app_assoc; reflexivity.
  - rewrite V2, V1. destruct es1, es2; simpl; rewrite ?andb_true_r, ?andb_false_r; reflexivity.
  - congruence.
Qed.

Lemma reports_ret A (a : A) : reports P (ret a).
Proof. intros r; apply effect_refl. Qed.

Lemma reports_raise A e : reports P (@raise A e).
Proof. intros r; apply effect_refl. Qed.

Lemma reports_return A : reports P (@return_result A).
Proof. intros r; apply effect_refl. Qed.

Lemma reports_assign f : reports P (assign f).
Proof. intros r; exists []; simpl. rewrite app_nil_r, andb_true_r. auto. Qed.

Lemma reports_report e : P e -> reports P (report e).
Proof.
  intros He r. exists [e]; simpl. rewrite andb_false_r. auto.
Qed.

Lemma reports_bind A B (m : M A) (f : A -> M B) :
  reports P m -> (forall a, reports P (f a)) -> reports P (bind m f).
Proof.
  intros Hm Hf r. unfold bind. specialize (Hm r).
  destruct (m r) as [r' [a| |e]]; simpl in *; auto.
  eapply effect_trans; [exact Hm | apply Hf].
Qed.

Lemma reports_for_each A (l : list A) (body : A -> M unit) :
  (forall x, reports P (body x)) -> reports P (for_each l body).
Proof.
  intros Hb. induction l as [|x l IH]; simpl.
  - apply reports_ret.
  - apply reports_bind; auto.
Qed.

Lemma reports_try_except A (body : M A) handler :
  reports P body -> (forall e, reports P (handler e)) ->
  reports P (try_except body handler).
Proof.
  intros Hb Hh r. unfold try_except. specialize (Hb r).
  destruct (body r) as [r' [a| |e]]; simpl in *; auto.
  eapply effect_trans; [exact Hb | apply Hh].
Qed.

Lemma reports_assign_state symbol info : reports P (assign_state symbol info).
Proof.
  intros r. unfold assign_state. destruct (states (parsed r)).
  - apply reports_assign.
  - apply effect_refl.
Qed.

Lemma reports_assign_mode mode_type info : reports P (assign_mode mode_type info).
Proof.
  intros r. unfold assign_mode. destruct (modes (parsed r)).
  - apply reports_assign.
  - apply effect_refl.
Qed.
End Reports.

(** Walks through a statement built from the primitives; the side goals
    [P e] of the reported errors are left to [solve_P]. *)
Ltac reports_walk solve_P :=
  repeat first
    [ apply reports_ret | apply reports_raise | apply reports_return
    | apply reports_assign | apply reports_assign_state
    | apply reports_assign_mode
    | apply reports_report; solve_P
    | apply reports_for_each; intros ?
    | apply reports_bind; [|intros ?]
    | match goal with
      | |- reports _ (if ?b then _ else _) => destruct b
      | |- reports _ (match ?x with _ => _ end) => destruct x
      | |- reports _ (let (_, _) := ?x in _) => destruct x
      end
    | progress unfold pass, item, last_item, lookup, unpack2, unpack3, unpack4,
      int, for_range ].

Lemma reports_parse_state_line lines i :
  reports not_alignment (parse_state_line lines i).
Proof. unfold parse_state_line. reports_walk ltac:(exact I). Qed.

Lemma reports_parse_mode_line lines i :
  reports not_alignment (parse_mode_line lines i).
Proof. unfold parse_mode_line. reports_walk ltac:(exact I). Qed.

Lemma reports_parse_current_mode lines :
  reports not_alignment (parse_current_mode lines).
Proof. unfold parse_current_mode. reports_walk ltac:(exact I). Qed.

Lemma Y_or_N_char c : one_of "YN" c = true -> is_Y_or_N [c] = true.
Proof.
  unfold one_of. cbn. rewrite !orb_true_iff, !N.eqb_eq.
  intros [->|[->|H]]; [reflexivity | reflexivity | discriminate].
Qed.

Lemma reports_bind_ret P A B (a : A) (f : A -> M B) :
  reports P (f a) -> reports P (bind (ret a) f).
Proof. intros H r. exact (H r). Qed.

(** The data line never reports its alignment: the pattern has already
    restricted it to Y or N. *)
Lemma reports_parse_data lines : reports not_alignment (parse_data lines).
Proof.
  unfold parse_data.
  destruct (length lines <=? data_idx); [reports_walk ltac:(exact I)|].
  apply reports_bind; [reports_walk ltac:(exact I)|intros data_line].
  destruct (re_match Grammar.DATA data_line) as [groups|] eqn:Hm;
    [|reports_walk ltac:(exact I)].
  apply DATA_groups in Hm as (timestamp & mode & c & trace_id & -> & Hc).
  apply Y_or_N_char in Hc.
  cbn [unpack4]. apply reports_bind_ret. rewrite Hc. cbn [negb].
  reports_walk ltac:(exact I).
Qed.

Lemma reports_parse_header lines : reports not_alignment (parse_header lines).
Proof. unfold parse_header. reports_walk ltac:(exact I). Qed.

Lemma reports_parse_version lines : reports not_alignment (parse_version lines).
Proof. unfold parse_version. reports_walk ltac:(exact I). Qed.

Lemma reports_parse_purpose lines : reports not_alignment (parse_purpose lines).
Proof. unfold parse_purpose. reports_walk ltac:(exact I). Qed.

Lemma reports_parse_footer lines : reports not_alignment (parse_footer lines).
Proof. unfold parse_footer. reports_walk ltac:(exact I). Qed.

Lemma reports_parse_states lines : reports not_alignment (parse_states lines).
Proof.
  unfold parse_states, for_range.
  repeat first
    [ apply reports_parse_state_line | progress reports_walk ltac:(exact I) ].
Qed.

Lemma reports_parse_modes lines : reports not_alignment (parse_modes lines).
Proof.
  unfold parse_modes, for_range.
  repeat first
    [ apply reports_parse_mode_line | progress reports_walk ltac:(exact I) ].
Qed.

Lemma reports_parse_lines lines : reports not_alignment (parse_lines lines).
Proof.
  unfold parse_lines.
  apply reports_bind; [apply reports_parse_header|intros _].
  apply reports_bind; [apply reports_parse_version|intros _].
  apply reports_bind; [apply reports_parse_purpose|intros _].
  apply reports_bind; [apply reports_parse_states|intros _].
  apply reports_bind; [apply reports_parse_modes|intros _].
  apply reports_bind; [apply reports_parse_current_mode|intros _].
  apply reports_bind; [apply reports_parse_data|intros _].
  apply reports_parse_footer.
Qed.

Lemma reports_parse_block_lines lines :
  reports not_alignment (parse_block_lines lines).
Proof.
  unfold parse_block_lines, check_line_count.
  apply reports_bind; [reports_walk ltac:(exact I)|intros _].
  apply reports_bind; [|intros _; apply reports_return].
  apply reports_try_except; [apply reports_parse_lines|].
  intros e. apply reports_report. exact I.
Qed.

(** ** The call returns *)

Lemma body_completes trace_block r :
  snd (parse_trace_block_body trace_block r) = Returned.
Proof.
  unfold parse_trace_block_body, parse_block_lines, check_line_count,
    try_except, bind. cbv zeta.
  destruct (length (lines_of trace_block) <? 10); simpl;
    destruct (parse_lines _ _) as [r' [[]| |e]]; reflexivity.
Qed.

Lemma parse_run trace_block :
  parse_trace_block trace_block
  = inr (fst (parse_trace_block_body trace_block initial_result)).
Proof.
  unfold parse_trace_block, call.
  pose proof (body_completes trace_block initial_result) as H.
  destruct (parse_trace_block_body trace_block initial_result) as [r c].
  simpl in *. subst c. reflexivity.
Qed.

(** C9. Totality of parsing: whatever the input string, the empty one
    included, [parse_trace_block] returns a parse result to its caller; no
    exception escapes it.  The returned result is the one [parse] names. *)
Theorem parse_trace_block_total (trace_block : str) :
  exists result : ParseResult,
    parse_trace_block trace_block = inr result /\ parse trace_block = result.
Proof.
  unfold parse. rewrite parse_run. eauto.
Qed.

Lemma parse_effect trace_block :
  effect not_alignment initial_result (parse trace_block).
Proof.
  unfold parse. rewrite parse_run. apply reports_parse_block_lines.
Qed.

(** What the parser returns is valid exactly if it lists no error. *)
Lemma parse_valid_iff_no_error trace_block :
  Parser.is_valid (parse trace_block) = true <-> Parser.errors (parse trace_block) = [].
Proof.
  destruct (parse_effect trace_block) as (es & _ & E & V & _).
  simpl in E, V. rewrite E, V. destruct es; split; congruence.
Qed.

Lemma bind_report e B (f : unit -> M B) r :
  bind (report e) f r
  = f tt {| is_valid := false; parsed := parsed r;
            errors := Parser.errors r ++ [e]; warnings := warnings r |}.
Proof. reflexivity. Qed.

(** C10. The alignment branch is never taken: no input makes
    [parse_trace_block] report "Invalid alignment", because a data line that
    reaches the check has matched the pattern, whose alignment group is the
    single letter Y or N. *)
Theorem invalid_alignment_unreachable (trace_block : str) (alignment : str) :
  ~ In (InvalidAlignment alignment) (Parser.errors (parse trace_block)).
Proof.
  destruct (parse_effect trace_block) as (es & F & E & _ & _).
  simpl in E. rewrite E. intros Hin.
  rewrite Forall_forall in F. exact (F _ Hin).
Qed.

(** C8. Validity invariant of the combined result: [validate_trace_block]
    answers [is_valid = true] exactly if its combined list of structural and
    semantic errors is empty. *)
Theorem combined_valid_iff_no_error (content source : str) :
  Batch.is_valid (Batch.validate_trace_block content source) = true
  <-> Batch.errors (Batch.validate_trace_block content source) = [].
Proof.
  unfold Batch.validate_trace_block; simpl.
  rewrite andb_true_iff, Nat.eqb_eq, parse_valid_iff_no_error, length_zero_iff_nil.
  split.
  - intros [-> ->]; reflexivity.
  - intros H; apply app_eq_nil in H; exact H.
Qed.

(** ** The semantic rules *)

Lemma no_order_error_in_paths e a (l : Dict.dict ModeInfo) :
  ~ In (StatesOutOfOrder e a) (flat_map check_mode_path l).
Proof.
  rewrite in_flat_map. intros ([name info] & _ & H). unfold check_mode_path in H.
  destruct (Dict.get name expected_paths); [|exact H].
  destruct (_ && _); [|exact H].
  destruct H as [H|[]]. discriminate.
Qed.

Lemma order_error_iff r e a :
  In (StatesOutOfOrder e a) (validate_semantic_structure r)
  <-> declared_mode r = Some (u "Gen")
      /\ Dict.keys (states_of r) <> expected_order
      /\ e = expected_order /\ a = Dict.keys (states_of r).
Proof.
  unfold validate_semantic_structure. rewrite in_app_iff.
  split.
  - intros [H|H]; [|exfalso; exact (no_order_error_in_paths _ _ _ H)].
    unfold check_state_order in H.
    destruct (declared_mode r) as [m|]; [|destruct H].
    destruct (str_eqb m (u "Gen")) eqn:Hm; [|destruct H].
    apply str_eqb_eq in Hm. subst m.
    destruct (list_str_eqb _ _) eqn:Ho; simpl in H; [destruct H|].
    destruct H as [H|[]]. injection H as <- <-.
    repeat split. intros Heq. apply list_str_eqb_eq in Heq. congruence.
  - intros (Hm & Ho & -> & ->). left. unfold check_state_order.
    rewrite Hm, str_eqb_refl.
    destruct (list_str_eqb _ _) eqn:Heq.
    + apply list_str_eqb_eq in Heq. contradiction.
    + left; reflexivity.
Qed.

(** C4. The state-order rule and its asymmetry: the validator reports a
    state-ordering error exactly if the declared current mode is "Gen" and
    the keys of [states], in the order the state lines were entered, are not
    @, &, %, ~; the error then names that expected order and the actual one.
    When the declared mode is "Int" no state-ordering error is reported,
    whatever the order of the states. *)
Theorem state_order_rule (r : ParseResult) :
  ((exists expected actual,
       In (StatesOutOfOrder expected actual) (validate_semantic_structure r))
   <-> declared_mode r = Some (u "Gen")
       /\ Dict.keys (states_of r) <> [u "@"; u "&"; u "%"; u "~"])
  /\ (forall expected actual,
         In (StatesOutOfOrder expected actual) (validate_semantic_structure r) ->
         expected = [u "@"; u "&"; u "%"; u "~"]
         /\ actual = Dict.keys (states_of r))
  /\ (declared_mode r = Some (u "Int") ->
      forall expected actual,
        ~ In (StatesOutOfOrder expected actual) (validate_semantic_structure r)).
Proof.
  change [u "@"; u "&"; u "%"; u "~"] with expected_order.
  split; [split|split].
  - intros (e & a & H). apply order_error_iff in H. tauto.
  - intros [Hm Ho]. exists expected_order, (Dict.keys (states_of r)).
    apply order_error_iff. auto.
  - intros e a H. apply order_error_iff in H. tauto.
  - intros Hint e a H. apply order_error_iff in H as (Hm & _).
    rewrite Hint in Hm. discriminate.
Qed.

Lemma state_order_rule_witness :
  let r := parse (generate_trace_block Examples.noon (u "Int") 42) in
  declared_mode r = Some (u "Int")
  /\ forall expected actual,
      ~ In (StatesOutOfOrder expected actual) (validate_semantic_structure r).
Proof.
  intros r.
  assert (Hint : declared_mode r = Some (u "Int")) by (vm_compute; reflexivity).
  exact (conj Hint (proj2 (proj2 (state_order_rule r)) Hint)).
Defined.

(** The canonical path of a mode name, as [expected_paths] has it *)
Lemma expected_paths_get name :
  Dict.get name expected_paths
  = if str_eqb (u "Generative") name then Some (u "@ → & → % → ~")
    else if str_eqb (u "Integrative") name then Some (u "~ → % → & → @")
    else None.
Proof. reflexivity. Qed.

Lemma expected_paths_truthy name expected :
  Dict.get name expected_paths = Some expected -> truthy expected = true.
Proof.
  rewrite expected_paths_get.
  destruct (str_eqb (u "Generative") name);
    [|destruct (str_eqb (u "Integrative") name); [|discriminate]];
    intros H; injection H as <-; vm_compute; reflexivity.
Qed.

Lemma path_error_iff r name expected got :
  In (IncorrectPath name expected got) (validate_semantic_structure r)
  <-> exists info,
      In (name, info) (modes_of r)
      /\ Dict.get name expected_paths = Some expected
      /\ got = path info /\ path info <> expected.
Proof.
  unfold validate_semantic_structure. rewrite in_app_iff, in_flat_map. split.
  - intros [H|([n info] & Hin & H)].
    + unfold check_state_order in H.
      destruct (declared_mode r); [|destruct H].
      destruct (str_eqb _ _); [|destruct H].
      destruct (negb _); [|destruct H].
      destruct H as [H|[]]; discriminate.
    + unfold check_mode_path in H.
      destruct (Dict.get n expected_paths) as [p|] eqn:Hg; [|destruct H].
      destruct (truthy p); simpl in H; [|destruct H].
      destruct (str_eqb (path info) p) eqn:Hp; simpl in H; [destruct H|].
      destruct H as [H|[]]. injection H as <- <- <-.
      exists info. apply str_eqb_neq in Hp. auto.
  - intros (info & Hin & Hg & -> & Hp). right.
    exists (name, info). split; [exact Hin|].
    unfold check_mode_path. rewrite Hg.
    apply str_eqb_neq in Hp. rewrite Hp.
    rewrite (expected_paths_truthy _ _ Hg). left; reflexivity.
Qed.

(** C5. The path-consistency rule: for a declared mode named "Generative"
    or "Integrative", the validator reports the error that names the mode,
    the canonical path ("@ → & → % → ~" for Generative, "~ → % → & → @" for
    Integrative) and the parsed path exactly if the parsed path differs from
    the canonical one. *)
Theorem path_consistency_rule (r : ParseResult) (name : str) (info : ModeInfo) :
  In (name, info) (modes_of r) ->
  name = u "Generative" \/ name = u "Integrative" ->
  let expected :=
    if str_eqb name (u "Generative") then u "@ → & → % → ~"
    else u "~ → % → & → @" in
  In (IncorrectPath name expected (path info)) (validate_semantic_structure r)
  <-> path info <> expected.
Proof.
  intros Hin Hname expected.
  assert (Hg : Dict.get name expected_paths = Some expected).
  { subst expected. destruct Hname as [-> | ->]; vm_compute; reflexivity. }
  rewrite path_error_iff. split.
  - intros (info' & _ & _ & Hp & Hne). rewrite Hp. exact Hne.
  - intros Hne. exists info. auto.
Qed.

Lemma path_consistency_rule_witness :
  let r := parse Examples.generated in
  let name := u "Generative" in
  let info := {| short := u "Gen"; path := u "@ → & → % → ~," |} in
  In (name, info) (modes_of r)
  /\ (name = u "Generative" \/ name = u "Integrative")
  /\ (let expected :=
        if str_eqb name (u "Generative") then u "@ → & → % → ~"
        else u "~ → % → & → @" in
      In (IncorrectPath name expected (path info)) (validate_semantic_structure r)
      <-> path info <> expected).
Proof.
  intros r name info.
  assert (Hin : In (name, info) (modes_of r))
    by (vm_compute; left; reflexivity).
  assert (Hname : name = u "Generative" \/ name = u "Integrative")
    by (left; reflexivity).
  exact (conj Hin (conj Hname (@path_consistency_rule r name info Hin Hname))).
Defined.

(** ** Splitting a text into its lines *)

Import Shape.

Lemma u_LF : u LF = [10%N].
Proof. reflexivity. Qed.

Lemma split_LF_cons (c : char) (s : str) :
  split LF (c :: s)
  = if (10 =? c)%N then [] :: split LF s
    else match split LF s with
         | piece :: rest => (c :: piece) :: rest
         | [] => [[c]]
         end.
Proof.
  unfold split. rewrite u_LF. cbn [split_from startswith length Nat.sub].
  rewrite andb_true_r. reflexivity.
Qed.

Lemma split_LF_piece (p s : str) :
  no_LF p = true -> split LF (p ++ 10%N :: s) = p :: split LF s.
Proof.
  induction p as [|c p IH]; simpl; intros H.
  - rewrite split_LF_cons. reflexivity.
  - apply andb_true_iff in H as [Hc Hp].
    rewrite split_LF_cons, (IH Hp).
    rewrite N.eqb_sym. apply negb_true_iff in Hc. rewrite Hc. reflexivity.
Qed.

Lemma split_LF_single (p : str) : no_LF p = true -> split LF p = [p].
Proof.
  induction p as [|c p IH]; simpl; intros H.
  - reflexivity.
  - apply andb_true_iff in H as [Hc Hp].
    rewrite split_LF_cons, (IH Hp).
    rewrite N.eqb_sym. apply negb_true_iff in Hc. rewrite Hc. reflexivity.
Qed.

(** Splitting undoes joining, when no piece contains a line feed. *)
Lemma split_join (pieces : list str) :
  pieces <> [] -> forallb no_LF pieces = true ->
  split LF (join (u LF) pieces) = pieces.
Proof.
  induction pieces as [|p [|q rest] IH]; intros Hne H.
  - contradiction.
  - simpl in *. apply andb_true_iff in H as [Hp _]. apply split_LF_single, Hp.
  - change (join (u LF) (p :: q :: rest))
      with (p ++ u LF ++ join (u LF) (q :: rest)).
    rewrite u_LF in IH |- *. change ([10%N] ++ ?x) with (10%N :: x).
    simpl in H. apply andb_true_iff in H as [Hp Hrest].
    rewrite (split_LF_piece _ _ Hp), IH; [reflexivity | discriminate | exact Hrest].
Qed.

Lemma lstrip_tidy (s : str) : starts_tidy s = true -> lstrip s = s.
Proof.
  destruct s as [|c s]; simpl; [discriminate|].
  intros H. apply negb_true_iff in H. rewrite H. reflexivity.
Qed.

Lemma strip_tidy (s : str) :
  starts_tidy s = true -> ends_tidy s = true -> strip s = s.
Proof.
  intros Hs He. unfold strip, rstrip. rewrite (lstrip_tidy _ Hs).
  rewrite (lstrip_tidy _ He). apply rev_involutive.
Qed.

Lemma starts_tidy_app (a b : str) :
  starts_tidy a = true -> starts_tidy (a ++ b) = true.
Proof. destruct a; simpl; [discriminate | auto]. Qed.

Lemma ends_tidy_app (a b : str) :
  ends_tidy b = true -> ends_tidy (a ++ b) = true.
Proof.
  unfold ends_tidy. rewrite rev_app_distr. apply starts_tidy_app.
Qed.

Lemma tidy_join (pieces : list str) :
  pieces <> [] -> forallb tidy_line pieces = true ->
  starts_tidy (join (u LF) pieces) = true /\ ends_tidy (join (u LF) pieces) = true.
Proof.
  induction pieces as [|p [|q rest] IH]; intros Hne H.
  - contradiction.
  - simpl in *. unfold tidy_line in H.
    rewrite !andb_true_iff in H. tauto.
  - change (join (u LF) (p :: q :: rest))
      with (p ++ u LF ++ join (u LF) (q :: rest)).
    simpl in H. apply andb_true_iff in H as [Hp Hrest].
    destruct IH as [_ He]; [discriminate | exact Hrest |].
    unfold tidy_line in Hp. rewrite !andb_true_iff in Hp.
    split.
    + apply starts_tidy_app. tauto.
    + apply ends_tidy_app, ends_tidy_app, He.
Qed.

(** The lines the parser sees in a text made of tidy lines are these
    lines. *)
Lemma lines_of_join (pieces : list str) :
  pieces <> [] -> forallb tidy_line pieces = true ->
  lines_of (join (u LF) pieces) = pieces.
Proof.
  intros Hne H. unfold lines_of.
  destruct (tidy_join _ Hne H) as [Hs He].
  rewrite (strip_tidy _ Hs He), split_join; [|exact Hne|].
  - clear Hne Hs He. induction pieces as [|p rest IH]; [reflexivity|].
    simpl in H. apply andb_true_iff in H as [Hp Hrest].
    unfold tidy_line in Hp. rewrite !andb_true_iff in Hp.
    destruct Hp as [[_ Hs] He].
    simpl. rewrite (strip_tidy _ Hs He).
    destruct p as [|c p]; [discriminate|].
    simpl. rewrite (strip_tidy (c :: p) Hs He), (IH Hrest). reflexivity.
  - rewrite forallb_forall in *. intros p Hp. specialize (H p Hp).
    unfold tidy_line in H. rewrite !andb_true_iff in H. tauto.
Qed.

(** ** The non-blank lines of a text

    Trimming the whole text before splitting it, as the parser does, does
    not change the list of its trimmed non-blank lines. *)

Lemma lstrip_app_space (w y : str) :
  forallb isspace w = true -> lstrip (w ++ y) = lstrip y.
Proof.
  induction w as [|c w IH]; simpl; intros H; [reflexivity|].
  apply andb_true_iff in H as [Hc Hw]. rewrite Hc. exact (IH Hw).
Qed.

Lemma lstrip_decomp (s : str) :
  exists w, forallb isspace w = true /\ s = w ++ lstrip s.
Proof.
  induction s as [|c s (w & Hw & Hs)]; simpl.
  - exists []; auto.
  - destruct (isspace c) eqn:Hc.
    + exists (c :: w); simpl. rewrite Hc, Hw. split; [reflexivity|].
      f_equal. exact Hs.
    + exists []; auto.
Qed.

Lemma forallb_rev {A} (p : A -> bool) (l : list A) :
  forallb p (rev l) = forallb p l.
Proof.
  induction l as [|x l IH]; simpl; [reflexivity|].
  rewrite forallb_app, IH. simpl. rewrite andb_true_r. apply andb_comm.
Qed.

Lemma rstrip_app_space (x w : str) :
  forallb isspace w = true -> rstrip (x ++ w) = rstrip x.
Proof.
  intros H. unfold rstrip. rewrite rev_app_distr, lstrip_app_space; auto.
  rewrite forallb_rev. exact H.
Qed.

Lemma rstrip_decomp (s : str) :
  exists w, forallb isspace w = true /\ s = rstrip s ++ w.
Proof.
  destruct (lstrip_decomp (rev s)) as (w & Hw & Hs).
  exists (rev w). rewrite forallb_rev. split; [exact Hw|].
  unfold rstrip. rewrite <- rev_app_distr, <- Hs, rev_involutive. reflexivity.
Qed.

Lemma strip_app_space_l (w x : str) :
  forallb isspace w = true -> strip (w ++ x) = strip x.
Proof. intros H. unfold strip. rewrite lstrip_app_space; auto. Qed.

Lemma lstrip_app (x w : str) :
  lstrip (x ++ w)
  = match lstrip x with
    | [] => lstrip w
    | c :: l => (c :: l) ++ w
    end.
Proof.
  induction x as [|c x IH]; simpl; [destruct (lstrip w); reflexivity|].
  destruct (isspace c); [exact IH | reflexivity].
Qed.

Lemma strip_app_space_r (x w : str) :
  forallb isspace w = true -> strip (x ++ w) = strip x.
Proof.
  intros H. unfold strip. rewrite lstrip_app.
  destruct (lstrip x) as [|c l].
  - rewrite <- (app_nil_r w), lstrip_app_space by exact H. reflexivity.
  - apply rstrip_app_space, H.
Qed.

Lemma strip_space (w : str) : forallb isspace w = true -> strip w = [].
Proof.
  intros H. rewrite <- (app_nil_r w), strip_app_space_l by exact H. reflexivity.
Qed.

Lemma split_LF_not_nil (s : str) : split LF s <> [].
Proof.
  destruct s as [|c s]; [discriminate|].
  rewrite split_LF_cons. destruct (10 =? c)%N; [discriminate|].
  destruct (split LF s); discriminate.
Qed.

Lemma split_LF_app (a b : str) :
  split LF (a ++ b)
  = removelast (split LF a)
    ++ (last (split LF a) [] ++ hd [] (split LF b)) :: tl (split LF b).
Proof.
  induction a as [|c a IH].
  - simpl. pose proof (split_LF_not_nil b).
    destruct (split LF b); [contradiction | reflexivity].
  - change ((c :: a) ++ b) with (c :: a ++ b). rewrite !split_LF_cons, IH.
    pose proof (split_LF_not_nil a) as Ha.
    destruct (split LF a) as [|h [|x t]]; [contradiction| |];
      destruct (10 =? c)%N; reflexivity.
Qed.

Lemma split_space_pieces (w : str) :
  forallb isspace w = true -> forallb (forallb isspace) (split LF w) = true.
Proof.
  induction w as [|c w IH]; simpl; intros H; [reflexivity|].
  apply andb_true_iff in H as [Hc Hw]. specialize (IH Hw).
  rewrite split_LF_cons. destruct (10 =? c)%N; [exact IH|].
  destruct (split LF w) as [|h t]; simpl in *; rewrite Hc; [reflexivity | exact IH].
Qed.

Lemma trimmed_nonblank_app (l1 l2 : list str) :
  trimmed_nonblank (l1 ++ l2) = trimmed_nonblank l1 ++ trimmed_nonblank l2.
Proof. unfold trimmed_nonblank. rewrite filter_app, map_app. reflexivity. Qed.

Lemma trimmed_nonblank_blank (l : list str) :
  forallb (forallb isspace) l = true -> trimmed_nonblank l = [].
Proof.
  unfold trimmed_nonblank. induction l as [|x l IH]; simpl; intros H; [reflexivity|].
  apply andb_true_iff in H as [Hx Hl]. rewrite (strip_space _ Hx). exact (IH Hl).
Qed.

Lemma trimmed_nonblank_one (x y : str) :
  strip x = strip y -> trimmed_nonblank [x] = trimmed_nonblank [y].
Proof.
  unfold trimmed_nonblank. simpl. intros H. rewrite H.
  destruct (truthy (strip y)); simpl; [rewrite H|]; reflexivity.
Qed.

Lemma forallb_removelast {A} (p : A -> bool) (l : list A) :
  forallb p l = true -> forallb p (removelast l) = true.
Proof.
  induction l as [|x [|y l] IH]; simpl in *; auto.
  intros H. apply andb_true_iff in H as [Hx Hl]. rewrite Hx. exact (IH Hl).
Qed.

Lemma forallb_last (p : str -> bool) (l : list str) :
  l <> [] -> forallb p l = true -> p (last l []) = true.
Proof.
  induction l as [|x [|y l] IH]; simpl in *; intros Hne H; [contradiction| |].
  - rewrite andb_true_r in H. exact H.
  - apply andb_true_iff in H as [_ Hl]. apply IH; [discriminate | exact Hl].
Qed.

(** Blank text around a text adds no trimmed non-blank line to it. *)
Lemma trimmed_nonblank_padded (w1 m w2 : str) :
  forallb isspace w1 = true -> forallb isspace w2 = true ->
  trimmed_nonblank (split LF (w1 ++ m ++ w2)) = trimmed_nonblank (split LF m).
Proof.
  intros H1 H2. rewrite split_LF_app, (split_LF_app m w2).
  pose proof (split_space_pieces _ H1) as P1.
  pose proof (split_space_pieces _ H2) as P2.
  pose proof (split_LF_not_nil w1) as N1.
  pose proof (split_LF_not_nil w2) as N2.
  pose proof (split_LF_not_nil m) as Nm.
  assert (Ha : forallb isspace (last (split LF w1) []) = true)
    by (apply (forallb_last (forallb isspace)); assumption).
  assert (HA : trimmed_nonblank (removelast (split LF w1)) = [])
    by (apply trimmed_nonblank_blank, forallb_removelast, P1).
  assert (Hb : forallb isspace (hd [] (split LF w2)) = true)
    by (destruct (split LF w2); [contradiction|];
        simpl in *; apply andb_true_iff in P2; tauto).
  assert (HB : trimmed_nonblank (tl (split LF w2)) = [])
    by (apply trimmed_nonblank_blank; destruct (split LF w2); [contradiction|];
        simpl in *; apply andb_true_iff in P2; tauto).
  set (a := last (split LF w1) []) in *.
  set (b := hd [] (split LF w2)) in *.
  set (ml := last (split LF m) []) in *.
  set (M0 := removelast (split LF m)) in *.
  assert (Em : split LF m = M0 ++ [ml])
    by (subst M0 ml; apply app_removelast_last, Nm).
  clearbody M0 ml. rewrite Em. clear Em Nm.
  destruct M0 as [|x M1]; simpl hd; simpl tl.
  - rewrite trimmed_nonblank_app, HA. simpl app.
    change ((a ++ ml ++ b) :: tl (split LF w2))
      with ([a ++ ml ++ b] ++ tl (split LF w2)).
    rewrite trimmed_nonblank_app, HB, app_nil_r.
    apply trimmed_nonblank_one.
    rewrite strip_app_space_l, strip_app_space_r; auto.
  - rewrite trimmed_nonblank_app, HA. simpl app.
    change ((a ++ x) :: M1 ++ (ml ++ b) :: tl (split LF w2))
      with ([a ++ x] ++ M1 ++ [ml ++ b] ++ tl (split LF w2)).
    change (x :: M1 ++ [ml]) with ([x] ++ M1 ++ [ml]).
    rewrite !trimmed_nonblank_app, HB, app_nil_r.
    f_equal; [apply trimmed_nonblank_one, strip_app_space_l, Ha|].
    f_equal. apply trimmed_nonblank_one, strip_app_space_r, Hb.
Qed.

(** The lines the parser keeps are the trimmed non-blank lines of the text
    as it was given. *)
Lemma lines_of_raw (trace_block : str) :
  lines_of trace_block = trimmed_nonblank (split LF trace_block).
Proof.
  destruct (lstrip_decomp trace_block) as (w1 & H1 & E1).
  destruct (rstrip_decomp (lstrip trace_block)) as (w2 & H2 & E2).
  fold (strip trace_block) in E2.
  rewrite E1 at 2. rewrite E2. rewrite (trimmed_nonblank_padded _ _ _ H1 H2).
  reflexivity.
Qed.

(** ** The shape of the generated text *)

Lemma u_ascii_cons (c : ascii) (s : string) :
  (N_of_ascii c <? 128)%N = true -> u (String c s) = N_of_ascii c :: u s.
Proof.
  intros H. unfold u. cbn [list_ascii_of_string map utf8_decode].
  unfold byte_val at 1 2. rewrite H. reflexivity.
Qed.

Lemma uint_numeral (d : Decimal.uint) :
  forallb is_numeral_char (u (NilEmpty.string_of_uint d)) = true.
Proof.
  induction d; cbn [NilEmpty.string_of_uint]; [reflexivity|..];
    rewrite u_ascii_cons by reflexivity; cbn [forallb]; rewrite IHd; reflexivity.
Qed.

Lemma str_of_N_numeral (n : N) : forallb is_numeral_char (str_of_N n) = true.
Proof.
  unfold str_of_N, NilZero.string_of_uint.
  destruct (N.to_uint n) as [|d|d|d|d|d|d|d|d|d|d]; [reflexivity|..];
    match goal with
    | |- context [NilEmpty.string_of_uint ?x] => exact (uint_numeral x)
    end.
Qed.

Lemma forallb_repeat {A} (p : A -> bool) (x : A) (k : nat) :
  p x = true -> forallb p (repeat x k) = true.
Proof. intros H. induction k; simpl; [reflexivity | rewrite H; exact IHk]. Qed.

Lemma format_0d_numeral (w : nat) (z : Z) :
  forallb is_numeral_char (format_0d w z) = true.
Proof.
  unfold format_0d, zeros. destruct (z <? 0)%Z;
    rewrite ?forallb_app, str_of_N_numeral, forallb_repeat by reflexivity;
    reflexivity.
Qed.

Lemma numeral_no_LF (s : str) :
  forallb is_numeral_char s = true -> no_LF s = true.
Proof.
  unfold no_LF. induction s as [|c s IH]; simpl; [reflexivity|].
  rewrite andb_true_iff. intros [Hc Hs]. rewrite (IH Hs), andb_true_r.
  apply negb_true_iff, N.eqb_neq. intros ->. discriminate.
Qed.

Lemma no_LF_app (a b : str) : no_LF (a ++ b) = no_LF a && no_LF b.
Proof. apply forallb_app. Qed.

Lemma strftime_no_LF (now : Datetime.datetime) :
  no_LF (Datetime.strftime now) = true.
Proof.
  unfold Datetime.strftime. rewrite !no_LF_app.
  rewrite !(numeral_no_LF _ (format_0d_numeral _ _)).
  rewrite (numeral_no_LF _ (str_of_N_numeral _)). reflexivity.
Qed.

Lemma current_line_tidy (mode : str) :
  no_LF mode = true -> tidy_line (u "Current (Gen/Int) = " ++ mode ++ u "]") = true.
Proof.
  intros H. unfold tidy_line. rewrite !no_LF_app, H.
  unfold ends_tidy. rewrite !rev_app_distr. reflexivity.
Qed.

Lemma data_line_tidy (now : Datetime.datetime) (mode : str) (trace_id : Z) :
  no_LF mode = true ->
  tidy_line (u "[Data: Timestamp = " ++ Datetime.strftime now ++ u ", Mode = "
               ++ mode ++ u ", Alignment (Y/N) = Y, ID = "
               ++ format_0d 3 trace_id ++ u "]") = true.
Proof.
  intros H. unfold tidy_line.
  rewrite !no_LF_app, H, strftime_no_LF,
    (numeral_no_LF _ (format_0d_numeral _ _)).
  unfold ends_tidy. rewrite !rev_app_distr. reflexivity.
Qed.

Lemma generated_tidy (now : Datetime.datetime) (mode : str) (trace_id : Z) :
  no_LF mode = true ->
  forallb tidy_line (trace_block_lines now mode trace_id) = true.
Proof.
  intros H. unfold trace_block_lines. cbn [forallb].
  rewrite (current_line_tidy _ H), (data_line_tidy now _ trace_id H).
  vm_compute. reflexivity.
Qed.

Lemma tidy_lines_no_LF (pieces : list str) :
  forallb tidy_line pieces = true -> forallb no_LF pieces = true.
Proof.
  rewrite !forallb_forall. intros H p Hp. specialize (H p Hp).
  unfold tidy_line in H. rewrite !andb_true_iff in H. tauto.
Qed.

(** The lines the parser sees in a generated block are the lines the
    generator wrote. *)
Lemma lines_of_generated (now : Datetime.datetime) (mode : str) (trace_id : Z) :
  no_LF mode = true ->
  lines_of (generate_trace_block now mode trace_id)
  = trace_block_lines now mode trace_id.
Proof.
  intros H. apply lines_of_join; [discriminate | apply generated_tidy, H].
Qed.

Lemma split_generated (now : Datetime.datetime) (mode : str) (trace_id : Z) :
  no_LF mode = true ->
  split LF (generate_trace_block now mode trace_id)
  = trace_block_lines now mode trace_id.
Proof.
  intros H. apply split_join; [discriminate|].
  apply tidy_lines_no_LF, generated_tidy, H.
Qed.

Lemma parse_from_lines (trace_block : str) :
  parse trace_block
  = fst (parse_block_lines (lines_of trace_block) initial_result).
Proof. unfold parse. rewrite parse_run. reflexivity. Qed.

(** ** The minimum size *)

Lemma lines_of_length (trace_block : str) :
  length (lines_of trace_block)
  = length (filter (fun line => truthy (strip line)) (split LF trace_block)).
Proof.
  rewrite lines_of_raw. unfold trimmed_nonblank. apply length_map.
Qed.

(** C6. Minimum size: an input with fewer than 10 lines that are not blank
    after trimming gets the structural error "Too few lines", which carries
    the number of lines found, and is invalid. *)
Theorem too_few_lines_invalid (trace_block : str) :
  length (filter (fun line => truthy (strip line)) (split LF trace_block)) < 10 ->
  In (TooFewLines (length (lines_of trace_block)))
     (Parser.errors (parse trace_block))
  /\ Parser.is_valid (parse trace_block) = false.
Proof.
  rewrite <- lines_of_length. intros Hlen. rewrite parse_from_lines.
  unfold parse_block_lines, check_line_count.
  apply Nat.ltb_lt in Hlen. rewrite Hlen.
  set (lines := lines_of trace_block).
  set (rest := try_except _ _ ;; return_result).
  assert (Hrest : reports not_alignment rest).
  { subst rest. apply reports_bind; [|intros _; apply reports_return].
    apply reports_try_except; [apply reports_parse_lines|].
    intros e. apply reports_report. exact I. }
  rewrite bind_report.
  match goal with
  | |- context [rest ?r1] => destruct (Hrest r1) as (es & _ & E & V & _)
  end.
  rewrite E, V. split; [left; reflexivity | reflexivity].
Qed.

Lemma too_few_lines_invalid_witness :
  length (filter (fun line => truthy (strip line))
                 (split LF Examples.nine_lines)) < 10
  /\ In (TooFewLines (length (lines_of Examples.nine_lines)))
        (Parser.errors (parse Examples.nine_lines))
  /\ Parser.is_valid (parse Examples.nine_lines) = false.
Proof.
  assert (H : length (filter (fun line => truthy (strip line))
                             (split LF Examples.nine_lines)) < 10)
    by (vm_compute; lia).
  exact (conj H (too_few_lines_invalid Examples.nine_lines H)).
Defined.

(** ** The data line and the footer do not bear on the semantic rules *)

Lemma same_semantics_refl r : same_semantics r r.
Proof. repeat split. Qed.

Lemma same_semantics_trans r1 r2 r3 :
  same_semantics r1 r2 -> same_semantics r2 r3 -> same_semantics r1 r3.
Proof. unfold same_semantics. intuition congruence. Qed.

Lemma keeps_ret A (a : A) : keeps_semantics (ret a).
Proof. intros r; apply same_semantics_refl. Qed.

Lemma keeps_raise A e : keeps_semantics (@raise A e).
Proof. intros r; apply same_semantics_refl. Qed.

Lemma keeps_report e : keeps_semantics (report e).
Proof. intros r; repeat split. Qed.

Lemma keeps_set_data d : keeps_semantics (assign (set_data d)).
Proof. intros r; repeat split. Qed.

Lemma keeps_set_footer l : keeps_semantics (assign (set_footer l)).
Proof. intros r; repeat split. Qed.

Lemma keeps_bind A B (m : M A) (f : A -> M B) :
  keeps_semantics m -> (forall a, keeps_semantics (f a)) ->
  keeps_semantics (bind m f).
Proof.
  intros Hm Hf r. unfold bind. specialize (Hm r).
  destruct (m r) as [r' [a| |e]]; simpl in *; auto.
  eapply same_semantics_trans; [exact Hm | apply Hf].
Qed.

Ltac keeps_walk :=
  repeat first
    [ apply keeps_ret | apply keeps_raise | apply keeps_report
    | apply keeps_set_data | apply keeps_set_footer
    | apply keeps_bind; [|intros ?]
    | match goal with
      | |- keeps_semantics (if ?b then _ else _) => destruct b
      | |- keeps_semantics (match ?x with _ => _ end) => destruct x
      | |- keeps_semantics (let (_, _) := ?x in _) => destruct x
      end
    | progress unfold pass, item, last_item, unpack4, int ].

Lemma keeps_parse_data lines : keeps_semantics (parse_data lines).
Proof. unfold parse_data. keeps_walk. Qed.

Lemma keeps_parse_footer lines : keeps_semantics (parse_footer lines).
Proof. unfold parse_footer. keeps_walk. Qed.

(** The exception handler and the final [return result] leave the three
    fields as the [try] block left them. *)
Lemma keeps_after_try (body : M unit) (r : ParseResult) :
  same_semantics
    (fst (body r))
    (fst ((try_except body (fun e => report (ParsingError e)) ;;
          @return_result unit) r)).
Proof.
  unfold bind, try_except. destruct (body r) as [r' [[]| |e]]; repeat split.
Qed.

Lemma validate_same_semantics r r' :
  same_semantics r r' ->
  validate_semantic_structure r' = validate_semantic_structure r.
Proof.
  intros (Hs & Hm & Hc).
  unfold validate_semantic_structure, check_state_order, declared_mode,
    states_of, modes_of.
  rewrite Hs, Hm, Hc. reflexivity.
Qed.

Lemma bind_eval A B (m : M A) (f : A -> M B) r r' a :
  m r = (r', Normal a) -> bind m f r = f a r'.
Proof. intros H. unfold bind. rewrite H. reflexivity. Qed.

(** The semantic verdict on a generated block, at any time and for any
    identifier: both mode lines are found at fault. *)
Lemma generated_semantic_errors (now : Datetime.datetime) (mode : str)
      (trace_id : Z) :
  mode = u "Gen" \/ mode = u "Int" ->
  validate_semantic_structure (parse (generate_trace_block now mode trace_id))
  = [ IncorrectPath (u "Generative") (u "@ → & → % → ~") (u "@ → & → % → ~,");
      IncorrectPath (u "Integrative") (u "~ → % → & → @") (u "~ → % → & → @,") ].
Proof.
  intros Hmode. rewrite parse_from_lines.
  destruct Hmode as [-> | ->];
    rewrite lines_of_generated by reflexivity;
    unfold trace_block_lines;
    match goal with
    | |- context [?x :: [u "[Gyroscope - End]"]] => generalize x
    end;
    intros data_line;
    unfold parse_block_lines;
    (erewrite bind_eval by (vm_compute; reflexivity));
    rewrite (validate_same_semantics _ _ (keeps_after_try _ _));
    unfold parse_lines;
    do 6 (erewrite bind_eval by (vm_compute; reflexivity));
    rewrite (validate_same_semantics _ _
               (keeps_bind _ _ _ _ (keeps_parse_data _)
                           (fun _ => keeps_parse_footer _) _));
    vm_compute; reflexivity.
Qed.

(** At noon of 2025-05-12, the generated blocks parse as valid. *)
Lemma generated_valid_at_noon :
  Forall (fun mode =>
    Forall (fun trace_id =>
      Parser.is_valid (parse (generate_trace_block Examples.noon mode trace_id))
      = true)
      [0; 1; 42; 999]%Z)
    [u "Gen"; u "Int"].
Proof.
  repeat (apply Forall_cons || apply Forall_nil); vm_compute; reflexivity.
Qed.

(** An identifier below 10000, as the generator prints it, is a run of
    decimal digits that [int] reads back. *)
Lemma trace_id_digits (trace_id : Z) :
  (0 <= trace_id <= 9999)%Z ->
  format_0d 3 trace_id <> []
  /\ forallb isdecimal (format_0d 3 trace_id) = true
  /\ py_int (format_0d 3 trace_id) = inr trace_id.
Proof.
  intros Hid.
  pose (check := fun v : N =>
    truthy (format_0d 3 (Z.of_N v))
    && forallb isdecimal (format_0d 3 (Z.of_N v))
    && match py_int (format_0d 3 (Z.of_N v)) with
       | inr z => (z =? Z.of_N v)%Z
       | inl _ => false
       end).
  assert (H : check (Z.to_N trace_id) = true).
  { apply (N_range_check 0 9999); [vm_compute; reflexivity | lia | lia]. }
  unfold check in H. rewrite Z2N.id in H by lia.
  rewrite !andb_true_iff in H. destruct H as [[Ht Hd] Hi].
  repeat split.
  - intros E. rewrite E in Ht. discriminate.
  - exact Hd.
  - destruct (py_int (format_0d 3 trace_id)); [discriminate|].
    apply Z.eqb_eq in Hi. congruence.
Qed.

(** What the data line of a generated block does to the result: the
    [data] field is set, and nothing is reported. *)
Lemma parse_data_generated (now : Datetime.datetime) (mode : str)
      (trace_id : Z) (r : ParseResult) :
  Datetime.valid now = true -> (1000 <= Datetime.year now)%N ->
  mode = u "Gen" \/ mode = u "Int" ->
  (0 <= trace_id <= 9999)%Z ->
  parse_data (trace_block_lines now mode trace_id) r
  = assign (set_data (Some {| timestamp := Datetime.strftime now;
                              data_mode := mode;
                              alignment := u "Y";
                              trace_id := trace_id |})) r.
Proof.
  intros Hv Hy Hmode Hid.
  destruct (trace_id_digits trace_id Hid) as (Hne & Hdec & Hint).
  unfold parse_data, trace_block_lines.
  cbn [length data_idx current_mode_idx modes_section_start
       states_section_start Nat.add Nat.leb].
  unfold item. cbn [nth_error].
  change (bind (ret ?x) ?f) with (f x). cbv beta.
  rewrite DATA_generated; try assumption;
    [|destruct Hmode as [-> | ->]; discriminate
     |destruct Hmode as [-> | ->]; reflexivity].
  unfold unpack4. change (bind (ret ?x) ?f) with (f x). cbv beta iota.
  unfold int. rewrite Hint. change (bind (ret ?x) ?f) with (f x). cbv beta.
  rewrite (strptime_strftime now Hv Hy).
  assert (Hgi : is_Gen_or_Int mode = true)
    by (destruct Hmode as [-> | ->]; reflexivity).
  rewrite Hgi. reflexivity.
Qed.

(** A generated block passes the structural checks, at any time whose
    year has four digits and for any identifier below 10000. *)
Lemma generated_parses_valid (now : Datetime.datetime) (mode : str)
      (trace_id : Z) :
  Datetime.valid now = true -> (1000 <= Datetime.year now)%N ->
  mode = u "Gen" \/ mode = u "Int" ->
  (0 <= trace_id <= 9999)%Z ->
  Parser.is_valid (parse (generate_trace_block now mode trace_id)) = true.
Proof.
  intros Hv Hy Hmode Hid.
  assert (Hdata : forall r,
    parse_data (trace_block_lines now mode trace_id) r
    = assign (set_data (Some {| timestamp := Datetime.strftime now;
                                data_mode := mode;
                                alignment := u "Y";
                                trace_id := trace_id |})) r)
    by (intros r; apply parse_data_generated; assumption).
  rewrite parse_from_lines.
  destruct Hmode as [Hm | Hm]; subst mode.
  - rewrite lines_of_generated by reflexivity.
    unfold parse_block_lines.
    erewrite bind_eval by (vm_compute; reflexivity).
    unfold bind at 1, try_except. unfold parse_lines.
    do 6 (erewrite bind_eval by (vm_compute; reflexivity)).
    erewrite bind_eval by (rewrite Hdata; reflexivity).
    vm_compute. reflexivity.
  - rewrite lines_of_generated by reflexivity.
    unfold parse_block_lines.
    erewrite bind_eval by (vm_compute; reflexivity).
    unfold bind at 1, try_except. unfold parse_lines.
    do 6 (erewrite bind_eval by (vm_compute; reflexivity)).
    erewrite bind_eval by (rewrite Hdata; reflexivity).
    vm_compute. reflexivity.
Qed.

(** ** The generated block *)

(** C1, evaluated: whatever the time, and for every identifier, the text
    generated for Gen and for Int does not pass the semantic validator,
    although it parses as valid (shown at one time, for the identifiers 0, 1,
    42 and 999).  The pattern of a mode line takes the rest of the line as
    the path, so the comma that ends the two mode lines of the generated text
    is part of the parsed path and the comparison with the canonical path
    fails. *)
Theorem generated_block_has_semantic_errors :
  (forall (now : Datetime.datetime) (trace_id : Z),
      Forall (fun mode =>
        validate_semantic_structure
          (parse (generate_trace_block now mode trace_id))
        = [ IncorrectPath (u "Generative") (u "@ → & → % → ~")
                          (u "@ → & → % → ~,");
            IncorrectPath (u "Integrative") (u "~ → % → & → @")
                          (u "~ → % → & → @,") ])
        [u "Gen"; u "Int"])
  /\ Forall (fun mode =>
       Forall (fun trace_id =>
         Parser.is_valid
           (parse (generate_trace_block Examples.noon mode trace_id)) = true)
         [0; 1; 42; 999]%Z)
       [u "Gen"; u "Int"].
Proof.
  split; [|exact generated_valid_at_noon].
  intros now trace_id.
  repeat (apply Forall_cons || apply Forall_nil);
    apply generated_semantic_errors; auto.
Qed.

(** C7, as amended.  Missing-state detection: whatever the time and the
    identifier it was generated with, the canonical Generative block without
    its "%" state line is invalid, and the states that were extracted are
    exactly @, & and ~.  The structural error is reported for the fourth
    place of the states section, where the modes header now stands ("Invalid
    state format at line 8"), and not for the place of the deleted line,
    which the "~" line has taken: the parser reads the state lines by their
    place, so it finds the end of the section short, not the gap. *)
Theorem missing_state_detected (now : Datetime.datetime) (trace_id : Z) :
  let generated := generate_trace_block now (u "Gen") trace_id in
  let result := parse (Examples.delete_line 6 generated) in
  nth_error (split LF generated) 6
  = Some (u "% = Inference Accountability (Opposition Non-Absolute),")
  /\ Parser.is_valid result = false
  /\ In (InvalidStateFormat 8 (u "[Modes {Format: Type = Path}:"))
        (Parser.errors result)
  /\ Parser.errors result
     = [ InvalidStateFormat 8 (u "[Modes {Format: Type = Path}:");
         InvalidModesHeader ]
  /\ existsb (at_state_position 3) (Parser.errors result) = true
  /\ existsb (fun e => at_state_position 2 e || about_symbol (u "%") e)
             (Parser.errors result) = false
  /\ Dict.keys (states_of result) = [u "@"; u "&"; u "~"].
Proof.
  intros generated result. subst result generated.
  unfold Examples.delete_line.
  rewrite (split_generated now (u "Gen") trace_id eq_refl).
  split; [reflexivity|].
  rewrite parse_from_lines.
  pose proof (generated_tidy now (u "Gen") trace_id eq_refl) as Htidy.
  unfold trace_block_lines in *.
  cbn [firstn skipn Nat.add app].
  cbn [forallb] in Htidy. rewrite !andb_true_iff in Htidy.
  rewrite lines_of_join; [|discriminate|].
  - match goal with
    | |- context [?x :: [u "[Gyroscope - End]"]] => generalize x
    end.
    intros data_line. vm_compute. repeat split. left; reflexivity.
  - cbn [forallb]. rewrite !andb_true_iff. tauto.
Qed.

(** C7, as stated, fails: in the block generated for Gen and the identifier
    1 at 2025-05-12T12:00, without its "%" state line (the third of the
    states section, line 7 of the text), no error of the result is for the
    place of that line or for its symbol.  The two errors are for line 8
    and for the modes header. *)
Lemma missing_state_error_is_elsewhere :
  nth_error (split LF Examples.generated) 6
  = Some (u "% = Inference Accountability (Opposition Non-Absolute),")
  /\ Parser.errors (parse (Examples.delete_line 6 Examples.generated))
     = [ InvalidStateFormat 8 (u "[Modes {Format: Type = Path}:");
         InvalidModesHeader ]
  /\ existsb (fun e => at_state_position 2 e || about_symbol (u "%") e)
             (Parser.errors (parse (Examples.delete_line 6 Examples.generated)))
     = false.
Proof. repeat split; vm_compute; reflexivity. Qed.

(** ** The current mode *)

Lemma ensures_bind (P Q R : ParseResult -> Prop) A B (m : M A) (f : A -> M B) :
  ensures P m Q -> (forall a, ensures Q (f a) R) -> ensures P (bind m f) R.
Proof.
  intros Hm Hf r Hr. unfold bind. specialize (Hm r Hr).
  destruct (m r) as [r' [a| |e]]; auto. apply Hf, Hm.
Qed.

Lemma ensures_ret (P : ParseResult -> Prop) A (a : A) : ensures P (ret a) P.
Proof. intros r Hr. exact Hr. Qed.

Lemma ensures_raise (P Q : ParseResult -> Prop) A e : ensures P (@raise A e) Q.
Proof. intros r Hr. exact I. Qed.

Lemma ensures_report_return (P Q : ParseResult -> Prop) A e :
  ensures P (report e ;; @return_result A) Q.
Proof. intros r Hr. reflexivity. Qed.

Lemma ensures_report_anything P e : ensures P (report e) anything.
Proof. intros r Hr. exact I. Qed.

Lemma ensures_assign_anything P f : ensures P (assign f) anything.
Proof. intros r Hr. exact I. Qed.

Lemma ensures_assign_state P symbol info :
  ensures P (assign_state symbol info) anything.
Proof.
  intros r Hr. unfold assign_state. destruct (states (parsed r)); exact I.
Qed.

Lemma ensures_assign_mode P mode_type info :
  ensures P (assign_mode mode_type info) anything.
Proof.
  intros r Hr. unfold assign_mode. destruct (modes (parsed r)); exact I.
Qed.

Lemma ensures_for_each A (l : list A) (body : A -> M unit) :
  (forall x, ensures anything (body x) anything) ->
  ensures anything (for_each l body) anything.
Proof.
  intros Hb. induction l as [|x l IH]; simpl.
  - apply ensures_ret.
  - eapply ensures_bind; [apply Hb | intros _; exact IH].
Qed.

(** A [return result] comes right after a [report]: the sections up to the
    mode lines return invalid results only. *)
Ltac ensures_walk :=
  repeat first
    [ apply ensures_ret | apply ensures_raise | apply ensures_report_return
    | apply ensures_report_anything | apply ensures_assign_anything
    | apply ensures_assign_state | apply ensures_assign_mode
    | apply ensures_for_each; intros ?
    | eapply ensures_bind; [|intros ?]
    | match goal with
      | |- ensures _ (if ?b then _ else _) _ => destruct b
      | |- ensures _ (match ?x with _ => _ end) _ => destruct x
      | |- ensures _ (let (_, _) := ?x in _) _ => destruct x
      end
    | progress unfold pass, item, last_item, lookup, unpack2, unpack3, unpack4,
      int, for_range ].

Lemma ensures_parse_header lines :
  ensures anything (parse_header lines) anything.
Proof. unfold parse_header. ensures_walk. Qed.

Lemma ensures_parse_version lines :
  ensures anything (parse_version lines) anything.
Proof. unfold parse_version. ensures_walk. Qed.

Lemma ensures_parse_purpose lines :
  ensures anything (parse_purpose lines) anything.
Proof. unfold parse_purpose. ensures_walk. Qed.

Lemma ensures_parse_state_line lines i :
  ensures anything (parse_state_line lines i) anything.
Proof. unfold parse_state_line. ensures_walk. Qed.

Lemma ensures_parse_mode_line lines i :
  ensures anything (parse_mode_line lines i) anything.
Proof. unfold parse_mode_line. ensures_walk. Qed.

Lemma ensures_parse_states lines :
  ensures anything (parse_states lines) anything.
Proof.
  unfold parse_states, for_range.
  repeat first [apply ensures_parse_state_line | progress ensures_walk].
Qed.

Lemma ensures_parse_modes lines :
  ensures anything (parse_modes lines) anything.
Proof.
  unfold parse_modes, for_range.
  repeat first [apply ensures_parse_mode_line | progress ensures_walk].
Qed.

(** The groups of a current-mode line: the second one is a non-empty run
    of ASCII letters. *)
Lemma current_mode_groups_letters (line : str) (groups : list str) :
  re_match Grammar.current_mode line = Some groups ->
  exists scope mode,
    groups = [scope; mode] /\ mode <> []
    /\ forallb is_ascii_letter mode = true.
Proof.
  intros H. apply re_match_sound in H as (w & rest & -> & H).
  unfold Grammar.current_mode in H. split_seq H. open_groups.
  repeat match goal with
         | H : Matches (Plus _) _ _ |- _ =>
           apply Matches_Plus in H as (-> & ? & ?)
         end.
  drop_groupless. simpl. eauto 10.
Qed.

Lemma ensures_report_invalid P e :
  ensures P (report e) invalid_or_letters_mode.
Proof. intros r Hr. left. reflexivity. Qed.

Lemma ensures_parse_current_mode lines :
  ensures anything (parse_current_mode lines) invalid_or_letters_mode.
Proof.
  unfold parse_current_mode.
  destruct (length lines <=? current_mode_idx); [apply ensures_report_invalid|].
  eapply ensures_bind; [unfold item; ensures_walk|intros line].
  destruct (re_match Grammar.current_mode line) as [groups|] eqn:Hm;
    [|apply ensures_report_invalid].
  apply current_mode_groups_letters in Hm as (scope & mode & -> & Hne & Hl).
  intros r _. cbn. right. exists {| scope := scope; mode := mode |}. auto.
Qed.

Lemma ensures_keep_report e :
  ensures invalid_or_letters_mode (report e) invalid_or_letters_mode.
Proof. apply ensures_report_invalid. Qed.

Lemma ensures_keep_set_data d :
  ensures invalid_or_letters_mode (assign (set_data d)) invalid_or_letters_mode.
Proof. intros r Hr. exact Hr. Qed.

Lemma ensures_keep_set_footer l :
  ensures invalid_or_letters_mode (assign (set_footer l))
          invalid_or_letters_mode.
Proof. intros r Hr. exact Hr. Qed.

Ltac ensures_keep_walk :=
  repeat first
    [ apply ensures_ret | apply ensures_raise
    | apply ensures_keep_report | apply ensures_keep_set_data
    | apply ensures_keep_set_footer
    | eapply ensures_bind; [|intros ?]
    | match goal with
      | |- ensures _ (if ?b then _ else _) _ => destruct b
      | |- ensures _ (match ?x with _ => _ end) _ => destruct x
      | |- ensures _ (let (_, _) := ?x in _) _ => destruct x
      end
    | progress unfold pass, item, last_item, unpack4, int ].

Lemma ensures_parse_data lines :
  ensures invalid_or_letters_mode (parse_data lines) invalid_or_letters_mode.
Proof. unfold parse_data. ensures_keep_walk. Qed.

Lemma ensures_parse_footer lines :
  ensures invalid_or_letters_mode (parse_footer lines) invalid_or_letters_mode.
Proof. unfold parse_footer. ensures_keep_walk. Qed.

Lemma ensures_parse_lines lines :
  ensures anything (parse_lines lines) invalid_or_letters_mode.
Proof.
  unfold parse_lines.
  eapply ensures_bind; [apply ensures_parse_header|intros _].
  eapply ensures_bind; [apply ensures_parse_version|intros _].
  eapply ensures_bind; [apply ensures_parse_purpose|intros _].
  eapply ensures_bind; [apply ensures_parse_states|intros _].
  eapply ensures_bind; [apply ensures_parse_modes|intros _].
  eapply ensures_bind; [apply ensures_parse_current_mode|intros _].
  eapply ensures_bind; [apply ensures_parse_data|intros _].
  apply ensures_parse_footer.
Qed.

Lemma parse_invalid_or_letters_mode (trace_block : str) :
  invalid_or_letters_mode (parse trace_block).
Proof.
  rewrite parse_from_lines. unfold parse_block_lines, check_line_count.
  set (lines := lines_of trace_block).
  destruct (length lines <? 10).
  - rewrite bind_report. unfold bind, try_except.
    match goal with
    | |- context [parse_lines lines ?r0] =>
      pose proof (ensures_parse_lines lines r0 I) as H;
        destruct (parse_lines lines r0) as [r1 [[]| |e]]
    end; simpl; [exact H | left; exact H | left; reflexivity].
  - unfold bind, try_except, pass, ret.
    pose proof (ensures_parse_lines lines initial_result I) as H.
    destruct (parse_lines lines initial_result) as [r1 [[]| |e]]; simpl;
      [exact H | left; exact H | left; reflexivity].
Qed.

(** X7. What does hold of the current mode of a block that parses as valid:
    it was extracted, and it is a non-empty run of ASCII letters. *)
Lemma valid_current_mode_letters (trace_block : str) :
  Parser.is_valid (parse trace_block) = true ->
  exists cm,
    current_mode (parsed (parse trace_block)) = Some cm
    /\ mode cm <> [] /\ forallb is_ascii_letter (mode cm) = true.
Proof.
  intros Hv. destruct (parse_invalid_or_letters_mode trace_block) as [H|H].
  - congruence.
  - exact H.
Qed.

Lemma valid_current_mode_letters_witness :
  Parser.is_valid (parse Examples.foo_block) = true
  /\ exists cm,
      current_mode (parsed (parse Examples.foo_block)) = Some cm
      /\ mode cm <> [] /\ forallb is_ascii_letter (mode cm) = true.
Proof.
  assert (H : Parser.is_valid (parse Examples.foo_block) = true)
    by (vm_compute; reflexivity).
  exact (conj H (valid_current_mode_letters Examples.foo_block H)).
Defined.

(** C3, at a block whose current-mode line reads "Current (Gen/Int) = Foo]":
    the parse is valid and the semantic validation finds nothing, yet the
    extracted mode is "Foo".  The parser checks the mode of the data line
    against Gen and Int, not the one of the current-mode line. *)
Theorem current_mode_not_checked :
  let result := parse Examples.foo_block in
  Parser.is_valid result = true
  /\ validate_semantic_structure result = []
  /\ declared_mode result = Some (u "Foo")
  /\ option_map data_mode (data (parsed result)) = Some (u "Gen").
Proof.
  vm_compute. repeat split.
Qed.

(** ** Segmentation *)

(** Reading from a file never yields an empty batch: when no block
    qualifies, the whole content is validated. *)
Lemma validate_from_file_not_empty (filepath : str) (file : Batch.read_outcome) :
  Batch.validate_from_file filepath file <> [].
Proof.
  unfold Batch.validate_from_file. destruct file; try discriminate.
  destruct (flat_map _ _); discriminate.
Qed.

(** C2, at the first nine lines of a generated block, which contain no
    blank line: read from a file, the text is validated as one block; read
    from standard input, it is dropped and the batch has no result. *)
Theorem stdin_has_no_fallback (self : Batch.BatchValidator) (filepath : str) :
  let content := Examples.first_lines 9 Examples.generated in
  Batch.validate_batch_from_stdin self content = ({| Batch.results := Batch.results self ++ [] |}, [])
  /\ Batch.validate_from_file filepath (Batch.Content content)
     = [Batch.validate_trace_block content (u "file:" ++ filepath)].
Proof.
  split.
  - unfold Batch.validate_batch_from_stdin.
    match goal with
    | |- context [flat_map ?f ?l] =>
      replace (flat_map f l) with (@nil Batch.SegmentResult)
        by (vm_compute; reflexivity)
    end.
    reflexivity.
  - unfold Batch.validate_from_file.
    match goal with
    | |- context [flat_map ?f ?l] =>
      replace (flat_map f l) with (@nil Batch.SegmentResult)
        by (vm_compute; reflexivity)
    end.
    reflexivity.
Qed.

(** * Further properties of the parser *)

(** X1. What [parse_trace_block] returns is valid exactly if its list of
    errors is empty: every statement that marks the result invalid appends
    an error, and no error is appended without marking the result. *)
Theorem parse_result_valid_iff_no_error (trace_block : str) :
  Parser.is_valid (parse trace_block) = true
  <-> Parser.errors (parse trace_block) = [].
Proof.
  destruct (parse_effect trace_block) as (es & _ & E & V & _).
  rewrite E, V. simpl. destruct es as [|e es]; split; intros H;
    try reflexivity; discriminate.
Qed.

(** X2. The parser never emits a warning: the [warnings] list of its
    result, and of the combined result of [validate_trace_block], is empty
    for every input. *)
Theorem warnings_always_empty (content source : str) :
  Parser.warnings (parse content) = []
  /\ Batch.warnings (Batch.validate_trace_block content source) = [].
Proof.
  destruct (parse_effect content) as (es & _ & _ & _ & W).
  split; [exact W | exact W].
Qed.

(** The groups of a state line: the first one is one of the four
    symbols, which all have an entry in [expected_states]. *)
Lemma state_groups_symbol (line : str) (groups : list str) :
  re_match Grammar.state line = Some groups ->
  exists c state_name policy,
    groups = [[c]; state_name; policy] /\ one_of "@&%~" c = true.
Proof.
  intros H. apply re_match_sound in H as (w & rest & -> & H).
  unfold Grammar.state in H. split_seq H. open_groups.
  repeat match goal with
         | H : Matches (Plus _) _ _ |- _ =>
           apply Matches_Plus in H as (-> & ? & ?)
         | H : Matches (Cls _) _ _ |- _ =>
           apply Matches_Cls in H as (? & -> & -> & ?)
         end.
  drop_groupless. simpl. eauto 10.
Qed.

Lemma symbol_expected (c : char) :
  one_of "@&%~" c = true ->
  exists expected_name expected_policy,
    Dict.get [c] Grammar.expected_states = Some expected_name
    /\ Dict.get [c] Grammar.expected_policies = Some expected_policy.
Proof.
  unfold one_of. cbn [u]. intros H.
  assert (Hc : c = 64%N \/ c = 38%N \/ c = 37%N \/ c = 126%N).
  { revert H. vm_compute (u "@&%~"). cbn [existsb].
    rewrite !orb_true_iff, !N.eqb_eq.
    intros [H|[H|[H|[H|H]]]]; auto; discriminate. }
  destruct Hc as [-> | [-> | [-> | ->]]]; eexists; eexists; split;
    vm_compute; reflexivity.
Qed.

(** ** Reasoning on one field at a time *)

Lemma keeps_field_ret F (proj : Parsed -> F) A (a : A) : keeps_field proj (ret a).
Proof. intros r. reflexivity. Qed.

Lemma keeps_field_raise F (proj : Parsed -> F) A e :
  keeps_field proj (@raise A e).
Proof. intros r. reflexivity. Qed.

Lemma keeps_field_return F (proj : Parsed -> F) A :
  keeps_field proj (@return_result A).
Proof. intros r. reflexivity. Qed.

Lemma keeps_field_report F (proj : Parsed -> F) e : keeps_field proj (report e).
Proof. intros r. reflexivity. Qed.

Lemma keeps_field_assign F (proj : Parsed -> F) f :
  (forall p, proj (f p) = proj p) -> keeps_field proj (assign f).
Proof. intros H r. apply H. Qed.

Lemma keeps_field_assign_state F (proj : Parsed -> F) symbol info :
  (forall v p, proj (set_states v p) = proj p) ->
  keeps_field proj (assign_state symbol info).
Proof.
  intros H r. unfold assign_state. destruct (states (parsed r)); [apply H|reflexivity].
Qed.

Lemma keeps_field_assign_mode F (proj : Parsed -> F) mode_type info :
  (forall v p, proj (set_modes v p) = proj p) ->
  keeps_field proj (assign_mode mode_type info).
Proof.
  intros H r. unfold assign_mode. destruct (modes (parsed r)); [apply H|reflexivity].
Qed.

Lemma keeps_field_bind F (proj : Parsed -> F) A B (m : M A) (f : A -> M B) :
  keeps_field proj m -> (forall a, keeps_field proj (f a)) ->
  keeps_field proj (bind m f).
Proof.
  intros Hm Hf r. unfold bind. specialize (Hm r).
  destruct (m r) as [r' [a| |e]]; simpl in *; auto.
  rewrite Hf. exact Hm.
Qed.

Lemma keeps_field_for_each F (proj : Parsed -> F) A (l : list A)
      (body : A -> M unit) :
  (forall x, keeps_field proj (body x)) -> keeps_field proj (for_each l body).
Proof.
  intros Hb. induction l as [|x l IH]; simpl.
  - apply keeps_field_ret.
  - apply keeps_field_bind; auto.
Qed.

Ltac keeps_field_walk :=
  repeat first
    [ apply keeps_field_ret | apply keeps_field_raise | apply keeps_field_return
    | apply keeps_field_report
    | apply keeps_field_assign; intros; reflexivity
    | apply keeps_field_assign_state; intros; reflexivity
    | apply keeps_field_assign_mode; intros; reflexivity
    | apply keeps_field_for_each; intros ?
    | apply keeps_field_bind; [|intros ?]
    | match goal with
      | |- keeps_field _ (if ?b then _ else _) => destruct b
      | |- keeps_field _ (match ?x with _ => _ end) => destruct x
      | |- keeps_field _ (let (_, _) := ?x in _) => destruct x
      end
    | progress unfold pass, item, last_item, lookup, unpack2, unpack3, unpack4,
      int, for_range, parse_state_line, parse_mode_line ].

(** Which sections leave which fields alone *)
Lemma modes_keeps_states lines : keeps_field states (parse_modes lines).
Proof. unfold parse_modes. keeps_field_walk. Qed.

Lemma current_mode_keeps_states lines :
  keeps_field states (parse_current_mode lines).
Proof. unfold parse_current_mode. keeps_field_walk. Qed.

Lemma data_keeps_states lines : keeps_field states (parse_data lines).
Proof. unfold parse_data. keeps_field_walk. Qed.

Lemma footer_keeps_states lines : keeps_field states (parse_footer lines).
Proof. unfold parse_footer. keeps_field_walk. Qed.

Lemma footer_keeps_data lines : keeps_field data (parse_footer lines).
Proof. unfold parse_footer. keeps_field_walk. Qed.

(** A section that leaves a field alone keeps what is known of that field
    in a valid result. *)
Lemma ensures_frame F (proj : Parsed -> F) (G : F -> Prop) A (m : M A) :
  keeps_field proj m -> ensures anything m anything ->
  reports not_alignment m ->
  ensures (invalid_or (fun p => G (proj p))) m (invalid_or (fun p => G (proj p))).
Proof.
  intros Hk He Hr r HG. specialize (Hk r). specialize (He r I).
  destruct (Hr r) as (es & _ & _ & V & _).
  destruct (m r) as [r' [a| |e]]; simpl in *; auto.
  destruct HG as [Hinv | HG].
  - left. rewrite V, Hinv. reflexivity.
  - right. rewrite Hk. exact HG.
Qed.

Lemma ensures_any_current_mode lines :
  ensures anything (parse_current_mode lines) anything.
Proof. unfold parse_current_mode. ensures_walk. Qed.

Lemma ensures_any_data lines : ensures anything (parse_data lines) anything.
Proof. unfold parse_data. ensures_walk. Qed.

Lemma ensures_any_footer lines : ensures anything (parse_footer lines) anything.
Proof. unfold parse_footer. ensures_walk. Qed.

Lemma ensures_for_each_inv (Q : ParseResult -> Prop) A (l : list A)
      (body : A -> M unit) :
  (forall x, ensures Q (body x) Q) -> ensures Q (for_each l body) Q.
Proof.
  intros Hb. induction l as [|x l IH]; simpl.
  - apply ensures_ret.
  - eapply ensures_bind; [apply Hb | intros _; exact IH].
Qed.

(** What holds of the parsed block once the [try] block is through holds
    of every result that is returned valid. *)
Lemma valid_parse_satisfies (G : list str -> Parsed -> Prop) :
  (forall lines, ensures anything (parse_lines lines) (invalid_or (G lines))) ->
  forall trace_block,
    Parser.is_valid (parse trace_block) = true ->
    G (lines_of trace_block) (parsed (parse trace_block)).
Proof.
  intros HG trace_block. rewrite parse_from_lines.
  unfold parse_block_lines, check_line_count.
  set (lines := lines_of trace_block).
  destruct (length lines <? 10).
  - rewrite bind_report. unfold bind, try_except.
    match goal with
    | |- context [parse_lines lines ?r0] =>
      pose proof (HG lines r0 I) as H;
        destruct (parse_lines lines r0) as [r1 [[]| |e]]
    end; simpl; intros Hv;
      [destruct H as [H|H]; [congruence | exact H] | congruence | discriminate].
  - unfold bind, try_except, pass, ret.
    pose proof (HG lines initial_result I) as H.
    destruct (parse_lines lines initial_result) as [r1 [[]| |e]]; simpl;
      intros Hv;
      [destruct H as [H|H]; [congruence | exact H] | congruence | discriminate].
Qed.

(** ** The states of a valid result *)

Lemma Dict_set_Forall V (P : str * V -> Prop) (k : str) (v : V) (d : Dict.dict V) :
  Forall P d -> P (k, v) -> Forall P (Dict.set k v d).
Proof.
  intros Hd Hkv. induction d as [|[k' v'] d IH]; simpl.
  - constructor; [exact Hkv | constructor].
  - inversion Hd; subst. destruct (str_eqb k' k) eqn:E.
    + apply str_eqb_eq in E. subst k'. constructor; assumption.
    + constructor; auto.
Qed.

Lemma ensures_state_line lines i :
  ensures (invalid_or canonical_states) (parse_state_line lines i)
          (invalid_or canonical_states).
Proof.
  intros r HG.
  destruct HG as [Hinv | (d & Hd & Hall)].
  - destruct (reports_parse_state_line lines i r) as (es & _ & _ & V & _).
    pose proof (ensures_parse_state_line lines i r I) as He.
    destruct (parse_state_line lines i r) as [r' [[]| |e]]; simpl in *; auto.
    left. rewrite V, Hinv. reflexivity.
  - unfold parse_state_line. cbv zeta.
    destruct (length lines <=? states_section_start + 1 + i);
      [left; reflexivity|].
    unfold item.
    destruct (nth_error lines (states_section_start + 1 + i)) as [line|];
      [|exact I].
    change (bind (ret line) ?f) with (f line). cbv beta.
    destruct (re_match Grammar.state line) as [groups|] eqn:Hm;
      [|left; reflexivity].
    apply state_groups_symbol in Hm as (c & n & p & -> & Hc).
    destruct (symbol_expected c Hc) as (en & ep & Hen & Hep).
    cbn [unpack3]. change (bind (ret ?x) ?f) with (f x). cbv beta iota.
    unfold bind at 1. unfold assign_state. rewrite Hd. cbn [assign].
    rewrite Hen.
    destruct (str_eqb n en) eqn:Hn; cbn [negb]; [|left; reflexivity].
    unfold lookup. rewrite Hep.
    change (bind (ret ep) ?f) with (f ep). cbv beta.
    destruct (str_eqb p ep) eqn:Hpp; cbn [negb]; [|left; reflexivity].
    right. eexists. split; [reflexivity|].
    apply Dict_set_Forall; [exact Hall|].
    apply str_eqb_eq in Hn, Hpp. subst en ep.
    split; assumption.
Qed.

Lemma ensures_parse_states_canonical lines :
  ensures anything (parse_states lines) (invalid_or canonical_states).
Proof.
  unfold parse_states.
  eapply ensures_bind; [ensures_walk|intros _].
  eapply ensures_bind; [unfold item; ensures_walk|intros l3].
  eapply ensures_bind; [ensures_walk|intros _].
  eapply (ensures_bind _ (invalid_or canonical_states)).
  - intros r _. right. exists []. split; [reflexivity | constructor].
  - intros _. apply ensures_for_each_inv. intros i. apply ensures_state_line.
Qed.

Lemma ensures_parse_lines_states lines :
  ensures anything (parse_lines lines) (invalid_or canonical_states).
Proof.
  unfold parse_lines.
  eapply ensures_bind; [apply ensures_parse_header|intros _].
  eapply ensures_bind; [apply ensures_parse_version|intros _].
  eapply ensures_bind; [apply ensures_parse_purpose|intros _].
  eapply ensures_bind; [apply ensures_parse_states_canonical|intros _].
  pose (G := fun o : option (Dict.dict StateInfo) =>
               exists d, o = Some d /\ Forall canonical_state d).
  change (invalid_or canonical_states)
    with (invalid_or (fun p => G (states p))).
  eapply ensures_bind;
    [apply ensures_frame;
     [apply modes_keeps_states | apply ensures_parse_modes
      | apply reports_parse_modes]|intros _].
  eapply ensures_bind;
    [apply ensures_frame;
     [apply current_mode_keeps_states | apply ensures_any_current_mode
      | apply reports_parse_current_mode]|intros _].
  eapply ensures_bind;
    [apply ensures_frame;
     [apply data_keeps_states | apply ensures_any_data
      | apply reports_parse_data]|intros _].
  apply ensures_frame;
    [apply footer_keeps_states | apply ensures_any_footer
     | apply reports_parse_footer].
Qed.

(** X3. In a result that is returned valid, every extracted state carries
    the name and the policy that the grammar fixes for its symbol. *)
Theorem valid_states_canonical (trace_block : str) :
  Parser.is_valid (parse trace_block) = true ->
  exists d,
    states (parsed (parse trace_block)) = Some d
    /\ forall symbol info,
        In (symbol, info) d ->
        Dict.get symbol Grammar.expected_states = Some (name info)
        /\ Dict.get symbol Grammar.expected_policies = Some (policy info).
Proof.
  intros Hv.
  destruct (valid_parse_satisfies (fun _ => canonical_states)
              ensures_parse_lines_states trace_block Hv) as (d & Hd & Hall).
  exists d. split; [exact Hd|]. intros symbol info Hin.
  rewrite Forall_forall in Hall. exact (Hall (symbol, info) Hin).
Qed.

Lemma valid_states_canonical_witness :
  Parser.is_valid (parse Examples.foo_block) = true
  /\ exists d,
      states (parsed (parse Examples.foo_block)) = Some d
      /\ forall symbol info,
          In (symbol, info) d ->
          Dict.get symbol Grammar.expected_states = Some (name info)
          /\ Dict.get symbol Grammar.expected_policies = Some (policy info).
Proof.
  assert (H : Parser.is_valid (parse Examples.foo_block) = true)
    by (vm_compute; reflexivity).
  exact (conj H (valid_states_canonical Examples.foo_block H)).
Defined.

(** ** The data line and the footer of a valid result *)

Lemma py_int_nonneg (s : str) (z : Z) : py_int s = inr z -> (0 <= z)%Z.
Proof.
  unfold py_int. destruct (negb _); [discriminate|].
  destruct (_ <? _); [discriminate|].
  intros H. injection H as <-. apply N2Z.is_nonneg.
Qed.

Lemma Y_or_N_text (c : char) :
  one_of "YN" c = true -> [c] = u "Y" \/ [c] = u "N".
Proof.
  unfold one_of. cbn. rewrite !orb_true_iff, !N.eqb_eq.
  intros [->|[->|H]]; [left; reflexivity | right; reflexivity | discriminate].
Qed.

Lemma Gen_or_Int_text (s : str) :
  is_Gen_or_Int s = true -> s = u "Gen" \/ s = u "Int".
Proof.
  unfold is_Gen_or_Int. rewrite orb_true_iff, !str_eqb_eq. tauto.
Qed.

Lemma ensures_parse_data_ok lines :
  ensures anything (parse_data lines)
          (invalid_or (fun p => data_ok p /\ data_line_matched lines)).
Proof.
  intros r _. unfold parse_data.
  destruct (length lines <=? data_idx); [left; reflexivity|].
  unfold item. destruct (nth_error lines data_idx) as [line|] eqn:Hn; [|exact I].
  change (bind (ret line) ?f) with (f line). cbv beta.
  destruct (re_match Grammar.DATA line) as [groups|] eqn:Hm;
    [|left; reflexivity].
  assert (Hmatched : data_line_matched lines)
    by (exists line; split; [exact Hn | rewrite Hm; discriminate]).
  apply DATA_groups in Hm as (ts & mode & c & id & -> & Hc).
  cbn [unpack4]. change (bind (ret ?x) ?f) with (f x). cbv beta iota.
  unfold int. destruct (py_int id) as [e|z] eqn:Hint; [exact I|].
  apply py_int_nonneg in Hint.
  change (bind (ret z) ?f) with (f z). cbv beta.
  rewrite (Y_or_N_char c Hc). cbn [negb].
  destruct (Datetime.strptime ts) as [dt|] eqn:Hts;
    destruct (is_Gen_or_Int mode) eqn:Hgi; cbn [negb];
      try (left; reflexivity).
  right. split; [|exact Hmatched].
  eexists. split; [reflexivity|]. cbn.
  repeat split; [apply Gen_or_Int_text, Hgi | apply Y_or_N_text, Hc
                 | rewrite Hts; discriminate | exact Hint].
Qed.

Lemma ensures_parse_footer_complete lines :
  ensures (invalid_or (fun p => data_ok p /\ data_line_matched lines))
          (parse_footer lines) (invalid_or (complete lines)).
Proof.
  intros r HG. unfold parse_footer, last_item.
  destruct (rev lines) as [|last before] eqn:Hrev; [exact I|].
  change (bind (ret last) ?f) with (f last). cbv beta.
  destruct (str_eqb last (u "[Gyroscope - End]")) eqn:Hl; cbn [negb];
    [|left; reflexivity].
  apply str_eqb_eq in Hl. subst last.
  destruct HG as [Hinv | [Hd Hm]]; [left; exact Hinv|].
  right. split; [exact Hd|]. split; [exact Hm|].
  split; [reflexivity | exists before; exact Hrev].
Qed.

Lemma ensures_parse_lines_complete lines :
  ensures anything (parse_lines lines) (invalid_or (complete lines)).
Proof.
  unfold parse_lines.
  eapply ensures_bind; [apply ensures_parse_header|intros _].
  eapply ensures_bind; [apply ensures_parse_version|intros _].
  eapply ensures_bind; [apply ensures_parse_purpose|intros _].
  eapply ensures_bind; [apply ensures_parse_states|intros _].
  eapply ensures_bind; [apply ensures_parse_modes|intros _].
  eapply ensures_bind; [apply ensures_any_current_mode|intros _].
  eapply ensures_bind; [apply ensures_parse_data_ok|intros _].
  apply ensures_parse_footer_complete.
Qed.

(** A data line is not a footer: a block whose thirteenth line matches the
    data pattern and whose last line is the footer has fourteen lines at
    least. *)
Lemma complete_lines_length (lines : list str) :
  data_line_matched lines -> footer_last lines -> 14 <= length lines.
Proof.
  intros (line & Hn & Hm) (before & Hrev).
  assert (Hlen : data_idx < length lines)
    by (apply nth_error_Some; rewrite Hn; discriminate).
  unfold data_idx, current_mode_idx, modes_section_start,
    states_section_start in *. simpl in Hlen, Hn.
  destruct (Nat.eq_dec (length lines) 13) as [E|E]; [|lia].
  exfalso. apply Hm.
  do 13 (destruct lines as [|? lines]; [discriminate|]).
  destruct lines; [|discriminate].
  simpl in Hn, Hrev. injection Hn as ->. injection Hrev as -> _.
  vm_compute. reflexivity.
Qed.

(** X4. In a result that is returned valid the data record was extracted,
    its mode is Gen or Int, its alignment is Y or N, its timestamp is a date
    that exists, and its identifier is not negative. *)
Theorem valid_data_well_formed (trace_block : str) :
  Parser.is_valid (parse trace_block) = true ->
  exists d,
    data (parsed (parse trace_block)) = Some d
    /\ (data_mode d = u "Gen" \/ data_mode d = u "Int")
    /\ (alignment d = u "Y" \/ alignment d = u "N")
    /\ Datetime.strptime (timestamp d) <> None
    /\ (0 <= trace_id d)%Z.
Proof.
  intros Hv.
  exact (proj1 (valid_parse_satisfies complete ensures_parse_lines_complete
                  trace_block Hv)).
Qed.

Lemma valid_data_well_formed_witness :
  Parser.is_valid (parse Examples.generated) = true
  /\ exists d,
      data (parsed (parse Examples.generated)) = Some d
      /\ (data_mode d = u "Gen" \/ data_mode d = u "Int")
      /\ (alignment d = u "Y" \/ alignment d = u "N")
      /\ Datetime.strptime (timestamp d) <> None
      /\ (0 <= trace_id d)%Z.
Proof.
  assert (H : Parser.is_valid (parse Examples.generated) = true)
    by (vm_compute; reflexivity).
  exact (conj H (valid_data_well_formed Examples.generated H)).
Defined.

(** X5. A result is returned valid only for a text of at least fourteen
    non-blank lines whose last one is the footer, exactly; the footer is
    then the [footer] of the parsed block. *)
Theorem valid_needs_fourteen_lines (trace_block : str) :
  Parser.is_valid (parse trace_block) = true ->
  14 <= length (lines_of trace_block)
  /\ last (lines_of trace_block) [] = u "[Gyroscope - End]"
  /\ footer (parsed (parse trace_block)) = Some (u "[Gyroscope - End]").
Proof.
  intros Hv.
  destruct (valid_parse_satisfies complete ensures_parse_lines_complete
              trace_block Hv) as (_ & Hm & Hf & Hl).
  split; [apply complete_lines_length; assumption|].
  split; [|exact Hf].
  destruct Hl as (before & Hrev).
  rewrite <- (rev_involutive (lines_of trace_block)), Hrev.
  simpl. apply last_last.
Qed.

Lemma valid_needs_fourteen_lines_witness :
  Parser.is_valid (parse Examples.generated) = true
  /\ 14 <= length (lines_of Examples.generated)
  /\ last (lines_of Examples.generated) [] = u "[Gyroscope - End]"
  /\ footer (parsed (parse Examples.generated)) = Some (u "[Gyroscope - End]").
Proof.
  assert (H : Parser.is_valid (parse Examples.generated) = true)
    by (vm_compute; reflexivity).
  exact (conj H (valid_needs_fourteen_lines Examples.generated H)).
Defined.

(** ** The keys of the states *)

Lemma always_of_keeps F (proj : Parsed -> F) (I : F -> Prop) A (m : M A) :
  keeps_field proj m -> always_field proj I m.
Proof. intros Hk r Hr. rewrite Hk. exact Hr. Qed.

Lemma always_bind F (proj : Parsed -> F) (I : F -> Prop) A B
      (m : M A) (f : A -> M B) :
  always_field proj I m -> (forall a, always_field proj I (f a)) ->
  always_field proj I (bind m f).
Proof.
  intros Hm Hf r Hr. unfold bind. specialize (Hm r Hr).
  destruct (m r) as [r' [a| |e]]; simpl in *; auto.
  apply Hf, Hm.
Qed.

Lemma always_for_each F (proj : Parsed -> F) (I : F -> Prop) A (l : list A)
      (body : A -> M unit) :
  (forall x, always_field proj I (body x)) ->
  always_field proj I (for_each l body).
Proof.
  intros Hb. induction l as [|x l IH]; simpl.
  - intros r Hr. exact Hr.
  - apply always_bind; auto.
Qed.

Lemma keys_set_in V (k : str) (v : V) (d : Dict.dict V) (x : str) :
  In x (Dict.keys (Dict.set k v d)) -> In x (Dict.keys d) \/ x = k.
Proof.
  induction d as [|[k' v'] d IH]; simpl.
  - intros [<-|[]]. right; reflexivity.
  - destruct (str_eqb k' k); simpl.
    + tauto.
    + intros [H|H]; [tauto|]. destruct (IH H); tauto.
Qed.

Lemma keys_set_NoDup V (k : str) (v : V) (d : Dict.dict V) :
  NoDup (Dict.keys d) -> NoDup (Dict.keys (Dict.set k v d)).
Proof.
  induction d as [|[k' v'] d IH]; simpl; intros H.
  - constructor; [intros [] | constructor].
  - inversion H as [|? ? Hnot Hd]; subst.
    destruct (str_eqb k' k) eqn:E; simpl.
    + constructor; assumption.
    + constructor; [|apply IH, Hd].
      intros Hin. apply keys_set_in in Hin as [Hin | ->]; [contradiction|].
      rewrite str_eqb_refl in E. discriminate.
Qed.

Lemma keys_set_Forall V (P : str -> Prop) (k : str) (v : V) (d : Dict.dict V) :
  Forall P (Dict.keys d) -> P k -> Forall P (Dict.keys (Dict.set k v d)).
Proof.
  intros Hd Hk. rewrite Forall_forall in *. intros x Hin.
  apply keys_set_in in Hin as [Hin | ->]; auto.
Qed.

Lemma symbol_in_order (c : char) :
  one_of "@&%~" c = true -> In [c] expected_order.
Proof.
  unfold one_of. intros H.
  assert (Hc : c = 64%N \/ c = 38%N \/ c = 37%N \/ c = 126%N).
  { revert H. vm_compute (u "@&%~"). cbn [existsb].
    rewrite !orb_true_iff, !N.eqb_eq.
    intros [H|[H|[H|[H|H]]]]; auto; discriminate. }
  destruct Hc as [-> | [-> | [-> | ->]]]; vm_compute; tauto.
Qed.

Lemma always_assign_state (c : char) (info : StateInfo) :
  one_of "@&%~" c = true ->
  always_field states symbol_keys (assign_state [c] info).
Proof.
  intros Hc r Hr. unfold assign_state.
  destruct (states (parsed r)) as [d|] eqn:Hd; [|simpl; rewrite Hd; exact I].
  simpl. destruct Hr as [Hn Hf]. split.
  - apply keys_set_NoDup, Hn.
  - apply keys_set_Forall; [exact Hf | apply symbol_in_order, Hc].
Qed.

Lemma always_state_line lines i :
  always_field states symbol_keys (parse_state_line lines i).
Proof.
  unfold parse_state_line. cbv zeta.
  destruct (length lines <=? states_section_start + 1 + i);
    [apply always_of_keeps; keeps_field_walk|].
  apply always_bind; [apply always_of_keeps; keeps_field_walk|intros line].
  destruct (re_match Grammar.state line) as [groups|] eqn:Hm;
    [|apply always_of_keeps; keeps_field_walk].
  apply state_groups_symbol in Hm as (c & n & p & -> & Hc).
  cbn [unpack3]. change (bind (ret ?x) ?f) with (f x). cbv beta iota.
  apply always_bind; [apply always_assign_state, Hc|intros _].
  apply always_of_keeps. keeps_field_walk.
Qed.

Lemma always_parse_states lines :
  always_field states symbol_keys (parse_states lines).
Proof.
  unfold parse_states.
  apply always_bind; [apply always_of_keeps; keeps_field_walk|intros _].
  apply always_bind; [apply always_of_keeps; keeps_field_walk|intros l3].
  apply always_bind; [apply always_of_keeps; keeps_field_walk|intros _].
  apply always_bind.
  - intros r _. simpl. split; constructor.
  - intros _. apply always_for_each. intros i. apply always_state_line.
Qed.

Lemma header_keeps_states lines : keeps_field states (parse_header lines).
Proof. unfold parse_header. keeps_field_walk. Qed.

Lemma version_keeps_states lines : keeps_field states (parse_version lines).
Proof. unfold parse_version. keeps_field_walk. Qed.

Lemma purpose_keeps_states lines : keeps_field states (parse_purpose lines).
Proof. unfold parse_purpose. keeps_field_walk. Qed.

Lemma always_parse_lines lines :
  always_field states symbol_keys (parse_lines lines).
Proof.
  unfold parse_lines.
  apply always_bind; [apply always_of_keeps, header_keeps_states|intros _].
  apply always_bind; [apply always_of_keeps, version_keeps_states|intros _].
  apply always_bind; [apply always_of_keeps, purpose_keeps_states|intros _].
  apply always_bind; [apply always_parse_states|intros _].
  apply always_bind; [apply always_of_keeps, modes_keeps_states|intros _].
  apply always_bind;
    [apply always_of_keeps, current_mode_keeps_states|intros _].
  apply always_bind; [apply always_of_keeps, data_keeps_states|intros _].
  apply always_of_keeps, footer_keeps_states.
Qed.

Lemma always_parse_block_lines lines :
  always_field states symbol_keys (parse_block_lines lines).
Proof.
  unfold parse_block_lines, check_line_count.
  apply always_bind; [apply always_of_keeps; keeps_field_walk|intros _].
  apply always_bind; [|intros _; apply always_of_keeps; keeps_field_walk].
  intros r Hr. unfold try_except.
  pose proof (always_parse_lines lines r Hr) as H.
  destruct (parse_lines lines r) as [r' [[]| |e]]; exact H.
Qed.

(** X6. Whatever the input, the keys of the extracted [states] are symbols
    of the grammar, no symbol is there twice, and so there are at most four
    states: a state line that repeats a symbol overwrites the earlier
    entry. *)
Theorem states_keys_are_distinct_symbols (trace_block : str)
        (d : Dict.dict StateInfo) :
  states (parsed (parse trace_block)) = Some d ->
  NoDup (Dict.keys d)
  /\ (forall k, In k (Dict.keys d) -> In k [u "@"; u "&"; u "%"; u "~"])
  /\ length d <= 4.
Proof.
  intros Hd.
  pose proof (always_parse_block_lines (lines_of trace_block) initial_result I)
    as H.
  rewrite <- parse_from_lines, Hd in H. destruct H as [Hn Hf].
  split; [exact Hn|]. split.
  - rewrite Forall_forall in Hf. exact Hf.
  - unfold Dict.keys in *. rewrite <- (length_map fst d).
    change 4 with (length expected_order).
    apply NoDup_incl_length; [exact Hn|].
    rewrite Forall_forall in Hf. exact Hf.
Qed.

Lemma states_keys_are_distinct_symbols_witness :
  exists d,
    states (parsed (parse Examples.generated)) = Some d
    /\ NoDup (Dict.keys d)
    /\ (forall k, In k (Dict.keys d) -> In k [u "@"; u "&"; u "%"; u "~"])
    /\ length d <= 4.
Proof.
  destruct (states (parsed (parse Examples.generated))) as [d|] eqn:Hd;
    [|vm_compute in Hd; discriminate].
  exists d. split; [reflexivity|].
  exact (states_keys_are_distinct_symbols Examples.generated d Hd).
Defined.

(** ** Blank lines and padding *)

Lemma parse_blank (trace_block : str) :
  forallb isspace trace_block = true ->
  parse_trace_block trace_block
  = inr {| Parser.is_valid := false;
           parsed := empty_parsed;
           Parser.errors := [TooFewLines 0; ParsingError IndexError];
           Parser.warnings := [] |}.
Proof.
  intros Hs. rewrite parse_run.
  change (parse_trace_block_body trace_block)
    with (parse_block_lines (lines_of trace_block)).
  rewrite lines_of_raw.
  pose proof (trimmed_nonblank_padded trace_block [] [] Hs eq_refl) as H.
  rewrite !app_nil_r in H. rewrite H.
  vm_compute. reflexivity.
Qed.

(** X8. A text of white space only (the empty text too) has no lines: the
    result carries the two errors "Too few lines, expected at least 10,
    found 0" and "Parsing error: list index out of range", in this order,
    and nothing was extracted. *)
Theorem blank_input_result (trace_block : str) :
  forallb isspace trace_block = true ->
  parse_trace_block trace_block
  = inr {| Parser.is_valid := false;
           parsed := empty_parsed;
           Parser.errors := [TooFewLines 0; ParsingError IndexError];
           Parser.warnings := [] |}.
Proof.
  intros Hs. rewrite parse_run.
  change (parse_trace_block_body trace_block)
    with (parse_block_lines (lines_of trace_block)).
  rewrite lines_of_raw.
  assert (Hnone : trimmed_nonblank (split LF trace_block) = []).
  { pose proof (trimmed_nonblank_padded trace_block [] [] Hs eq_refl) as H.
    rewrite !app_nil_r in H. exact H. }
  rewrite Hnone. vm_compute. reflexivity.
Qed.

Lemma blank_input_result_witness :
  forallb isspace [32; 10; 9; 10]%N = true
  /\ parse_trace_block [32; 10; 9; 10]%N
     = inr {| Parser.is_valid := false;
              parsed := empty_parsed;
              Parser.errors := [TooFewLines 0; ParsingError IndexError];
              Parser.warnings := [] |}.
Proof.
  assert (H : forallb isspace [32; 10; 9; 10]%N = true)
    by (vm_compute; reflexivity).
  exact (conj H (blank_input_result [32; 10; 9; 10]%N H)).
Defined.

(** X9. The parser sees a text only through its non-blank lines, each
    without the white space around it: two texts that agree there get the
    same result, whatever their indentation, trailing blanks and blank
    lines. *)
Theorem parse_ignores_padding (a b : str) :
  trimmed_nonblank (split LF a) = trimmed_nonblank (split LF b) ->
  parse_trace_block a = parse_trace_block b.
Proof.
  intros H. rewrite !parse_run.
  change (parse_trace_block_body a) with (parse_block_lines (lines_of a)).
  change (parse_trace_block_body b) with (parse_block_lines (lines_of b)).
  rewrite !lines_of_raw, H. reflexivity.
Qed.

Lemma parse_ignores_padding_witness :
  trimmed_nonblank (split LF Examples.spaced)
  = trimmed_nonblank (split LF Examples.generated)
  /\ parse_trace_block Examples.spaced = parse_trace_block Examples.generated.
Proof.
  assert (H : trimmed_nonblank (split LF Examples.spaced)
              = trimmed_nonblank (split LF Examples.generated))
    by (vm_compute; reflexivity).
  exact (conj H (parse_ignores_padding Examples.spaced Examples.generated H)).
Defined.

(** ** Generating and parsing *)

Ltac eval_generated Hdata :=
  unfold parse_block_lines;
  erewrite bind_eval by (vm_compute; reflexivity);
  unfold bind at 1, try_except; unfold parse_lines;
  do 6 (erewrite bind_eval by (vm_compute; reflexivity));
  erewrite bind_eval by (rewrite Hdata; reflexivity);
  vm_compute; reflexivity.

Lemma generated_fields (now : Datetime.datetime) (mode : str)
      (trace_id : Z) :
  Datetime.valid now = true -> (1000 <= Datetime.year now)%N ->
  mode = u "Gen" \/ mode = u "Int" ->
  (0 <= trace_id <= 9999)%Z ->
  let p := parsed (parse (generate_trace_block now mode trace_id)) in
  data p = Some {| timestamp := Datetime.strftime now; data_mode := mode;
                   alignment := u "Y"; trace_id := trace_id |}
  /\ current_mode p = Some {| scope := u "Gen/Int"; mode := mode |}
  /\ option_map (@Dict.keys StateInfo) (states p)
     = Some [u "@"; u "&"; u "%"; u "~"]
  /\ option_map (@Dict.keys ModeInfo) (modes p)
     = Some [u "Generative"; u "Integrative"].
Proof.
  intros Hv Hy Hmode Hid.
  assert (Hdata : forall r,
    parse_data (trace_block_lines now mode trace_id) r
    = assign (set_data (Some {| timestamp := Datetime.strftime now;
                                data_mode := mode;
                                alignment := u "Y";
                                trace_id := trace_id |})) r)
    by (intros r; apply parse_data_generated; assumption).
  cbv zeta. rewrite parse_from_lines.
  rewrite lines_of_generated by (destruct Hmode; subst mode; reflexivity).
  unfold trace_block_lines in *. cbv zeta in *.
  revert Hdata.
  generalize (Datetime.strftime now). generalize (format_0d 3 trace_id).
  intros fid ts Hdata.
  destruct Hmode as [Hm | Hm]; subst mode; repeat split;
    eval_generated Hdata.
Qed.

(** X10. Generating and parsing, at a time whose year has four digits, for
    Gen or Int and an identifier from 0 to 9999: the generated block parses
    as valid, and the parser gets back what the generator was given (the
    time to the minute as written, the mode in the data and in the current
    mode, the identifier) together with the alignment Y, the four states in
    canonical order and the two modes. *)
Theorem generate_parse_round_trip (now : Datetime.datetime) (mode : str)
      (trace_id : Z) :
  Datetime.valid now = true -> (1000 <= Datetime.year now)%N ->
  mode = u "Gen" \/ mode = u "Int" ->
  (0 <= trace_id <= 9999)%Z ->
  let result := parse (generate_trace_block now mode trace_id) in
  Parser.is_valid result = true
  /\ Parser.errors result = []
  /\ data (parsed result)
     = Some {| timestamp := Datetime.strftime now; data_mode := mode;
               alignment := u "Y"; trace_id := trace_id |}
  /\ Datetime.strptime (Datetime.strftime now) = Some now
  /\ current_mode (parsed result) = Some {| scope := u "Gen/Int"; mode := mode |}
  /\ option_map (@Dict.keys StateInfo) (states (parsed result))
     = Some [u "@"; u "&"; u "%"; u "~"]
  /\ option_map (@Dict.keys ModeInfo) (modes (parsed result))
     = Some [u "Generative"; u "Integrative"].
Proof.
  intros Hv Hy Hmode Hid. cbv zeta.
  pose proof (generated_parses_valid now mode trace_id Hv Hy Hmode Hid) as Hvalid.
  pose proof (generated_fields now mode trace_id Hv Hy Hmode Hid) as Hf.
  cbv zeta in Hf. destruct Hf as (Hd & Hc & Hs & Hm).
  split; [exact Hvalid|].
  split; [apply parse_valid_iff_no_error, Hvalid|].
  split; [exact Hd|].
  split; [apply strptime_strftime; assumption|].
  split; [exact Hc|]. split; [exact Hs | exact Hm].
Qed.

Lemma generate_parse_round_trip_witness :
  let result := parse (generate_trace_block Examples.noon (u "Int") 42) in
  Parser.is_valid result = true
  /\ Parser.errors result = []
  /\ data (parsed result)
     = Some {| timestamp := Datetime.strftime Examples.noon;
               data_mode := u "Int";
               alignment := u "Y"; trace_id := 42 |}
  /\ Datetime.strptime (Datetime.strftime Examples.noon) = Some Examples.noon
  /\ current_mode (parsed result)
     = Some {| scope := u "Gen/Int"; mode := u "Int" |}
  /\ option_map (@Dict.keys StateInfo) (states (parsed result))
     = Some [u "@"; u "&"; u "%"; u "~"]
  /\ option_map (@Dict.keys ModeInfo) (modes (parsed result))
     = Some [u "Generative"; u "Integrative"].
Proof.
  assert (Hv : Datetime.valid Examples.noon = true) by (vm_compute; reflexivity).
  assert (Hy : (1000 <= Datetime.year Examples.noon)%N)
    by (vm_compute; discriminate).
  assert (Hm : u "Int" = u "Gen" \/ u "Int" = u "Int") by (right; reflexivity).
  assert (Hi : (0 <= 42 <= 9999)%Z) by lia.
  exact (generate_parse_round_trip Examples.noon (u "Int") 42 Hv Hy Hm Hi).
Defined.

(** * Further properties of the batch validator *)

Lemma strip_idempotent (s : str) : strip (strip s) = strip s.
Proof.
  destruct (lstrip_decomp s) as (w1 & H1 & E1).
  destruct (rstrip_decomp (lstrip s)) as (w2 & H2 & E2).
  fold (strip s) in E2.
  rewrite <- (strip_app_space_r (strip s) w2 H2), <- E2.
  rewrite <- (strip_app_space_l w1 (lstrip s) H1), <- E1. reflexivity.
Qed.

Lemma split_from_space_pieces (sep : str) (w : str) :
  forallb isspace w = true ->
  forall skip, forallb (forallb isspace) (split_from sep skip w) = true.
Proof.
  induction w as [|c w IH]; intros H skip; [reflexivity|].
  simpl in H. apply andb_true_iff in H as [Hc Hw]. specialize (IH Hw).
  cbn [split_from]. destruct skip as [|n]; [|apply IH].
  destruct (startswith sep (c :: w)); [simpl; apply IH|].
  pose proof (IH 0) as H0.
  destruct (split_from sep 0 w) as [|h t]; simpl in *; rewrite Hc;
    [reflexivity | exact H0].
Qed.

Lemma flat_map_nil A B (f : A -> list B) (l : list A) :
  (forall x, In x l -> f x = []) -> flat_map f l = [].
Proof.
  induction l as [|x l IH]; simpl; intros H; [reflexivity|].
  rewrite (H x (or_introl eq_refl)). apply IH. auto.
Qed.

(** X11. A file that holds white space only (an empty file too) gets
    exactly one result, from the fallback that validates the whole content:
    invalid, with the two errors of a text without lines and a line count of
    0. *)
Theorem blank_file_one_invalid_result (filepath content : str) :
  forallb isspace content = true ->
  Batch.validate_from_file filepath (Batch.Content content)
  = [ {| Batch.source := u "file:" ++ filepath;
         Batch.is_valid := false;
         Batch.errors := [TooFewLines 0; ParsingError IndexError];
         Batch.warnings := [];
         Batch.parsed_data := Some empty_parsed;
         Batch.line_count := Some 0 |} ].
Proof.
  intros Hs. unfold Batch.validate_from_file.
  rewrite flat_map_nil.
  - unfold Batch.validate_trace_block, parse.
    rewrite (parse_blank content Hs), (strip_space content Hs).
    reflexivity.
  - intros [i block] Hin. apply in_combine_r in Hin.
    pose proof (split_from_space_pieces (u (LF ++ LF)) content Hs 0) as Hp.
    rewrite forallb_forall in Hp. fold (split (LF ++ LF) content) in Hp.
    rewrite (strip_space block (Hp block Hin)). reflexivity.
Qed.

Lemma blank_file_one_invalid_result_witness :
  forallb isspace [10; 10; 32; 10]%N = true
  /\ Batch.validate_from_file (u "empty.txt") (Batch.Content [10; 10; 32; 10]%N)
     = [ {| Batch.source := u "file:" ++ u "empty.txt";
            Batch.is_valid := false;
            Batch.errors := [TooFewLines 0; ParsingError IndexError];
            Batch.warnings := [];
            Batch.parsed_data := Some empty_parsed;
            Batch.line_count := Some 0 |} ].
Proof.
  assert (H : forallb isspace [10; 10; 32; 10]%N = true)
    by (vm_compute; reflexivity).
  exact (conj H (blank_file_one_invalid_result (u "empty.txt")
                   [10; 10; 32; 10]%N H)).
Defined.

Lemma flat_map_length_ge A B (f : A -> list B) (l : list A) :
  (forall x, f x <> []) -> length l <= length (flat_map f l).
Proof.
  intros Hf. induction l as [|x l IH]; simpl; [lia|].
  rewrite length_app. specialize (Hf x).
  destruct (f x); [contradiction | simpl; lia].
Qed.

(** X12. [validate_batch_from_files] returns at least one result for every
    path it is given, so at least as many results as paths, and appends
    them to the results of the validator; a path whose file is not found
    contributes an invalid result under its own name with the error "File
    not found". *)
Theorem every_file_gets_a_result (self : Batch.BatchValidator)
        (files : list (str * Batch.read_outcome)) :
  let (self', returned) := Batch.validate_batch_from_files self files in
  length files <= length returned
  /\ Batch.results self' = Batch.results self ++ returned
  /\ forall filepath,
      In (filepath, Batch.NotFound) files ->
      In {| Batch.source := filepath; Batch.is_valid := false;
            Batch.errors := [FileNotFound filepath]; Batch.warnings := [];
            Batch.parsed_data := None; Batch.line_count := None |}
         returned.
Proof.
  unfold Batch.validate_batch_from_files. split; [|split].
  - apply flat_map_length_ge. intros [filepath file].
    apply validate_from_file_not_empty.
  - reflexivity.
  - intros filepath Hin. apply in_flat_map.
    exists (filepath, Batch.NotFound). split; [exact Hin|].
    left. reflexivity.
Qed.

Lemma in_block_results (tag : nat -> str) (blocks : list (nat * str))
      (r : Batch.SegmentResult) :
  In r (flat_map (fun entry : nat * str =>
                    let (i, block) := entry in
                    let block := strip block in
                    if truthy block && (10 <=? length (split LF block))
                    then [Batch.validate_trace_block block (tag i)]
                    else [])
                 blocks) ->
  exists i block,
    r = Batch.validate_trace_block (strip block) (tag i)
    /\ truthy (strip block) = true
    /\ 10 <= length (split LF (strip block)).
Proof.
  intros Hin. apply in_flat_map in Hin as ([i block] & _ & Hin).
  cbv zeta in Hin.
  destruct (truthy (strip block)) eqn:Ht; [|destruct Hin].
  destruct (10 <=? length (split LF (strip block))) eqn:Hl; [|destruct Hin].
  destruct Hin as [<- | []]. exists i, block.
  split; [reflexivity|]. split; [exact Ht|].
  apply Nat.leb_le, Hl.
Qed.

(** X13. Every result that [validate_batch_from_stdin] returns is for a
    block of at least ten lines, and its line count says so: the blocks
    between blank lines that are shorter are passed over without a
    result. *)
Theorem stdin_results_have_ten_lines (self : Batch.BatchValidator)
        (content : str) (r : Batch.SegmentResult) :
  In r (snd (Batch.validate_batch_from_stdin self content)) ->
  exists n, Batch.line_count r = Some n /\ 10 <= n.
Proof.
  unfold Batch.validate_batch_from_stdin. cbn [snd]. intros Hin.
  apply (in_block_results
           (fun i => u "stdin:block_" ++ Batch.str_of_nat (i + 1))) in Hin
    as (i & block & -> & Ht & Hl).
  unfold Batch.validate_trace_block. cbn [Batch.line_count].
  rewrite strip_idempotent, Ht. eauto.
Qed.

Lemma stdin_results_have_ten_lines_witness :
  let r := Batch.validate_trace_block Examples.generated (u "stdin:block_1") in
  In r (snd (Batch.validate_batch_from_stdin {| Batch.results := [] |}
               Examples.generated))
  /\ exists n, Batch.line_count r = Some n /\ 10 <= n.
Proof.
  intros r.
  assert (Hr : In r (snd (Batch.validate_batch_from_stdin
                            {| Batch.results := [] |} Examples.generated)))
    by (vm_compute; left; reflexivity).
  exact (conj Hr (stdin_results_have_ten_lines {| Batch.results := [] |}
                    Examples.generated r Hr)).
Defined.

Lemma map_flat_map_ext A B C (g : B -> C) (f1 f2 : A -> list B) (l : list A) :
  (forall x, map g (f1 x) = map g (f2 x)) ->
  map g (flat_map f1 l) = map g (flat_map f2 l).
Proof.
  intros H. induction l as [|x l IH]; simpl; [reflexivity|].
  rewrite !map_app, H, IH. reflexivity.
Qed.

Lemma verdict_block_results (tag1 tag2 : nat -> str) (blocks : list (nat * str)) :
  map Batch.verdict
      (flat_map (fun entry : nat * str =>
                   let (i, block) := entry in
                   let block := strip block in
                   if truthy block && (10 <=? length (split LF block))
                   then [Batch.validate_trace_block block (tag1 i)]
                   else [])
                blocks)
  = map Batch.verdict
        (flat_map (fun entry : nat * str =>
                     let (i, block) := entry in
                     let block := strip block in
                     if truthy block && (10 <=? length (split LF block))
                     then [Batch.validate_trace_block block (tag2 i)]
                     else [])
                  blocks).
Proof.
  apply map_flat_map_ext. intros [i block]. cbv zeta.
  destruct (truthy (strip block) && (10 <=? length (split LF (strip block))));
    reflexivity.
Qed.

(** X14. When the content has a block of at least ten lines,
    [validate_from_file] and [validate_batch_from_stdin] give the same
    results for it, block by block, up to the [source] they name: the two
    differ only where no block qualifies and the file gets its fallback. *)
Theorem file_and_stdin_agree (self : Batch.BatchValidator)
        (filepath content : str) :
  snd (Batch.validate_batch_from_stdin self content) <> [] ->
  map Batch.verdict (Batch.validate_from_file filepath (Batch.Content content))
  = map Batch.verdict (snd (Batch.validate_batch_from_stdin self content)).
Proof.
  unfold Batch.validate_batch_from_stdin, Batch.validate_from_file.
  cbn [snd]. cbv zeta. intros Hne.
  pose proof (verdict_block_results
                (fun i => u "file:" ++ filepath ++ u ":block_"
                            ++ Batch.str_of_nat (i + 1))
                (fun i => u "stdin:block_" ++ Batch.str_of_nat (i + 1))
                (Batch.enumerate (split (LF ++ LF) content))) as H.
  cbv beta in H.
  match type of H with
  | map _ ?file_results = map _ ?stdin_results =>
    change (match file_results with
            | [] => [Batch.validate_trace_block content (u "file:" ++ filepath)]
            | _ :: _ => file_results
            end) with
      (match file_results with
       | [] => [Batch.validate_trace_block content (u "file:" ++ filepath)]
       | _ :: _ => file_results
       end);
    destruct file_results as [|r rs] eqn:Hfile
  end.
  - symmetry in H. apply map_eq_nil in H. contradiction.
  - exact H.
Qed.

Lemma file_and_stdin_agree_witness :
  snd (Batch.validate_batch_from_stdin {| Batch.results := [] |}
         Examples.generated) <> []
  /\ map Batch.verdict
       (Batch.validate_from_file (u "a.txt") (Batch.Content Examples.generated))
     = map Batch.verdict
         (snd (Batch.validate_batch_from_stdin {| Batch.results := [] |}
                 Examples.generated)).
Proof.
  assert (H : snd (Batch.validate_batch_from_stdin {| Batch.results := [] |}
                     Examples.generated) <> [])
    by (vm_compute; discriminate).
  exact (conj H (file_and_stdin_agree {| Batch.results := [] |} (u "a.txt")
                   Examples.generated H)).
Defined.

Lemma valid_lines_length (trace_block : str) :
  Parser.is_valid (parse trace_block) = true ->
  14 <= length (lines_of trace_block).
Proof.
  intros Hv.
  destruct (valid_parse_satisfies complete ensures_parse_lines_complete
              trace_block Hv) as (_ & Hm & _ & Hl).
  apply complete_lines_length; assumption.
Qed.

(** X15. The [line_count] of a result counts the lines of the stripped
    content, blank ones included, so it is never below the number of lines
    the parser worked with (the one its "Too few lines" error reports); a
    result that is valid has a line count of at least fourteen. *)
Theorem line_count_bounds (content source : str) :
  exists n,
    Batch.line_count (Batch.validate_trace_block content source) = Some n
    /\ length (lines_of content) <= n
    /\ (Batch.is_valid (Batch.validate_trace_block content source) = true ->
        14 <= n).
Proof.
  unfold Batch.validate_trace_block. cbn [Batch.line_count Batch.is_valid].
  assert (Hle : length (lines_of content)
                <= if truthy (strip content)
                   then length (split LF (strip content)) else 0).
  { unfold lines_of. destruct (strip content) as [|c s] eqn:E.
    - simpl. lia.
    - cbn [truthy]. rewrite length_map. apply filter_length_le. }
  eexists. split; [reflexivity|]. split; [exact Hle|].
  intros Hv. apply andb_true_iff in Hv as [Hv _].
  apply valid_lines_length in Hv. lia.
Qed.

(** ** The command line *)

Lemma main_files_results (self : Batch.BatchValidator)
      (files : list (str * Batch.read_outcome)) :
  files <> [] ->
  Batch.results (fst (Batch.validate_batch_from_files self files)) <> [].
Proof.
  intros Hne. unfold Batch.validate_batch_from_files. cbn [fst Batch.results].
  destruct files as [|[filepath file] files]; [contradiction|].
  cbn [flat_map].
  pose proof (validate_from_file_not_empty filepath file) as H.
  destruct (Batch.validate_from_file filepath file); [contradiction|].
  destruct (Batch.results self); discriminate.
Qed.

(** X16. [main] ends with an unbound local variable, instead of the
    summary, exactly when it was given a command and no result was
    collected: for "--help", for "--report" (which reports on a validator
    that has validated nothing), and for "--stdin" when no block of the
    input has ten lines.  Without arguments it returns after the usage, and
    with file arguments it always reaches the summary, since every file gets
    a result. *)
Theorem main_raises_without_results (argv : list str) (stdin : str)
        (read : str -> Batch.read_outcome) :
  snd (Batch.main argv stdin read)
  = Some (Batch.UnboundLocalError (u "valid_count"))
  <-> 2 <= length argv
      /\ (nth 1 argv [] = u "--help"
          \/ nth 1 argv [] = u "--report"
          \/ (nth 1 argv [] = u "--stdin"
              /\ snd (Batch.validate_batch_from_stdin
                        {| Batch.results := [] |} stdin) = [])).
Proof.
  unfold Batch.main. cbv zeta.
  destruct (length argv <? 2) eqn:Hlen.
  { apply Nat.ltb_lt in Hlen. cbn [snd]. split; [discriminate|].
    intros [H _]. lia. }
  apply Nat.ltb_ge in Hlen.
  destruct (str_eqb (nth 1 argv []) (u "--stdin")) eqn:Estdin.
  { apply str_eqb_eq in Estdin.
    unfold Batch.validate_batch_from_stdin. cbn [Batch.results app snd].
    match goal with
    | |- context [flat_map ?f ?l] => destruct (flat_map f l) as [|r rs]
    end; cbn [snd]; split.
    - intros _. split; [exact Hlen|]. right. right. split; [exact Estdin|].
      reflexivity.
    - reflexivity.
    - discriminate.
    - intros [_ [H | [H | [_ H]]]];
        [rewrite Estdin in H; discriminate
        | rewrite Estdin in H; discriminate | discriminate]. }
  destruct (str_eqb (nth 1 argv []) (u "--report")) eqn:Ereport.
  { apply str_eqb_eq in Ereport. cbn [Batch.results snd]. split.
    - intros _. split; [exact Hlen|]. right. left. exact Ereport.
    - reflexivity. }
  destruct (str_eqb (nth 1 argv []) (u "--help")) eqn:Ehelp.
  { apply str_eqb_eq in Ehelp. cbn [Batch.results snd]. split.
    - intros _. split; [exact Hlen|]. left. exact Ehelp.
    - reflexivity. }
  assert (Hfiles : map (fun filepath => (filepath, read filepath)) (tl argv)
                   <> []).
  { destruct argv as [|a0 [|a1 rest]]; simpl in Hlen; try lia. discriminate. }
  pose proof (main_files_results {| Batch.results := [] |} _ Hfiles) as Hres.
  destruct (Batch.validate_batch_from_files _ _) as [validator results].
  cbn [fst] in Hres.
  destruct (Batch.results validator) as [|r rs]; [contradiction|].
  cbn [snd]. split; [discriminate|].
  intros [_ [H | [H | [H _]]]]; rewrite H in *;
    rewrite str_eqb_refl in *; discriminate.
Qed.

(** * What the parser can report, and what it can raise *)

Section Raises.
Variable J : Parsed -> Prop.
Variable Q : exception -> Prop.

Lemma raises_ret A (a : A) : raises J Q (ret a).
Proof. intros r H. exact H. Qed.

Lemma raises_return A : raises J Q (@return_result A).
Proof. intros r H. exact H. Qed.

Lemma raises_raise A e : Q e -> raises J Q (@raise A e).
Proof. intros He r H. exact He. Qed.

Lemma raises_report e : raises J Q (report e).
Proof. intros r H. exact H. Qed.

Lemma raises_assign f : (forall p, J p -> J (f p)) -> raises J Q (assign f).
Proof. intros Hf r H. apply Hf, H. Qed.

Lemma raises_bind A B (m : M A) (f : A -> M B) :
  raises J Q m -> (forall a, raises J Q (f a)) -> raises J Q (bind m f).
Proof.
  intros Hm Hf r H. unfold bind. specialize (Hm r H).
  destruct (m r) as [r' [a| |e]]; simpl in *; auto.
  apply Hf, Hm.
Qed.

Lemma raises_bind_ret A B (a : A) (f : A -> M B) :
  raises J Q (f a) -> raises J Q (bind (ret a) f).
Proof. intros H r. exact (H r). Qed.

Lemma raises_report_return A B e (f : A -> M B) :
  raises J Q (bind (report e ;; return_result) f).
Proof. intros r H. exact H. Qed.

Lemma raises_for_each A (l : list A) (body : A -> M unit) :
  (forall x, raises J Q (body x)) -> raises J Q (for_each l body).
Proof.
  intros Hb. induction l as [|x l IH]; simpl.
  - apply raises_ret.
  - apply raises_bind; auto.
Qed.

Lemma raises_item lines i :
  (length lines <= i -> Q IndexError) -> raises J Q (item lines i).
Proof.
  intros Hq. unfold item. destruct (nth_error lines i) eqn:E.
  - apply raises_ret.
  - apply raises_raise, Hq, nth_error_None, E.
Qed.

Lemma raises_last_item lines :
  (lines = [] -> Q IndexError) -> raises J Q (last_item lines).
Proof.
  intros Hq. unfold last_item. destruct (rev lines) eqn:E.
  - apply raises_raise, Hq.
    rewrite <- (rev_involutive lines), E. reflexivity.
  - apply raises_ret.
Qed.

Lemma raises_if A (b : bool) (m1 m2 : M A) :
  raises J Q m1 -> raises J Q m2 -> raises J Q (if b then m1 else m2).
Proof. destruct b; auto. Qed.
End Raises.

(** A statement that keeps [J'] once some assignment has made it true *)
Lemma raises_after_assign (J' : Parsed -> Prop) Q f (m : M unit) :
  (forall p, J' (f p)) -> raises J' Q m ->
  raises any_parsed Q (assign f ;; m).
Proof.
  intros Hf Hm r _. unfold bind, assign.
  specialize (Hm {| Parser.is_valid := Parser.is_valid r;
                    parsed := f (parsed r);
                    Parser.errors := Parser.errors r;
                    Parser.warnings := Parser.warnings r |} (Hf _)).
  destruct (snd (m _)); [exact I | exact I | exact Hm].
Qed.

Lemma raises_assign_state Q symbol info :
  raises has_states Q (assign_state symbol info).
Proof.
  intros r H. unfold assign_state. unfold has_states in H.
  destruct (states (parsed r)); [|contradiction].
  simpl. discriminate.
Qed.

Lemma raises_assign_mode Q mode_type info :
  raises has_modes Q (assign_mode mode_type info).
Proof.
  intros r H. unfold assign_mode. unfold has_modes in H.
  destruct (modes (parsed r)); [|contradiction].
  simpl. discriminate.
Qed.

(** Closes the side conditions on the index of a line: either the test
    that guards the access has excluded it, or the lines are fewer than
    three. *)
Ltac index_side :=
  intros;
  repeat match goal with
         | H : (_ <=? _) = false |- _ => apply Nat.leb_gt in H
         end;
  try match goal with
      | H : _ = [] |- _ => rewrite H
      end;
  unfold data_idx, current_mode_idx, modes_section_start,
    states_section_start in *;
  simpl in *; lia.

Ltac raises_walk :=
  repeat first
    [ apply raises_ret | apply raises_return | apply raises_report
    | apply raises_assign; intros; exact I
    | apply raises_if
    | apply raises_bind; [|intros ?]
    | match goal with
      | |- raises _ _ (match ?x with _ => _ end) => destruct x
      end
    | progress unfold pass ].

Lemma mode_groups_three (line : str) (groups : list str) :
  re_match Grammar.mode line = Some groups ->
  exists mode_type mode_short path, groups = [mode_type; mode_short; path].
Proof.
  intros H. apply re_match_sound in H as (w & rest & -> & H).
  unfold Grammar.mode in H. split_seq H. open_groups.
  repeat match goal with
         | H : Matches (Plus _) _ _ |- _ =>
           apply Matches_Plus in H as (-> & ? & ?)
         end.
  drop_groupless. simpl. eauto 10.
Qed.

Lemma DATA_groups_digits (line : str) (groups : list str) :
  re_match Grammar.DATA line = Some groups ->
  exists timestamp mode c trace_id,
    groups = [timestamp; mode; [c]; trace_id] /\ one_of "YN" c = true
    /\ trace_id <> [] /\ forallb isdecimal trace_id = true.
Proof.
  intros H. apply re_match_sound in H as (w & rest & -> & H).
  unfold Grammar.DATA in H. split_seq H. open_groups.
  repeat match goal with
         | H : Matches (Plus isdecimal) _ _ |- _ =>
           apply Matches_Plus in H as (-> & ? & ?)
         end.
  drop_groupless.
  match goal with
  | H : Matches (Cls (one_of "YN")) ?w [] |- _ =>
    apply Matches_Cls in H as (c & -> & _ & Hc)
  end.
  simpl. eauto 10.
Qed.

Section Possible.
Variable lines : list str.

Lemma raises_state_line i :
  raises has_states (possible_exception lines) (parse_state_line lines i).
Proof.
  unfold parse_state_line. cbv zeta.
  destruct (length lines <=? states_section_start + 1 + i) eqn:Hg;
    [apply raises_report|].
  apply raises_bind; [apply raises_item; index_side|intros line].
  destruct (re_match Grammar.state line) as [groups|] eqn:Hm;
    [|apply raises_report].
  apply state_groups_symbol in Hm as (c & n & p & -> & Hc).
  destruct (symbol_expected c Hc) as (en & ep & Hen & Hep).
  cbn [unpack3]. apply raises_bind_ret.
  apply raises_bind; [apply raises_assign_state|intros _].
  rewrite Hen. apply raises_if; [apply raises_report|].
  unfold lookup. rewrite Hep. apply raises_bind_ret.
  apply raises_if; [apply raises_report | apply raises_ret].
Qed.

Lemma raises_mode_line i :
  raises has_modes (possible_exception lines) (parse_mode_line lines i).
Proof.
  unfold parse_mode_line. cbv zeta.
  destruct (length lines <=? modes_section_start + 1 + i) eqn:Hg;
    [apply raises_report|].
  apply raises_bind; [apply raises_item; index_side|intros line].
  destruct (re_match Grammar.mode line) as [groups|] eqn:Hm;
    [|apply raises_report].
  apply mode_groups_three in Hm as (a & b & c & ->).
  cbn [unpack3]. apply raises_bind_ret. apply raises_assign_mode.
Qed.

Lemma raises_current_mode :
  raises any_parsed (possible_exception lines) (parse_current_mode lines).
Proof.
  unfold parse_current_mode.
  destruct (length lines <=? current_mode_idx) eqn:Hg; [apply raises_report|].
  apply raises_bind; [apply raises_item; index_side|intros line].
  destruct (re_match Grammar.current_mode line) as [groups|] eqn:Hm;
    [|apply raises_report].
  apply current_mode_groups_letters in Hm as (a & b & -> & _).
  cbn [unpack2]. apply raises_bind_ret. apply raises_assign. intros; exact I.
Qed.

Lemma raises_data :
  raises any_parsed (possible_exception lines) (parse_data lines).
Proof.
  unfold parse_data.
  destruct (length lines <=? data_idx) eqn:Hg; [apply raises_report|].
  apply raises_bind; [apply raises_item; index_side|intros line].
  destruct (re_match Grammar.DATA line) as [groups|] eqn:Hm;
    [|apply raises_report].
  apply DATA_groups_digits in Hm as (ts & mode & c & id & -> & _ & Hne & Hd).
  cbn [unpack4]. apply raises_bind_ret.
  apply raises_bind.
  - unfold int, py_int. rewrite Hd.
    destruct id as [|d id']; [contradiction|]. cbn [truthy andb negb].
    destruct (int_max_str_digits <? length (d :: id')) eqn:Hlen.
    + apply raises_raise. apply Nat.ltb_lt in Hlen. exact Hlen.
    + apply raises_ret.
  - intros z. raises_walk.
Qed.

Lemma raises_header :
  raises any_parsed (possible_exception lines) (parse_header lines).
Proof.
  unfold parse_header.
  apply raises_bind; [apply raises_item; index_side|intros l0]. raises_walk.
Qed.

Lemma raises_version :
  raises any_parsed (possible_exception lines) (parse_version lines).
Proof.
  unfold parse_version.
  apply raises_bind; [apply raises_item; index_side|intros l1]. raises_walk.
Qed.

Lemma raises_purpose :
  raises any_parsed (possible_exception lines) (parse_purpose lines).
Proof.
  unfold parse_purpose.
  apply raises_bind; [apply raises_item; index_side|intros l2]. raises_walk.
Qed.

Lemma raises_footer :
  raises any_parsed (possible_exception lines) (parse_footer lines).
Proof.
  unfold parse_footer.
  apply raises_bind; [apply raises_last_item; index_side|intros last].
  raises_walk.
Qed.

Lemma raises_states :
  raises any_parsed (possible_exception lines) (parse_states lines).
Proof.
  unfold parse_states, for_range.
  destruct (length lines <=? states_section_start) eqn:Hg;
    [apply raises_report_return|].
  apply raises_bind; [apply raises_ret|intros _].
  apply raises_bind; [apply raises_item; index_side|intros l3].
  destruct (negb (startswith (u "[States") l3)); [apply raises_report_return|].
  apply raises_bind; [apply raises_ret|intros _].
  apply (raises_after_assign has_states); [intros p; discriminate|].
  apply raises_for_each. intros i. apply raises_state_line.
Qed.

Lemma raises_modes :
  raises any_parsed (possible_exception lines) (parse_modes lines).
Proof.
  unfold parse_modes, for_range.
  destruct (length lines <=? modes_section_start) eqn:Hg;
    [apply raises_report_return|].
  apply raises_bind; [apply raises_ret|intros _].
  apply raises_bind; [apply raises_item; index_side|intros l8].
  destruct (negb (contains (u "[Modes") l8)); [apply raises_report_return|].
  apply raises_bind; [apply raises_ret|intros _].
  apply (raises_after_assign has_modes); [intros p; discriminate|].
  apply raises_for_each. intros i. apply raises_mode_line.
Qed.

Lemma raises_parse_lines :
  raises any_parsed (possible_exception lines) (parse_lines lines).
Proof.
  unfold parse_lines.
  apply raises_bind; [apply raises_header|intros _].
  apply raises_bind; [apply raises_version|intros _].
  apply raises_bind; [apply raises_purpose|intros _].
  apply raises_bind; [apply raises_states|intros _].
  apply raises_bind; [apply raises_modes|intros _].
  apply raises_bind; [apply raises_current_mode|intros _].
  apply raises_bind; [apply raises_data|intros _].
  apply raises_footer.
Qed.

Lemma possible_state_line i :
  reports (possible_error lines) (parse_state_line lines i).
Proof.
  unfold parse_state_line. cbv zeta.
  destruct (length lines <=? states_section_start + 1 + i);
    [apply reports_report; exact I|].
  apply reports_bind; [reports_walk ltac:(exact I)|intros line].
  destruct (re_match Grammar.state line) as [groups|] eqn:Hm;
    [|apply reports_report; exact I].
  apply state_groups_symbol in Hm as (c & n & p & -> & Hc).
  destruct (symbol_expected c Hc) as (en & ep & Hen & Hep).
  cbn [unpack3]. apply reports_bind_ret.
  apply reports_bind; [apply reports_assign_state|intros _].
  rewrite Hen. reports_walk ltac:(exact I).
Qed.

Lemma possible_mode_line i :
  reports (possible_error lines) (parse_mode_line lines i).
Proof. unfold parse_mode_line. reports_walk ltac:(exact I). Qed.

Lemma possible_current_mode :
  reports (possible_error lines) (parse_current_mode lines).
Proof. unfold parse_current_mode. reports_walk ltac:(exact I). Qed.

Lemma possible_data : reports (possible_error lines) (parse_data lines).
Proof.
  unfold parse_data.
  destruct (length lines <=? data_idx); [reports_walk ltac:(exact I)|].
  apply reports_bind; [reports_walk ltac:(exact I)|intros data_line].
  destruct (re_match Grammar.DATA data_line) as [groups|] eqn:Hm;
    [|reports_walk ltac:(exact I)].
  apply DATA_groups in Hm as (timestamp & mode & c & trace_id & -> & Hc).
  apply Y_or_N_char in Hc.
  cbn [unpack4]. apply reports_bind_ret. rewrite Hc. cbn [negb].
  reports_walk ltac:(exact I).
Qed.

Lemma possible_header : reports (possible_error lines) (parse_header lines).
Proof. unfold parse_header. reports_walk ltac:(exact I). Qed.

Lemma possible_version : reports (possible_error lines) (parse_version lines).
Proof. unfold parse_version. reports_walk ltac:(exact I). Qed.

Lemma possible_purpose : reports (possible_error lines) (parse_purpose lines).
Proof. unfold parse_purpose. reports_walk ltac:(exact I). Qed.

Lemma possible_footer : reports (possible_error lines) (parse_footer lines).
Proof. unfold parse_footer. reports_walk ltac:(exact I). Qed.

Lemma possible_states : reports (possible_error lines) (parse_states lines).
Proof.
  unfold parse_states, for_range.
  repeat first
    [ apply possible_state_line | progress reports_walk ltac:(exact I) ].
Qed.

Lemma possible_modes : reports (possible_error lines) (parse_modes lines).
Proof.
  unfold parse_modes, for_range.
  repeat first
    [ apply possible_mode_line | progress reports_walk ltac:(exact I) ].
Qed.

Lemma possible_parse_lines :
  reports (possible_error lines) (parse_lines lines).
Proof.
  unfold parse_lines.
  apply reports_bind; [apply possible_header|intros _].
  apply reports_bind; [apply possible_version|intros _].
  apply reports_bind; [apply possible_purpose|intros _].
  apply reports_bind; [apply possible_states|intros _].
  apply reports_bind; [apply possible_modes|intros _].
  apply reports_bind; [apply possible_current_mode|intros _].
  apply reports_bind; [apply possible_data|intros _].
  apply possible_footer.
Qed.

Lemma reports_try_raises P Q A (body : M A) handler :
  reports P body -> raises any_parsed Q body ->
  (forall e, Q e -> reports P (handler e)) ->
  reports P (try_except body handler).
Proof.
  intros Hb Hr Hh r. unfold try_except.
  specialize (Hb r). specialize (Hr r I).
  destruct (body r) as [r' [a| |e]]; simpl in *; auto.
  eapply effect_trans; [exact Hb | apply Hh, Hr].
Qed.

Lemma possible_block_lines :
  reports (possible_error lines) (parse_block_lines lines).
Proof.
  unfold parse_block_lines, check_line_count.
  apply reports_bind.
  - destruct (length lines <? 10) eqn:Hlen; [|apply reports_ret].
    apply reports_report. split; [reflexivity | apply Nat.ltb_lt, Hlen].
  - intros _. apply reports_bind; [|intros _; apply reports_return].
    apply (reports_try_raises _ (possible_exception lines));
      [apply possible_parse_lines | apply raises_parse_lines|].
    intros e He. apply reports_report. exact He.
Qed.
End Possible.

Lemma parse_possible_errors (trace_block : str) :
  Forall (possible_error (lines_of trace_block))
         (Parser.errors (parse trace_block)).
Proof.
  rewrite parse_from_lines.
  destruct (possible_block_lines (lines_of trace_block) initial_result)
    as (es & F & E & _ & _).
  rewrite E. exact F.
Qed.

Lemma header_normal (a : str) (rest : list str) (r : ParseResult) :
  exists r', parse_header (a :: rest) r = (r', Normal tt).
Proof.
  unfold parse_header, item. cbn [nth_error].
  unfold bind, ret, pass, report, assign, append_error, set_invalid, bind.
  destruct (negb (matches Grammar.HEADER a)); eexists; reflexivity.
Qed.

Lemma version_normal (a b : str) (rest : list str) (r : ParseResult) :
  exists r', parse_version (a :: b :: rest) r = (r', Normal tt).
Proof.
  unfold parse_version, item. cbn [nth_error].
  unfold bind, ret, pass, report, assign, append_error, set_invalid, bind.
  destruct (negb (matches Grammar.VERSION b)); eexists; reflexivity.
Qed.

Lemma short_raises (lines : list str) (r : ParseResult) :
  length lines < 3 -> snd (parse_lines lines r) = Raised IndexError.
Proof.
  intros Hlen. unfold parse_lines.
  destruct lines as [|a [|b [|c rest]]]; [| | |simpl in Hlen; lia].
  - reflexivity.
  - destruct (header_normal a [] r) as [r1 E1].
    rewrite (bind_eval _ _ _ _ _ _ _ E1). reflexivity.
  - destruct (header_normal a [b] r) as [r1 E1].
    rewrite (bind_eval _ _ _ _ _ _ _ E1).
    destruct (version_normal a b [] r1) as [r2 E2].
    rewrite (bind_eval _ _ _ _ _ _ _ E2). reflexivity.
Qed.

Lemma short_text_index_error (lines : list str) (r : ParseResult) :
  length lines < 3 ->
  In (ParsingError IndexError) (Parser.errors (fst (parse_block_lines lines r))).
Proof.
  intros Hlen. unfold parse_block_lines.
  unfold bind at 1.
  destruct (check_line_count lines r) as [r1 [[]| |e]] eqn:Hc.
  - unfold bind, try_except.
    pose proof (short_raises lines r1 Hlen) as Hr.
    destruct (parse_lines lines r1) as [r2 c]. simpl in Hr. subst c.
    simpl. apply in_or_app. right. left. reflexivity.
  - unfold check_line_count in Hc.
    destruct (length lines <? 10); discriminate.
  - unfold check_line_count in Hc.
    destruct (length lines <? 10); discriminate.
Qed.

(** X17. The error "Unknown state symbol" is never reported: a state line
    is looked at only after it has matched the state pattern, which admits
    the four symbols of [expected_states] and no other, so the branch that
    reports it cannot be reached. *)
Theorem unknown_state_symbol_unreachable (trace_block : str) (symbol : str) :
  ~ In (UnknownStateSymbol symbol) (Parser.errors (parse trace_block)).
Proof.
  intros Hin.
  pose proof (parse_possible_errors trace_block) as F.
  rewrite Forall_forall in F. exact (F _ Hin).
Qed.

(** X18. What reaches the catch-all [except] branch.  "Parsing error: list
    index out of range" is reported exactly for a text with fewer than three
    non-blank lines; the only other exception the [try] block can raise is
    that of [int] on an identifier of more than 4300 digits.  No key is
    missing, no unpacking fails, and no identifier is refused as a literal,
    whatever the text. *)
Theorem parsing_error_causes (trace_block : str) :
  (In (ParsingError IndexError) (Parser.errors (parse trace_block))
   <-> length (lines_of trace_block) < 3)
  /\ forall e,
      In (ParsingError e) (Parser.errors (parse trace_block)) ->
      e = IndexError
      \/ exists n, e = ValueError_int_digits n /\ int_max_str_digits < n.
Proof.
  pose proof (parse_possible_errors trace_block) as F.
  rewrite Forall_forall in F. split; [split|].
  - intros Hin. exact (F _ Hin).
  - intros Hlen. rewrite parse_from_lines.
    apply short_text_index_error, Hlen.
  - intros e Hin. specialize (F _ Hin). simpl in F.
    destruct e as [|k| |s|n]; simpl in F; try contradiction.
    + left. reflexivity.
    + right. exists n. split; [reflexivity | exact F].
Qed.

(** * Patterns are matched at the start of a line only *)








(** * A text without a modes section *)

Lemma keeps_field_try F (proj : Parsed -> F) A (body : M A) handler :
  keeps_field proj body -> (forall e, keeps_field proj (handler e)) ->
  keeps_field proj (try_except body handler).
Proof.
  intros Hb Hh r. unfold try_except. specialize (Hb r).
  destruct (body r) as [r' [a| |e]]; simpl in *; auto.
  rewrite Hh. exact Hb.
Qed.

Lemma short_keeps_modes (lines : list str) :
  length lines <= modes_section_start ->
  keeps_field modes_and_current (parse_block_lines lines).
Proof.
  intros Hlen. apply Nat.leb_le in Hlen.
  unfold parse_block_lines, check_line_count.
  apply keeps_field_bind; [keeps_field_walk|intros _].
  apply keeps_field_bind; [|intros _; apply keeps_field_return].
  apply keeps_field_try; [|intros e; apply keeps_field_report].
  unfold parse_lines.
  apply keeps_field_bind; [unfold parse_header; keeps_field_walk|intros _].
  apply keeps_field_bind; [unfold parse_version; keeps_field_walk|intros _].
  apply keeps_field_bind; [unfold parse_purpose; keeps_field_walk|intros _].
  apply keeps_field_bind;
    [unfold parse_states, for_range, parse_state_line; keeps_field_walk
    |intros _].
  intros r. unfold parse_modes. rewrite Hlen. reflexivity.
Qed.

(** X20. For a text of at most eight non-blank lines the semantic
    validator has nothing to say: the parser returns before the modes
    section, neither the modes nor the current mode are extracted, and the
    combined errors of [validate_trace_block] are the parser's alone. *)
Theorem short_text_no_semantic_errors (content source : str) :
  length (lines_of content) <= 8 ->
  validate_semantic_structure (parse content) = []
  /\ Batch.errors (Batch.validate_trace_block content source)
     = Parser.errors (parse content).
Proof.
  intros Hlen.
  assert (Hsem : validate_semantic_structure (parse content) = []).
  { pose proof (short_keeps_modes (lines_of content) Hlen initial_result) as H.
    rewrite <- parse_from_lines in H. unfold modes_and_current in H.
    simpl in H. injection H as Hm Hc.
    unfold validate_semantic_structure, check_state_order, declared_mode,
      modes_of.
    rewrite Hm, Hc. reflexivity. }
  split; [exact Hsem|].
  unfold Batch.validate_trace_block. cbn [Batch.errors].
  rewrite Hsem. apply app_nil_r.
Qed.

Lemma short_text_no_semantic_errors_witness :
  length (lines_of (Examples.first_lines 8 Examples.generated)) <= 8
  /\ validate_semantic_structure
       (parse (Examples.first_lines 8 Examples.generated)) = []
  /\ Batch.errors (Batch.validate_trace_block
                     (Examples.first_lines 8 Examples.generated) (u "string"))
     = Parser.errors (parse (Examples.first_lines 8 Examples.generated)).
Proof.
  assert (H : length (lines_of (Examples.first_lines 8 Examples.generated))
              <= 8)
    by (vm_compute; apply le_n).
  exact (conj H (short_text_no_semantic_errors
                   (Examples.first_lines 8 Examples.generated) (u "string") H)).
Defined.

(** * What a valid Generative block guarantees *)

(** X21. A block that [validate_trace_block] accepts as valid and whose
    current mode is Gen has exactly the four states of the grammar, in the
    canonical order @, &, %, ~, each with its canonical name and policy. *)
Theorem valid_gen_block_has_canonical_states (content source : str) :
  Batch.is_valid (Batch.validate_trace_block content source) = true ->
  declared_mode (parse content) = Some (u "Gen") ->
  states (parsed (parse content))
  = Some [ (u "@", {| name := u "Governance Traceability";
                      policy := u "Common Source" |});
           (u "&", {| name := u "Information Variety";
                      policy := u "Unity Non-Absolute" |});
           (u "%", {| name := u "Inference Accountability";
                      policy := u "Opposition Non-Absolute" |});
           (u "~", {| name := u "Intelligence Integrity";
                      policy := u "Balance Universal" |}) ].
Proof.
  intros Hv Hmode.
  unfold Batch.validate_trace_block in Hv. cbn [Batch.is_valid] in Hv.
  apply andb_true_iff in Hv as [Hp Hs].
  apply Nat.eqb_eq, length_zero_iff_nil in Hs.
  unfold validate_semantic_structure in Hs.
  apply app_eq_nil in Hs as [Ho _].
  destruct (valid_parse_satisfies (fun _ => canonical_states)
              ensures_parse_lines_states content Hp) as (d & Hd & Hall).
  unfold check_state_order in Ho. rewrite Hmode, str_eqb_refl in Ho.
  unfold states_of in Ho. rewrite Hd in Ho. cbv zeta in Ho.
  destruct (list_str_eqb (Dict.keys d) expected_order) eqn:E;
    [|discriminate Ho].
  apply list_str_eqb_eq in E. rewrite Hd. clear Ho Hd Hp Hmode.
  destruct d as [|[k1 [n1 p1]] [|[k2 [n2 p2]] [|[k3 [n3 p3]]
                   [|[k4 [n4 p4]] [|e5 d]]]]]; try discriminate E.
  unfold expected_order in E. cbn [Dict.keys map fst] in E.
  injection E as -> -> -> ->.
  repeat match goal with
         | H : Forall _ (_ :: _) |- _ =>
           let Hc := fresh "Hc" in
           let Hn := fresh "Hn" in
           let Hq := fresh "Hq" in
           apply Forall_cons_iff in H as [Hc H];
           destruct Hc as [Hn Hq]; cbv in Hn, Hq;
           injection Hn as <-; injection Hq as <-
         end.
  reflexivity.
Qed.

Lemma valid_gen_block_has_canonical_states_witness :
  states (parsed (parse (Examples.with_trailing [] [] [])))
  = Some [ (u "@", {| name := u "Governance Traceability";
                      policy := u "Common Source" |});
           (u "&", {| name := u "Information Variety";
                      policy := u "Unity Non-Absolute" |});
           (u "%", {| name := u "Inference Accountability";
                      policy := u "Opposition Non-Absolute" |});
           (u "~", {| name := u "Intelligence Integrity";
                      policy := u "Balance Universal" |}) ].
Proof.
  assert (Hv : Batch.is_valid
                 (Batch.validate_trace_block (Examples.with_trailing [] [] [])
                    (u "string")) = true)
    by (vm_compute; reflexivity).
  assert (Hm : declared_mode (parse (Examples.with_trailing [] [] []))
               = Some (u "Gen"))
    by (vm_compute; reflexivity).
  exact (valid_gen_block_has_canonical_states
           (Examples.with_trailing [] [] []) (u "string") Hv Hm).
Defined.
